(** * GPU sort kernels of [opencl_gpusort.h]

    A shallow embedding of the OpenCL device code of [opencl_gpusort.h]:
    the in-chunk bitonic sort kernel ([run_gpusort_single],
    [gpusort_single]), the chunk loader ([gpusort_setup_chunk_rs]) and
    the disabled inter-chunk merge ([run_gpusort_multi],
    [gpusort_set_record]), together with the properties the design
    document states about them.

    Conventions.  A [cl_int] / [cl_uint] is a [Z] with the wrap-around
    written out ([cl_int], [cl_uint]).  A [__global] array is a [list Z]
    read with [aget] and written with [aset].  A kernel is a function of
    the work-item's global id and of the device buffers it is handed; a
    launch ([ndrange]) runs the work-items one after the other. *)

From Stdlib Require Import ZArith List Bool Lia Permutation.
Import ListNotations.
Open Scope Z_scope.

(** ** Machine integers *)

Definition cl_int (z : Z) : Z := (z + 2 ^ 31) mod 2 ^ 32 - 2 ^ 31.
Definition cl_uint (z : Z) : Z := z mod 2 ^ 32.

(** ** Device arrays *)

Fixpoint upd {A : Type} (n : nat) (v : A) (l : list A) : list A :=
  match l, n with
  | [], _ => []
  | _ :: t, O => v :: t
  | h :: t, S n' => h :: upd n' v t
  end.

(** [a[i]]; a read outside the array (undefined in C) yields 0. *)
Definition aget (a : list Z) (i : Z) : Z :=
  if i <? 0 then 0 else nth (Z.to_nat i) a 0.

(** [a[i] = v]; a write outside the array (undefined in C) is dropped. *)
Definition aset (a : list Z) (i v : Z) : list Z :=
  if i <? 0 then a else upd (Z.to_nat i) v a.

(** ** Buffers *)

(** Modelled from the spec: the status codes of the status channel
    ("Success, NoSpace, or Fault"); the [StromError_*] constants are
    declared outside this header. *)
Inductive StromError : Type :=
| StromError_Success
| StromError_DataStoreNoSpace
| StromError_Fault.

Definition kern_parambuf := list Z.
Definition kern_toastbuf := list Z.

(** The column store of a sort chunk.  [kcs_cols] holds the columns the
    [colmeta[j].cs_ofs] offsets address; [nrooms] is the declared
    capacity. *)
Record kern_column_store : Type := mk_kcs {
  nrows : Z;
  nrooms : Z;
  ncols : Z;
  kcs_cols : list (list Z)
}.

Record kern_row_store : Type := mk_krs {
  krs_nrows : Z;
  krs_rows : list (list Z)
}.

(** The packed [kern_gpusort]: parameter buffer, chunk, status, toast
    buffer, in this order. *)
Record kern_gpusort : Type := mk_kgpusort {
  kparam : kern_parambuf;
  kchunk : kern_column_store;
  status : StromError;
  ktoast : kern_toastbuf
}.

Definition KERN_GPUSORT_PARAMBUF (kgpusort : kern_gpusort) := kparam kgpusort.
Definition KERN_GPUSORT_CHUNK (kgpusort : kern_gpusort) := kchunk kgpusort.
Definition KERN_GPUSORT_STATUS (kgpusort : kern_gpusort) := status kgpusort.
Definition KERN_GPUSORT_TOASTBUF (kgpusort : kern_gpusort) := ktoast kgpusort.

(** Column [j] of a chunk, and the chunk with column [j] replaced. *)
Definition kcs_column (kcs : kern_column_store) (j : Z) : list Z :=
  nth (Z.to_nat j) (kcs_cols kcs) [].

Definition kcs_set_column (kcs : kern_column_store) (j : Z) (c : list Z)
  : kern_column_store :=
  mk_kcs (nrows kcs) (nrooms kcs) (ncols kcs)
         (upd (Z.to_nat j) c (kcs_cols kcs)).

(** last column of kchunk is index array of the chunk *)
Definition KERN_GPUSORT_RESULT_INDEX (kchunk : kern_column_store) : list Z :=
  kcs_column kchunk (ncols kchunk - 1).

(** [results[i] = v] through the pointer [KERN_GPUSORT_RESULT_INDEX]
    yields. *)
Definition store_result (kchunk : kern_column_store) (i v : Z)
  : kern_column_store :=
  kcs_set_column kchunk (ncols kchunk - 1)
                 (aset (KERN_GPUSORT_RESULT_INDEX kchunk) i v).

(** The chunk with its index array replaced by [r]. *)
Definition set_results (kchunk : kern_column_store) (r : list Z)
  : kern_column_store :=
  kcs_set_column kchunk (ncols kchunk - 1) r.

(** The effect of one work-item on the index array: nothing when the
    partner [i1] is at or beyond the [n] live rows, else the two entries
    are exchanged when [gt] holds of the rows they reference. *)
Definition cmp_swap (gt : Z -> Z -> bool) (n i0 i1 : Z) (r : list Z)
  : list Z :=
  if n <=? i1 then r
  else if gt (aget r i0) (aget r i1)
       then aset (aset r i0 (aget r i1)) i1 (aget r i0)
       else r.

(** A launch over a one-dimensional range of [gsz] work-items. *)
Definition ndrange {S : Type} (gsz : nat) (kernel : Z -> S -> S) (s : S) : S :=
  fold_left (fun s t => kernel (Z.of_nat t) s) (seq 0 gsz) s.

(** ** In-chunk sorting *)

(** The pair of index slots a work-item of [run_gpusort_single] (and of
    [run_gpusort_multi]) owns:
<<
    halfUnitSize = unitsz / 2;  unitMask = unitsz - 1;
    idx0 = (threadID / halfUnitSize) * unitsz + threadID % halfUnitSize;
    idx1 = (reversing
            ? ((idx0 & ~unitMask) | (~idx0 & unitMask))
            : (idx0 + halfUnitSize));
>>
    [unitsz] is a [cl_uint], everything else a [cl_int]; [/] and [%]
    round towards zero. *)
Definition gpusort_idx0 (unitsz threadID : Z) : Z :=
  let halfUnitSize := cl_int (unitsz / 2) in
  cl_int (Z.quot threadID halfUnitSize * unitsz
          + Z.rem threadID halfUnitSize).

Definition gpusort_idx1 (reversing : bool) (unitsz idx0 : Z) : Z :=
  let halfUnitSize := cl_int (unitsz / 2) in
  let unitMask := cl_int (unitsz - 1) in
  if reversing
  then Z.lor (Z.land idx0 (Z.lnot unitMask))
             (Z.land (Z.lnot idx0) unitMask)
  else cl_int (idx0 + halfUnitSize).

Section InChunk.

(** comparison function - to be generated by PG-Strom on the fly *)
Variable gpusort_comp :
  StromError ->
  kern_column_store -> kern_toastbuf -> Z ->
  kern_column_store -> kern_toastbuf -> Z ->
  Z * StromError.

Definition run_gpusort_single
           (kparams : kern_parambuf)
           (reversing : bool)
           (unitsz : Z)
           (kchunk : kern_column_store)
           (ktoast : kern_toastbuf)
           (errcode : StromError)
           (global_id : Z)
  : kern_column_store * StromError :=
  let results := KERN_GPUSORT_RESULT_INDEX kchunk in
  let threadID := cl_int global_id in
  let nrows := cl_int (nrows kchunk) in
  let idx0 := gpusort_idx0 unitsz threadID in
  let idx1 := gpusort_idx1 reversing unitsz idx0 in
  if nrows <=? idx1 then (kchunk, errcode)
  else
    let pos0 := aget results idx0 in
    let pos1 := aget results idx1 in
    let '(rv, errcode) :=
      gpusort_comp errcode kchunk ktoast pos0 kchunk ktoast pos1 in
    if 0 <? rv
    then (* Swap *)
      (store_result (store_result kchunk idx0 pos1) idx1 pos0, errcode)
    else (kchunk, errcode).

Definition gpusort_single
           (bitonic_unitsz : Z)
           (global_id : Z)
           (kgsort : kern_gpusort)
  : kern_gpusort :=
  let kparams := KERN_GPUSORT_PARAMBUF kgsort in
  let kchunk := KERN_GPUSORT_CHUNK kgsort in
  let ktoast := KERN_GPUSORT_TOASTBUF kgsort in
  let reversing := bitonic_unitsz <? 0 in
  let unitsz :=
    if bitonic_unitsz <? 0
    then cl_uint (Z.shiftl 1 (- bitonic_unitsz))
    else cl_uint (Z.shiftl 1 bitonic_unitsz) in
  let errcode := StromError_Success in
  let '(kchunk', _) :=
    run_gpusort_single kparams reversing unitsz kchunk ktoast errcode
                       global_id in
  mk_kgpusort (KERN_GPUSORT_PARAMBUF kgsort) kchunk'
              (KERN_GPUSORT_STATUS kgsort) (KERN_GPUSORT_TOASTBUF kgsort).

(** The comparator's verdict on two rows of the chunk of [kg], as a
    work-item of [gpusort_single] obtains it, and its swap test. *)
Definition row_cmp (kg : kern_gpusort) (p q : Z) : Z :=
  fst (gpusort_comp StromError_Success
                    (kchunk kg) (ktoast kg) p (kchunk kg) (ktoast kg) q).

Definition swap_test (kg : kern_gpusort) (p q : Z) : bool :=
  0 <? row_cmp kg p q.

(** One pass: a launch of [gpusort_single] over [gsz] work-items. *)
Definition gpusort_single_pass (gsz : nat) (bitonic_unitsz : Z)
           (kgsort : kern_gpusort) : kern_gpusort :=
  ndrange gsz (gpusort_single bitonic_unitsz) kgsort.

(** Modelled from the spec: the plain passes that end a stage of the
    host-side driver of the in-chunk sort (the driver is not part of
    this header): units [2^j, ..., 2], largest first.  The kernel is
    handed the binary logarithm of the unit size. *)
Fixpoint bitonic_steps (j : nat) : list Z :=
  match j with
  | O => []
  | S j' => Z.of_nat j :: bitonic_steps j'
  end.

(** Modelled from the spec: the pass schedule of the host-side driver
    of the in-chunk sort.  "A bitonic sorting network over the padded
    (power-of-two) index array [...] each pass is parameterized by a
    unit size (power of two) and a direction flag [...] completion
    after the canonical log2(N) * (log2(N)+1) / 2 passes."  Stage [i]
    (for [i = 1 .. k]) launches the reversing pass of unit [2^i], for
    which the kernel is handed [- i], then the plain passes of units
    [2^(i-1), ..., 2]. *)
Fixpoint bitonic_schedule (k : nat) : list Z :=
  match k with
  | O => []
  | S k' => bitonic_schedule k' ++ (- Z.of_nat k) :: bitonic_steps k'
  end.

(** Modelled from the spec: the host-side driver runs the passes one
    after the other and stops at a fault.  "A comparator fault aborts
    the remaining passes for that chunk"; "the orchestrator inspects
    status after each dispatched operation before scheduling
    dependents". *)
Fixpoint run_passes (gsz : nat) (passes : list Z) (kgsort : kern_gpusort)
  : kern_gpusort :=
  match passes with
  | [] => kgsort
  | b :: passes' =>
      let kgsort' := gpusort_single_pass gsz b kgsort in
      match status kgsort' with
      | StromError_Fault => kgsort'
      | _ => run_passes gsz passes' kgsort'
      end
  end.

(** Modelled from the spec: the in-chunk sort of a chunk whose index
    array has [2^k] slots, every pass launched over [gsz]
    work-items. *)
Definition bitonic_sort (k : nat) (gsz : nat) (kgsort : kern_gpusort)
  : kern_gpusort :=
  run_passes gsz (bitonic_schedule k) kgsort.

End InChunk.

(** ** Loading a chunk *)

(** [atomic_and(p, val)] of OpenCL: stores [old & val] at [p] and returns
    [old]; the pair is (stored value, returned value). *)
Definition atomic_and (old val : Z) : Z * Z := (Z.land old val, old).

(** Modelled from the spec: [*kern_get_datum(kcs, col, row) = v].  The
    accessor [kern_get_datum] is declared outside this header; by
    "stamps the identifier column, and initializes each written slot's
    index entry to its own slot number" the store is taken to reach
    cell [row] of column [col].  Whether the accessor tests [row]
    against the row count (and hands back no address beyond it) cannot
    be read off this header, and nothing is proved here about the cells
    such stores write. *)
Definition kern_put_datum (kcs : kern_column_store) (col row v : Z)
  : kern_column_store :=
  kcs_set_column kcs col (aset (kcs_column kcs col) row v).

Definition kcs_set_nrows (kcs : kern_column_store) (n : Z)
  : kern_column_store :=
  mk_kcs n (nrooms kcs) (ncols kcs) (kcs_cols kcs).

(** Local ids [0 .. lsz-1] of a work-group. *)
Definition local_ids (lsz : Z) : list Z := map Z.of_nat (seq 0 (Z.to_nat lsz)).

Section Loader.

(** Width of [size_t] on the device. *)
Variable address_bits : Z.

Definition size_t (z : Z) : Z := z mod 2 ^ address_bits.

(** Helpers declared outside this header.  Every work-item of a group
    calls [kern_row_to_column] and [kern_writeback_error_status] with
    the same arguments; the functions below stand for what the calls
    of one group achieve together. *)
Variable pg_bytea_param :
  kern_parambuf -> StromError -> Z -> list Z * StromError.

Variable kern_row_to_column :
  StromError -> list Z -> kern_row_store ->
  kern_column_store -> kern_toastbuf ->
  Z (* kcs_offset *) -> Z (* kcs_nitems *) ->
  Z (* global id of the group's first work-item *) ->
  Z (* local size *) ->
  kern_column_store * kern_toastbuf * StromError.

Variable kern_writeback_error_status :
  StromError (* status word *) -> StromError (* errcode *) -> StromError.

(** What the work-item of local id [lid] does after the barrier, once
    the rows are converted: it stamps the record id and the index of
    its slot.  (The source computes [growid] and stores [grecid], an
    undeclared name; the computed value is taken.) *)
Definition setup_stamp (rcs_gstore_num gid0 kcs_offset kcs_nitems : Z)
           (kcs : kern_column_store) (lid : Z) : kern_column_store :=
  if lid <? kcs_nitems
  then
    let ncols := cl_uint (ncols kcs) in
    let rindex := cl_uint (kcs_offset + lid) in
    let growid :=
      Z.lor (Z.shiftl rcs_gstore_num 32 mod 2 ^ 64) (gid0 + lid) in
    (* second last column is global record-id *)
    let kcs := kern_put_datum kcs (cl_uint (ncols - 2)) rindex growid in
    (* last column is index number within a chunk *)
    kern_put_datum kcs (cl_uint (ncols - 1)) rindex rindex
  else kcs.

(** One work-group of [gpusort_setup_chunk_rs]: [gid0] is the global
    id of its work-item of local id 0, [lsz] its local size and
    [kcs_offset0] the value its [__local] variable [kcs_offset] holds
    on entry (the second branch reads it before anything is stored
    there; the source also writes [krs_nrows] for [krs->nrows]).
    Besides the buffers, the range of slots the group reserved is
    returned: [(kcs_offset, kcs_nitems)]. *)
Definition gpusort_setup_chunk_rs
           (rcs_gstore_num : Z)
           (gid0 lsz : Z)
           (kcs_offset0 : Z)
           (krs : kern_row_store)
           (kgpusort : kern_gpusort)
  : kern_gpusort * (Z * Z) :=
  let kparams := KERN_GPUSORT_PARAMBUF kgpusort in
  let kcs := KERN_GPUSORT_CHUNK kgpusort in
  let ktoast := KERN_GPUSORT_TOASTBUF kgpusort in
  let kstatus := KERN_GPUSORT_STATUS kgpusort in
  let errcode := StromError_DataStoreNoSpace (* StromError_Success *) in
  (* if (get_local_id(0) == 0) *)
  let kcs_nitems :=
    size_t (if gid0 + lsz <? krs_nrows krs then lsz
            else if gid0 <? krs_nrows krs then krs_nrows krs - kcs_offset0
                 else 0) in
  let '(nrows', kcs_offset) :=
    atomic_and (nrows kcs) (cl_uint kcs_nitems) in
  let kcs := kcs_set_nrows kcs nrows' in
  (* barrier(CLK_LOCAL_MEM_FENCE) *)
  (* flag of referenced columns *)
  let '(attrefs, errcode) := pg_bytea_param kparams errcode 0 in
  let '(kcs, ktoast, errcode) :=
    kern_row_to_column errcode attrefs krs kcs ktoast
                       kcs_offset kcs_nitems gid0 lsz in
  let kcs :=
    fold_left (setup_stamp rcs_gstore_num gid0 kcs_offset kcs_nitems)
              (local_ids lsz) kcs in
  let kstatus := kern_writeback_error_status kstatus errcode in
  (mk_kgpusort kparams kcs kstatus ktoast, (kcs_offset, kcs_nitems)).

(** A launch of [ngroups] work-groups of [lsz] work-items, one group
    after the other; [stale g] is what [kcs_offset] holds on entry of
    group [g].  The ranges reserved are collected in launch order. *)
Definition gpusort_setup_chunk_rs_launch
           (rcs_gstore_num lsz : Z) (ngroups : nat) (stale : Z -> Z)
           (krs : kern_row_store) (kgpusort : kern_gpusort)
  : kern_gpusort * list (Z * Z) :=
  fold_left
    (fun (acc : kern_gpusort * list (Z * Z)) g =>
       let '(kg', range) :=
         gpusort_setup_chunk_rs rcs_gstore_num (Z.of_nat g * lsz) lsz
                                (stale (Z.of_nat g)) krs (fst acc) in
       (kg', snd acc ++ [range]))
    (seq 0 ngroups) (kgpusort, []).

End Loader.

(** ** Inter-chunk sorting (disabled in the source by [#if 0]) *)

Record merge_bufs : Type := mk_merge {
  x_chunk : kern_column_store;
  x_toast : kern_toastbuf;
  y_chunk : kern_column_store;
  y_toast : kern_toastbuf;
  z_chunk0 : kern_column_store;
  z_toast0 : kern_toastbuf;
  z_chunk1 : kern_column_store;
  z_toast1 : kern_toastbuf
}.

Definition set_x_chunk (b : merge_bufs) (c : kern_column_store) : merge_bufs :=
  mk_merge c (x_toast b) (y_chunk b) (y_toast b)
           (z_chunk0 b) (z_toast0 b) (z_chunk1 b) (z_toast1 b).

Definition set_y_chunk (b : merge_bufs) (c : kern_column_store) : merge_bufs :=
  mk_merge (x_chunk b) (x_toast b) c (y_toast b)
           (z_chunk0 b) (z_toast0 b) (z_chunk1 b) (z_toast1 b).

(** The destination a slot of the virtual output goes to: [z_chunk0]
    when [first] holds, else [z_chunk1]. *)
Definition dst_chunk (first : bool) (b : merge_bufs) : kern_column_store :=
  if first then z_chunk0 b else z_chunk1 b.

Definition dst_toast (first : bool) (b : merge_bufs) : kern_toastbuf :=
  if first then z_toast0 b else z_toast1 b.

Definition set_dst (first : bool) (b : merge_bufs)
           (c : kern_column_store) (t : kern_toastbuf) : merge_bufs :=
  if first
  then mk_merge (x_chunk b) (x_toast b) (y_chunk b) (y_toast b)
                c t (z_chunk1 b) (z_toast1 b)
  else mk_merge (x_chunk b) (x_toast b) (y_chunk b) (y_toast b)
                (z_chunk0 b) (z_toast0 b) c t.

(** Slot [idx] of the virtual sequence: [x_results[idx]] below [N2],
    [y_results[idx - N2]] from [N2] on. *)
Definition virt_get (N2 : Z) (b : merge_bufs) (idx : Z) : Z :=
  if idx <? N2
  then aget (KERN_GPUSORT_RESULT_INDEX (x_chunk b)) idx
  else aget (KERN_GPUSORT_RESULT_INDEX (y_chunk b)) (cl_int (idx - N2)).

Definition virt_set (N2 : Z) (b : merge_bufs) (idx v : Z) : merge_bufs :=
  if idx <? N2
  then set_x_chunk b (store_result (x_chunk b) idx v)
  else set_y_chunk b (store_result (y_chunk b) (cl_int (idx - N2)) v).

Section InterChunk.

Variable gpusort_comp :
  StromError ->
  kern_column_store -> kern_toastbuf -> Z ->
  kern_column_store -> kern_toastbuf -> Z ->
  Z * StromError.

(** Helper declared outside this header: copies row [posSrc] of the
    source into row [posDst] of the destination. *)
Variable kern_column_to_column :
  StromError ->
  kern_column_store -> kern_toastbuf -> Z ->
  kern_column_store -> kern_toastbuf -> Z ->
  kern_column_store * kern_toastbuf * StromError.

(** [gpusort_set_record].  The source does not compile: [?] is
    written [:] in two conditional expressions, and [chunkDst] is used
    by "set nrows" and "set index" before the block that declares it;
    it is read as that block defines it, [posDst < nrowsDst0 ?
    chunkDst0 : chunkDst1]. *)
Definition gpusort_set_record
           (index N nrowsDst0 : Z) (b : merge_bufs) (errcode : StromError)
  : merge_bufs * StromError :=
  let N2 := Z.quot N 2 in
  let posDst := index in
  let posSrc := virt_get N2 b index in
  let chunkPosDst :=
    if posDst <? nrowsDst0 then posDst else cl_int (posDst - nrowsDst0) in
  let chunkPosSrc :=
    if posSrc <? N2 then posSrc else cl_int (posSrc - N2) in
  let first := posDst <? nrowsDst0 in
  (* set nrows *)
  let b :=
    if (chunkPosDst =? cl_int (N2 - 1)) && (posSrc <? N)
    then set_dst first b (kcs_set_nrows (dst_chunk first b) N2)
                 (dst_toast first b)
    else if N <=? posSrc
         then
           let flagLastPlus1 :=
             if 0 <? chunkPosDst
             then
               let indexPrev := cl_int (index - 1) in
               let posPrev := virt_get N2 b indexPrev in
               if N <=? posPrev then false else true
             else true in
           if flagLastPlus1
           then set_dst first b
                        (kcs_set_nrows (dst_chunk first b) chunkPosDst)
                        (dst_toast first b)
           else b
         else b in
  (* set index *)
  let b :=
    set_dst first b
            (store_result (dst_chunk first b) chunkPosDst
                          (if posSrc <? N then chunkPosDst else N))
            (dst_toast first b) in
  (* set row data *)
  if posSrc <? N
  then
    let chunkSrc := if posSrc <? N2 then x_chunk b else y_chunk b in
    let toastSrc := if posSrc <? N2 then x_toast b else y_toast b in
    let '(chunkDst, toastDst, errcode) :=
      kern_column_to_column errcode
                            (dst_chunk first b) (dst_toast first b)
                            chunkPosDst
                            chunkSrc toastSrc chunkPosSrc in
    (set_dst first b chunkDst toastDst, errcode)
  else (b, errcode).

(** "Re-numbering the index at first times."  The stores
    [x_result[threadID]] and [y_results[idx1 - N2]] go through [aset]:
    this is what the source does as long as the two slots lie within
    the index arrays, which the properties stated of it assume. *)
Definition multi_renumber (N N2 threadID idx1 : Z) (b : merge_bufs)
  : merge_bufs :=
  let x_nrows := cl_int (nrows (x_chunk b)) in
  let y_nrows := cl_int (nrows (y_chunk b)) in
  let b :=
    if x_nrows <=? threadID
    then set_x_chunk b (store_result (x_chunk b) threadID N)
    else b in
  let i := cl_int (idx1 - N2) in
  set_y_chunk b
    (store_result (y_chunk b) i
       (if i <? y_nrows
        then cl_int (aget (KERN_GPUSORT_RESULT_INDEX (y_chunk b)) i + N2)
        else N)).

(** The compare-and-swap of the pair [(idx0, idx1)] of the virtual
    sequence; entries at or above [N] are empty (maximum). *)
Definition multi_compare_swap (N N2 idx0 idx1 : Z) (b : merge_bufs)
           (errcode : StromError) : merge_bufs * StromError :=
  let pos0 := virt_get N2 b idx0 in
  let pos1 := virt_get N2 b idx1 in
  if N <=? pos1
  then (* pos1 is empty (maximum) *) (b, errcode)
  else if N <=? pos0
       then (* swap, pos0 is empty (maximum) *)
         (virt_set N2 (virt_set N2 b idx0 pos1) idx1 pos0, errcode)
       else
         (* sorting by data *)
         let chunk0 := if pos0 <? N2 then x_chunk b else y_chunk b in
         let chunk1 := if pos1 <? N2 then x_chunk b else y_chunk b in
         let toast0 := if pos0 <? N2 then x_toast b else y_toast b in
         let toast1 := if pos1 <? N2 then x_toast b else y_toast b in
         let chkPos0 := if pos0 <? N2 then pos0 else cl_int (pos0 - N2) in
         let chkPos1 := if pos1 <? N2 then pos1 else cl_int (pos1 - N2) in
         let '(rv, errcode) :=
           gpusort_comp errcode chunk0 toast0 chkPos0
                        chunk1 toast1 chkPos1 in
         if 0 <? rv
         then (* swap *)
           (virt_set N2 (virt_set N2 b idx0 pos1) idx1 pos0, errcode)
         else (b, errcode).

(** [run_gpusort_multi].  The source declares [cl_int N;] and follows
    it by a loop with an empty body, [for(int i=1; i<x_nrows+y_nrows;
    i<<=1) { }]: [N] is never assigned.  The value the variable
    happens to hold is the argument [N] here.  (Misspelt names of the
    source, [threaadID], [x_result], [result0], are read as the names
    declared.) *)
Definition run_gpusort_multi
           (N : Z)
           (reversing : bool)
           (unitsz : Z)
           (b : merge_bufs)
           (errcode : StromError)
           (global_id : Z)
  : merge_bufs * StromError :=
  let threadID := cl_int global_id in
  let idx0 := gpusort_idx0 unitsz threadID in
  let idx1 := gpusort_idx1 reversing unitsz idx0 in
  let N2 := Z.quot N 2 (* Starting index number of y_chunk *) in
  if N2 <=? threadID then (b, errcode)
  else
    let b := if reversing then multi_renumber N N2 threadID idx1 b else b in
    let '(b, errcode) := multi_compare_swap N N2 idx0 idx1 b errcode in
    (* Update output chunk at last kernel. *)
    if unitsz =? 2
    then
      let '(b, errcode) := gpusort_set_record idx0 N N2 b errcode in
      gpusort_set_record idx1 N N2 b errcode
    else (b, errcode).

Definition gpusort_multi
           (N : Z)
           (mergesort_unitsz : Z)
           (global_id : Z)
           (b : merge_bufs)
  : merge_bufs :=
  let reversing := mergesort_unitsz <? 0 in
  let unitsz :=
    cl_int (if mergesort_unitsz <? 0
            then cl_uint (Z.shiftl 1 (- mergesort_unitsz))
            else cl_uint (Z.shiftl 1 mergesort_unitsz)) in
  let errcode := StromError_Success in
  fst (run_gpusort_multi N reversing (cl_uint unitsz) b errcode global_id).

(** Modelled from the spec: the host-side driver of one merge, which
    is not part of this header.  "The merge runs as a bitonic-merge
    network (same compare/swap structure as the in-chunk sort, but
    seeded from two pre-sorted runs) for unit sizes decreasing to 2":
    over a virtual sequence of [2^k] slots, the reversing pass of unit
    [2^k], then the plain passes of units [2^(k-1), ..., 2]. *)
Definition merge_schedule (k : nat) : list Z :=
  match k with
  | O => []
  | S k' => - Z.of_nat k :: bitonic_steps k'
  end.

(** Modelled from the spec: one merge, every pass launched over
    [gsz] work-items; [N] is what the unassigned variable of the
    kernel holds. *)
Definition merge_chunks (N : Z) (k : nat) (gsz : nat) (b : merge_bufs)
  : merge_bufs :=
  fold_left (fun b u => ndrange gsz (gpusort_multi N u) b)
            (merge_schedule k) b.

End InterChunk.

(** ** The zero-one view of the sorting network

    A threshold row turns the index array into a sequence of bits; the
    predicates below describe blocks [[c, c+s)] of such a sequence. *)

Definition all0 (f : Z -> bool) (c s : Z) : Prop :=
  forall p, c <= p < c + s -> f p = false.

Definition all1 (f : Z -> bool) (c s : Z) : Prop :=
  forall p, c <= p < c + s -> f p = true.

(** zeros, then ones: the ones start at [x] *)
Definition sorted01 (f : Z -> bool) (c s : Z) : Prop :=
  exists x, (c <= x <= c + s) /\
            (forall p, c <= p < c + s -> f p = (x <=? p)).

(** zeros-ones-zeros, or ones-zeros-ones: the middle run is [[x, y)] *)
Definition bitonic01 (f : Z -> bool) (c s : Z) : Prop :=
  (exists x y, (c <= x <= y) /\ (y <= c + s) /\
               (forall p, c <= p < c + s -> f p = (x <=? p) && (p <? y)))
  \/
  (exists x y, (c <= x <= y) /\ (y <= c + s) /\
               (forall p, c <= p < c + s ->
                          f p = negb ((x <=? p) && (p <? y)))).

(** Offset, within its unit, of the partner of offset [l]. *)
Definition partner (rev : bool) (m l : Z) : Z :=
  if rev then 2 ^ m - 1 - l else l + 2 ^ (m - 1).

(** One pass of unit [2^m] over [N] slots, on bits: every pair keeps its
    minimum in the lower slot and its maximum in the upper one. *)
Definition step01 (rev : bool) (m N : Z) (f f' : Z -> bool) : Prop :=
  forall b l,
    0 <= b -> 0 <= l < 2 ^ (m - 1) -> b * 2 ^ m + 2 ^ m <= N ->
    f' (b * 2 ^ m + l)
    = f (b * 2 ^ m + l) && f (b * 2 ^ m + partner rev m l) /\
    f' (b * 2 ^ m + partner rev m l)
    = f (b * 2 ^ m + l) || f (b * 2 ^ m + partner rev m l).

Inductive run01 (N : Z) : list Z -> (Z -> bool) -> (Z -> bool) -> Prop :=
| run01_nil f : run01 N [] f f
| run01_cons b bs f g h :
    step01 (b <? 0) (Z.abs b) N f g ->
    run01 N bs g h ->
    run01 N (b :: bs) f h.

(** The bit of slot [p] of index array [r] at threshold row [v]: is the
    row referenced there greater than [v]?  Slots at or beyond the [n]
    live rows count as greater than everything. *)
Definition bit_of (gt : Z -> Z -> bool) (n v : Z) (r : list Z) (p : Z)
  : bool :=
  if (0 <=? p) && (p <? n) then gt (aget r p) v else true.

(** Every slot below [n] references a row below [n]. *)
Definition prefix_ok (n : Z) (r : list Z) : Prop :=
  forall p, 0 <= p < n -> 0 <= aget r p < n.

(** What the passes of the in-chunk sort of [kg0] maintain: status and
    toast buffer are those of [kg0], the chunk is that of [kg0] up to
    its index array, and the live prefix of the index array is a
    rearrangement of the initial one that references live rows only. *)
Definition sort_inv (kg0 kg : kern_gpusort) : Prop :=
  let n := nrows (kchunk kg0) in
  status kg = status kg0 /\
  ktoast kg = ktoast kg0 /\
  kchunk kg
  = set_results (kchunk kg0) (KERN_GPUSORT_RESULT_INDEX (kchunk kg)) /\
  n <= Z.of_nat (length (KERN_GPUSORT_RESULT_INDEX (kchunk kg))) /\
  prefix_ok n (KERN_GPUSORT_RESULT_INDEX (kchunk kg)) /\
  Permutation
    (firstn (Z.to_nat n) (KERN_GPUSORT_RESULT_INDEX (kchunk kg0)))
    (firstn (Z.to_nat n) (KERN_GPUSORT_RESULT_INDEX (kchunk kg))).

(** The identity index array [0, 1, ..., n-1] the loader leaves. *)
Definition iota (n : Z) : list Z := map Z.of_nat (seq 0 (Z.to_nat n)).

(** ** Sample data

    A comparator as PG-Strom could generate it: rows are ordered by the
    value of column 0; it never faults.  [faulting_comp] orders rows the
    same way but raises a fault on every call. *)
Definition sign_of (c : comparison) : Z :=
  match c with Lt => -1 | Eq => 0 | Gt => 1 end.

Definition key_comp (errcode : StromError)
           (kcs_x : kern_column_store) (ktoast_x : kern_toastbuf) (x_index : Z)
           (kcs_y : kern_column_store) (ktoast_y : kern_toastbuf) (y_index : Z)
  : Z * StromError :=
  (sign_of (aget (kcs_column kcs_x 0) x_index
            ?= aget (kcs_column kcs_y 0) y_index), errcode).

Definition faulting_comp (errcode : StromError)
           (kcs_x : kern_column_store) (ktoast_x : kern_toastbuf) (x_index : Z)
           (kcs_y : kern_column_store) (ktoast_y : kern_toastbuf) (y_index : Z)
  : Z * StromError :=
  (sign_of (aget (kcs_column kcs_x 0) x_index
            ?= aget (kcs_column kcs_y 0) y_index), StromError_Fault).

(** A chunk of capacity [2^k] holding one key column, the record-id
    column and the index array, the latter set to the identity. *)
Definition sample_chunk (keys : list Z) (k : nat) : kern_column_store :=
  mk_kcs (Z.of_nat (length keys)) (2 ^ Z.of_nat k) 3
         [keys; map Z.of_nat (seq 0 (length keys));
          map Z.of_nat (seq 0 (2 ^ k))].

Definition sample_gpusort (keys : list Z) (k : nat) : kern_gpusort :=
  mk_kgpusort [] (sample_chunk keys k) StromError_Success [].

(** Sample helpers of the loader.  The parameter buffer is handed back
    as the flags of the referenced columns, without error. *)
Definition sample_bytea_param (kparams : kern_parambuf) (errcode : StromError)
           (i : Z) : list Z * StromError :=
  (kparams, errcode).

(** [row] written into slot [slot] of the data columns [0 .. ncols-3]. *)
Definition put_row (kcs : kern_column_store) (slot : Z) (row : list Z)
  : kern_column_store :=
  fold_left (fun kcs j => kern_put_datum kcs j slot (aget row j))
            (map Z.of_nat (seq 0 (Z.to_nat (ncols kcs - 2)))) kcs.

(** Modelled from the spec: "converts each record into the chunk's
    columnar layout": the work-item of local id [lid < kcs_nitems] moves
    row [gid0 + lid] of the row store into slot [kcs_offset + lid];
    nothing can fail. *)
Definition sample_row_to_column
           (errcode : StromError) (attrefs : list Z) (krs : kern_row_store)
           (kcs : kern_column_store) (ktoast : kern_toastbuf)
           (kcs_offset kcs_nitems gid0 lsz : Z)
  : kern_column_store * kern_toastbuf * StromError :=
  (fold_left
     (fun kcs lid =>
        if lid <? kcs_nitems
        then put_row kcs (kcs_offset + lid)
                     (nth (Z.to_nat (gid0 + lid)) (krs_rows krs) [])
        else kcs)
     (local_ids lsz) kcs,
   ktoast, errcode).

(** Modelled from the spec: "emits one status code per invocation": the
    error code of the group is stored in a status word that is still
    Success. *)
Definition sample_writeback (kstatus errcode : StromError) : StromError :=
  match kstatus with
  | StromError_Success => errcode
  | _ => kstatus
  end.

(** An empty chunk of [cap] slots with one key column. *)
Definition empty_chunk (cap : nat) : kern_column_store :=
  mk_kcs 0 (Z.of_nat cap) 3
         [repeat 0 cap; repeat 0 cap; repeat 0 cap].

Definition empty_gpusort (cap : nat) : kern_gpusort :=
  mk_kgpusort [] (empty_chunk cap) StromError_Success [].

Definition sample_rows (keys : list Z) : kern_row_store :=
  mk_krs (Z.of_nat (length keys)) (map (fun k => [k]) keys).

(** Sample helper of the merge.  Modelled from the spec: "physically
    copies the winning row's data from its source chunk into the
    destination chunk and slot": every column but the index array is
    copied. *)
Definition sample_column_to_column
           (errcode : StromError)
           (chunkDst : kern_column_store) (toastDst : kern_toastbuf)
           (posDst : Z)
           (chunkSrc : kern_column_store) (toastSrc : kern_toastbuf)
           (posSrc : Z)
  : kern_column_store * kern_toastbuf * StromError :=
  (fold_left
     (fun kcs j =>
        kern_put_datum kcs j posDst (aget (kcs_column chunkSrc j) posSrc))
     (map Z.of_nat (seq 0 (Z.to_nat (ncols chunkDst - 1)))) chunkDst,
   toastDst, errcode).

(** A sorted chunk of capacity [2^k] over [keys] (which are in order),
    tagged [tag] in its second column, and the buffers of a merge of two
    such chunks into two empty ones. *)
Definition tagged_chunk (keys : list Z) (tag : Z) (k : nat)
  : kern_column_store :=
  mk_kcs (Z.of_nat (length keys)) (2 ^ Z.of_nat k) 3
         [keys ++ repeat 0 (2 ^ k - length keys);
          repeat tag (2 ^ k);
          map Z.of_nat (seq 0 (2 ^ k))].

Definition sample_merge (xs ys : list Z) (k : nat) : merge_bufs :=
  mk_merge (tagged_chunk xs 0 k) [] (tagged_chunk ys 1 k) []
           (empty_chunk (2 ^ k)) [] (empty_chunk (2 ^ k)) [].

(** The keys and the tags of the live rows of a chunk, in slot order. *)
Definition live_keys (kcs : kern_column_store) : list Z :=
  firstn (Z.to_nat (nrows kcs)) (kcs_column kcs 0).

Definition live_tags (kcs : kern_column_store) : list Z :=
  firstn (Z.to_nat (nrows kcs)) (kcs_column kcs 1).

(** In the live rows of [z], no record of [y] (tag 1) stands before a
    record of [x] (tag 0) that the comparator [key_comp] ties it with. *)
Definition x_first_on_ties (z : kern_column_store) : Prop :=
  forall i j,
    0 <= i < j -> j < nrows z ->
    fst (key_comp StromError_Success z [] i z [] j) = 0 ->
    aget (kcs_column z 1) i = 1 -> aget (kcs_column z 1) j = 0 -> False.

(** What a work-item of the merge may change of its inputs: the index
    arrays of [x] and [y], nothing else. *)
Definition sources_kept (b b' : merge_bufs) : Prop :=
  x_toast b' = x_toast b /\ y_toast b' = y_toast b /\
  (exists r, x_chunk b' = set_results (x_chunk b) r) /\
  (exists r, y_chunk b' = set_results (y_chunk b) r).

Definition destinations_kept (b b' : merge_bufs) : Prop :=
  z_chunk0 b' = z_chunk0 b /\ z_toast0 b' = z_toast0 b /\
  z_chunk1 b' = z_chunk1 b /\ z_toast1 b' = z_toast1 b.

(** Slot [idx] of the virtual sequence lies within the index array that
    holds it. *)
Definition virt_valid (N2 : Z) (b : merge_bufs) (idx : Z) : Prop :=
  if idx <? N2
  then 0 <= idx
       < Z.of_nat (length (KERN_GPUSORT_RESULT_INDEX (x_chunk b)))
  else 0 <= idx - N2
       < Z.of_nat (length (KERN_GPUSORT_RESULT_INDEX (y_chunk b)))
       /\ idx - N2 < 2 ^ 31.



(** * Properties *)

(** ** Arrays *)

Lemma length_upd {A} (n : nat) (v : A) (l : list A) :
  length (upd n v l) = length l.
Proof.
  revert n; induction l as [|x l IH]; intros [|n]; simpl; auto.
Qed.

Lemma nth_upd_eq {A} (n : nat) (v d : A) (l : list A) :
  (n < length l)%nat -> nth n (upd n v l) d = v.
Proof.
  revert n; induction l as [|x l IH]; intros [|n] H; simpl in *;
    try lia; auto.
  apply IH; lia.
Qed.

Lemma nth_upd_ne {A} (n k : nat) (v d : A) (l : list A) :
  n <> k -> nth k (upd n v l) d = nth k l d.
Proof.
  revert n k; induction l as [|x l IH]; intros [|n] [|k] H; simpl;
    try congruence; auto.
Qed.

Lemma upd_out {A} (n : nat) (v : A) (l : list A) :
  (length l <= n)%nat -> upd n v l = l.
Proof.
  revert n; induction l as [|x l IH]; intros [|n] H; simpl in *;
    try lia; auto.
  f_equal; apply IH; lia.
Qed.

Lemma upd_app_r {A} (l1 l2 : list A) (n : nat) (v : A) :
  upd (length l1 + n) v (l1 ++ l2) = l1 ++ upd n v l2.
Proof.
  induction l1 as [|x l1 IH]; simpl; auto.
  now rewrite IH.
Qed.

Lemma firstn_upd {A} (k n : nat) (v : A) (l : list A) :
  firstn k (upd n v l) = upd n v (firstn k l).
Proof.
  revert k n; induction l as [|x l IH]; intros [|k] [|n]; simpl; auto.
  now rewrite IH.
Qed.

Lemma nth_firstn_lt {A} (k n : nat) (d : A) (l : list A) :
  (n < k)%nat -> nth n (firstn k l) d = nth n l d.
Proof.
  revert k n; induction l as [|x l IH]; intros [|k] [|n] H; simpl;
    try lia; auto.
  apply IH; lia.
Qed.

(** Exchanging two cells of a list permutes it. *)
Lemma upd_swap_perm {A} (i j : nat) (d : A) (l : list A) :
  (i < j)%nat -> (j < length l)%nat ->
  Permutation l (upd j (nth i l d) (upd i (nth j l d) l)).
Proof.
  intros Hij Hj.
  assert (Hsplit : exists l1 a l2 b l3,
             l = l1 ++ a :: l2 ++ b :: l3 /\ length l1 = i /\
             length (l1 ++ a :: l2) = j).
  { destruct (nth_split l d (n := i)) as (l1 & r1 & E1 & L1); [lia|].
    assert (Hr : (j - i - 1 < length r1)%nat).
    { apply (f_equal (@length A)) in E1.
      rewrite length_app in E1; simpl in E1; lia. }
    destruct (nth_split r1 d Hr) as (l2 & l3 & E2 & L2).
    exists l1, (nth i l d), l2, (nth (j - i - 1) r1 d), l3.
    split; [now rewrite <- E2|].
    split; [assumption|].
    rewrite length_app; simpl; lia. }
  destruct Hsplit as (l1 & a & l2 & b & l3 & E & L1 & L2).
  assert (Hi : nth i l d = a).
  { rewrite E, <- L1, nth_middle; reflexivity. }
  assert (Hjv : nth j l d = b).
  { rewrite E, <- L2.
    change (l1 ++ a :: l2 ++ b :: l3) with (l1 ++ (a :: l2) ++ b :: l3).
    rewrite app_assoc, nth_middle; reflexivity. }
  rewrite Hi, Hjv.
  assert (E1 : upd i b l = l1 ++ b :: l2 ++ b :: l3).
  { rewrite E, <- L1.
    replace (length l1) with (length l1 + 0)%nat by lia.
    now rewrite upd_app_r. }
  rewrite E1.
  assert (E2 : upd j a (l1 ++ b :: l2 ++ b :: l3)
               = l1 ++ b :: l2 ++ a :: l3).
  { change (l1 ++ b :: l2 ++ b :: l3) with (l1 ++ (b :: l2) ++ b :: l3).
    rewrite app_assoc.
    replace j with (length (l1 ++ b :: l2) + 0)%nat
      by (rewrite length_app in *; simpl in *; lia).
    rewrite upd_app_r; simpl.
    now rewrite <- app_assoc. }
  rewrite E2, E.
  apply Permutation_app_head.
  change (a :: l2 ++ b :: l3) with ((a :: l2) ++ b :: l3).
  change (b :: l2 ++ a :: l3) with ((b :: l2) ++ a :: l3).
  etransitivity; [apply Permutation_sym, Permutation_middle|].
  etransitivity; [|apply Permutation_middle].
  simpl. etransitivity; [apply perm_swap|].
  do 2 apply perm_skip.
  reflexivity.
Qed.

Lemma length_aset (a : list Z) (i v : Z) : length (aset a i v) = length a.
Proof.
  unfold aset; destruct (i <? 0); auto using length_upd.
Qed.

Lemma aget_aset_eq (a : list Z) (i v : Z) :
  0 <= i < Z.of_nat (length a) -> aget (aset a i v) i = v.
Proof.
  intros H; unfold aget, aset.
  destruct (Z.ltb_spec i 0); [lia|].
  apply nth_upd_eq; lia.
Qed.

Lemma aget_aset_ne (a : list Z) (i j v : Z) :
  i <> j -> aget (aset a i v) j = aget a j.
Proof.
  intros H; unfold aget, aset.
  destruct (Z.ltb_spec j 0); [reflexivity|].
  destruct (Z.ltb_spec i 0); [reflexivity|].
  apply nth_upd_ne; lia.
Qed.

Lemma aset_swap_perm (a : list Z) (i j : Z) :
  0 <= i < j -> j < Z.of_nat (length a) ->
  Permutation a (aset (aset a i (aget a j)) j (aget a i)).
Proof.
  intros Hi Hj; unfold aset, aget.
  destruct (Z.ltb_spec i 0); [lia|].
  destruct (Z.ltb_spec j 0); [lia|].
  apply upd_swap_perm; lia.
Qed.

Lemma firstn_aset (k : nat) (a : list Z) (i v : Z) :
  firstn k (aset a i v) = aset (firstn k a) i v.
Proof.
  unfold aset; destruct (i <? 0); auto using firstn_upd.
Qed.

Lemma aget_firstn (k : nat) (a : list Z) (i : Z) :
  i < Z.of_nat k -> aget (firstn k a) i = aget a i.
Proof.
  intros H; unfold aget.
  destruct (Z.ltb_spec i 0); [reflexivity|].
  apply nth_firstn_lt; lia.
Qed.

(** ** Chunks *)

Lemma results_store (k : kern_column_store) (i v : Z) :
  KERN_GPUSORT_RESULT_INDEX (store_result k i v)
  = aset (KERN_GPUSORT_RESULT_INDEX k) i v.
Proof.
  unfold KERN_GPUSORT_RESULT_INDEX, store_result, kcs_set_column, kcs_column.
  simpl.
  set (c := Z.to_nat (ncols k - 1)).
  destruct (Nat.lt_ge_cases c (length (kcs_cols k))) as [H|H].
  - now rewrite nth_upd_eq.
  - rewrite upd_out by assumption.
    rewrite (nth_overflow _ _ H).
    unfold aset; destruct (i <? 0); auto.
    now destruct (Z.to_nat i).
Qed.

Lemma column_store (k : kern_column_store) (i v j : Z) :
  Z.to_nat j <> Z.to_nat (ncols k - 1) ->
  kcs_column (store_result k i v) j = kcs_column k j.
Proof.
  intros H; unfold store_result, kcs_set_column, kcs_column; simpl.
  apply nth_upd_ne; congruence.
Qed.

Lemma shape_store (k : kern_column_store) (i v : Z) :
  nrows (store_result k i v) = nrows k /\
  nrooms (store_result k i v) = nrooms k /\
  ncols (store_result k i v) = ncols k.
Proof. now unfold store_result, kcs_set_column. Qed.

(** ** Machine arithmetic within range *)

Lemma cl_int_small (z : Z) : - 2 ^ 31 <= z < 2 ^ 31 -> cl_int z = z.
Proof.
  intros H; unfold cl_int.
  rewrite Z.mod_small; lia.
Qed.

Lemma cl_uint_small (z : Z) : 0 <= z < 2 ^ 32 -> cl_uint z = z.
Proof. intros H; unfold cl_uint; now apply Z.mod_small. Qed.

Lemma pow2_half (m : Z) : 1 <= m -> 2 ^ m = 2 * 2 ^ (m - 1).
Proof.
  intros H. replace m with (Z.succ (m - 1)) at 1 by lia.
  apply Z.pow_succ_r; lia.
Qed.

Lemma pow2_div2 (m : Z) : 1 <= m -> 2 ^ m / 2 = 2 ^ (m - 1).
Proof.
  intros H. rewrite (pow2_half m H).
  rewrite Z.mul_comm. apply Z.div_mul; lia.
Qed.

Lemma pow2_pos (m : Z) : 0 <= m -> 0 < 2 ^ m.
Proof. intros; apply Z.pow_pos_nonneg; lia. Qed.

Lemma pow2_le (a b : Z) : 0 <= a <= b -> 2 ^ a <= 2 ^ b.
Proof. intros; apply Z.pow_le_mono_r; lia. Qed.

(** ** The index pair of a work-item *)

Lemma block_div (h b l : Z) : 0 <= l < h -> (b * h + l) / h = b.
Proof.
  intros H. symmetry. apply (Z.div_unique _ _ b l); [left; lia | lia].
Qed.

Lemma block_mod (h b l : Z) : 0 <= l < h -> (b * h + l) mod h = l.
Proof.
  intros H. symmetry. apply (Z.mod_unique _ _ b l); [left; lia | lia].
Qed.

Lemma block_inj (u b r b' r' : Z) :
  0 <= r < u -> 0 <= r' < u -> b * u + r = b' * u + r' ->
  b = b' /\ r = r'.
Proof.
  intros Hr Hr' E.
  assert (Hb : b = b').
  { rewrite <- (block_div u b r Hr), <- (block_div u b' r' Hr').
    now rewrite E. }
  subst b'; split; [reflexivity | lia].
Qed.

(** Work-items below [2^30] stay within the [cl_int] range: the unit
    that holds the pair ends at or before [2^31]. *)
Lemma lane_block_bound (m b l : Z) :
  1 <= m <= 31 -> 0 <= b -> 0 <= l < 2 ^ (m - 1) ->
  b * 2 ^ (m - 1) + l < 2 ^ 30 ->
  b * 2 ^ m + 2 ^ m <= 2 ^ 31.
Proof.
  intros Hm Hb Hl Ht.
  assert (Hh : 0 < 2 ^ (m - 1)) by (apply pow2_pos; lia).
  assert (E30 : 2 ^ 30 = 2 ^ (31 - m) * 2 ^ (m - 1)).
  { rewrite <- Z.pow_add_r by lia. f_equal; lia. }
  assert (E31 : 2 ^ 31 = 2 ^ (31 - m) * 2 ^ m).
  { rewrite <- Z.pow_add_r by lia. f_equal; lia. }
  assert (Hp : 0 < 2 ^ (31 - m)) by (apply pow2_pos; lia).
  assert (Hu : 0 < 2 ^ m) by (apply pow2_pos; lia).
  assert (Hlt : b < 2 ^ (31 - m)) by nia.
  rewrite E31. nia.
Qed.

Lemma gpusort_idx0_block (m b l : Z) :
  1 <= m <= 31 -> 0 <= b -> 0 <= l < 2 ^ (m - 1) ->
  b * 2 ^ (m - 1) + l < 2 ^ 30 ->
  gpusort_idx0 (2 ^ m) (b * 2 ^ (m - 1) + l) = b * 2 ^ m + l.
Proof.
  intros Hm Hb Hl Ht.
  pose proof (lane_block_bound m b l Hm Hb Hl Ht) as Hbound.
  assert (Hh : 0 < 2 ^ (m - 1)) by (apply pow2_pos; lia).
  assert (Hh30 : 2 ^ (m - 1) <= 2 ^ 30) by (apply pow2_le; lia).
  pose proof (pow2_half m ltac:(lia)) as Hu.
  unfold gpusort_idx0.
  rewrite pow2_div2 by lia.
  rewrite (cl_int_small (2 ^ (m - 1))) by lia.
  rewrite Z.quot_div_nonneg, Z.rem_mod_nonneg by nia.
  rewrite block_div, block_mod by lia.
  apply cl_int_small. nia.
Qed.

Lemma gpusort_idx0_exact (m t : Z) :
  1 <= m <= 31 -> 0 <= t < 2 ^ 30 ->
  gpusort_idx0 (2 ^ m) t = (t / (2 ^ m / 2)) * 2 ^ m + t mod (2 ^ m / 2).
Proof.
  intros Hm Ht.
  rewrite pow2_div2 by lia.
  assert (Hh : 0 < 2 ^ (m - 1)) by (apply pow2_pos; lia).
  pose proof (Z.div_mod t (2 ^ (m - 1)) ltac:(lia)) as E.
  pose proof (Z.mod_pos_bound t (2 ^ (m - 1)) Hh) as Hl.
  assert (Hb : 0 <= t / 2 ^ (m - 1)) by (apply Z.div_pos; lia).
  rewrite E at 1.
  rewrite (Z.mul_comm (2 ^ (m - 1))).
  apply gpusort_idx0_block; try lia.
Qed.

(** The reversing partner: the bits below the unit size are
    complemented, the bits above are kept. *)
Lemma mask_complement (m x : Z) :
  0 <= m ->
  Z.lor (Z.land x (Z.lnot (2 ^ m - 1))) (Z.land (Z.lnot x) (2 ^ m - 1))
  = x - x mod 2 ^ m + (2 ^ m - 1 - x mod 2 ^ m).
Proof.
  intros Hm.
  assert (Hu : 0 < 2 ^ m) by (apply pow2_pos; lia).
  assert (Eones : 2 ^ m - 1 = Z.ones m) by (rewrite Z.ones_equiv; lia).
  rewrite Eones.
  set (A := Z.land x (Z.lnot (Z.ones m))).
  set (B := Z.land (Z.lnot x) (Z.ones m)).
  assert (Ehi : A = x - x mod 2 ^ m).
  { unfold A. rewrite <- Z.ldiff_land.
    rewrite Z.ldiff_ones_r by lia.
    rewrite Z.shiftr_div_pow2, Z.shiftl_mul_pow2 by lia.
    pose proof (Z.div_mod x (2 ^ m) ltac:(lia)). lia. }
  assert (Elo : B = 2 ^ m - 1 - x mod 2 ^ m).
  { unfold B. rewrite Z.land_ones by lia.
    unfold Z.lnot.
    pose proof (Z.div_mod x (2 ^ m) ltac:(lia)) as E.
    pose proof (Z.mod_pos_bound x (2 ^ m) Hu) as Hl.
    symmetry.
    apply (Z.mod_unique _ _ (- (x / 2 ^ m) - 1)); [left; lia | lia]. }
  assert (Hdisj : Z.land A B = 0).
  { unfold A, B. apply Z.bits_inj'. intros i Hi.
    rewrite !Z.land_spec, Z.bits_0, !Z.lnot_spec by lia.
    destruct (Z.testbit x i); simpl; [|reflexivity].
    now rewrite andb_false_r. }
  pose proof (Z.add_lor_land A B) as E.
  rewrite Hdisj in E. lia.
Qed.

Lemma mask_complement_bits (m x i : Z) :
  0 <= m -> 0 <= i ->
  Z.testbit
    (Z.lor (Z.land x (Z.lnot (2 ^ m - 1))) (Z.land (Z.lnot x) (2 ^ m - 1)))
    i
  = if i <? m then negb (Z.testbit x i) else Z.testbit x i.
Proof.
  intros Hm Hi.
  replace (2 ^ m - 1) with (Z.ones m)
    by (rewrite Z.ones_equiv; lia).
  rewrite Z.lor_spec, !Z.land_spec, !Z.lnot_spec by lia.
  destruct (Z.ltb_spec i m).
  - rewrite Z.ones_spec_low by lia. simpl.
    now rewrite andb_false_r, andb_true_r.
  - rewrite Z.ones_spec_high by lia. simpl.
    now rewrite andb_false_r, andb_true_r, orb_false_r.
Qed.

Lemma gpusort_idx1_reversing (m idx0 : Z) :
  1 <= m <= 31 ->
  gpusort_idx1 true (2 ^ m) idx0
  = idx0 - idx0 mod 2 ^ m + (2 ^ m - 1 - idx0 mod 2 ^ m).
Proof.
  intros Hm. unfold gpusort_idx1.
  assert (Hu : 0 < 2 ^ m) by (apply pow2_pos; lia).
  assert (Hu31 : 2 ^ m <= 2 ^ 31) by (apply pow2_le; lia).
  rewrite (cl_int_small (2 ^ m - 1)) by lia.
  apply mask_complement; lia.
Qed.

Lemma gpusort_idx1_block (rev : bool) (m b l : Z) :
  1 <= m <= 31 -> 0 <= b -> 0 <= l < 2 ^ (m - 1) ->
  b * 2 ^ m + 2 ^ m <= 2 ^ 31 ->
  gpusort_idx1 rev (2 ^ m) (b * 2 ^ m + l)
  = b * 2 ^ m + (if rev then 2 ^ m - 1 - l else l + 2 ^ (m - 1)).
Proof.
  intros Hm Hb Hl Hbound.
  assert (Hh : 0 < 2 ^ (m - 1)) by (apply pow2_pos; lia).
  pose proof (pow2_half m ltac:(lia)) as Hu.
  destruct rev.
  - rewrite gpusort_idx1_reversing by lia.
    rewrite block_mod by lia. lia.
  - unfold gpusort_idx1.
    rewrite pow2_div2 by lia.
    assert (Hh30 : 2 ^ (m - 1) <= 2 ^ 30) by (apply pow2_le; lia).
    rewrite (cl_int_small (2 ^ (m - 1))) by lia.
    rewrite cl_int_small by nia. lia.
Qed.

(** ** One work-item of the in-chunk sort *)

Lemma upd_upd {A} (n : nat) (v w : A) (l : list A) :
  upd n w (upd n v l) = upd n w l.
Proof.
  revert n; induction l as [|x l IH]; intros [|n]; simpl; auto.
  now rewrite IH.
Qed.

Lemma upd_nth_same {A} (n : nat) (d : A) (l : list A) :
  upd n (nth n l d) l = l.
Proof.
  revert n; induction l as [|x l IH]; intros [|n]; simpl; auto.
  now rewrite IH.
Qed.

Lemma set_results_twice (k : kern_column_store) (r r' : list Z) :
  set_results (set_results k r) r' = set_results k r'.
Proof.
  unfold set_results, kcs_set_column; simpl. now rewrite upd_upd.
Qed.

Lemma set_results_same (k : kern_column_store) :
  set_results k (KERN_GPUSORT_RESULT_INDEX k) = k.
Proof.
  destruct k as [n c nc cols].
  unfold set_results, kcs_set_column, KERN_GPUSORT_RESULT_INDEX, kcs_column.
  simpl. now rewrite upd_nth_same.
Qed.

Lemma store_result_set (k : kern_column_store) (i v : Z) :
  store_result k i v = set_results k (aset (KERN_GPUSORT_RESULT_INDEX k) i v).
Proof. reflexivity. Qed.

Lemma results_set_results (k : kern_column_store) (r : list Z) :
  (Z.to_nat (ncols k - 1) < length (kcs_cols k))%nat ->
  KERN_GPUSORT_RESULT_INDEX (set_results k r) = r.
Proof.
  intros H.
  unfold KERN_GPUSORT_RESULT_INDEX, set_results, kcs_set_column, kcs_column.
  simpl. now apply nth_upd_eq.
Qed.

Lemma column_set_results (k : kern_column_store) (r : list Z) (j : Z) :
  Z.to_nat j <> Z.to_nat (ncols k - 1) ->
  kcs_column (set_results k r) j = kcs_column k j.
Proof.
  intros H; unfold set_results, kcs_set_column, kcs_column; simpl.
  apply nth_upd_ne; congruence.
Qed.

Section Lane.

Variable gpusort_comp :
  StromError ->
  kern_column_store -> kern_toastbuf -> Z ->
  kern_column_store -> kern_toastbuf -> Z ->
  Z * StromError.

(** What [run_gpusort_single] does to the chunk, whatever its
    arguments: a [cmp_swap] of the index array on the pair of the
    work-item, decided by the sign of the comparator. *)
Lemma run_gpusort_single_chunk kparams reversing unitsz kchunk ktoast
      errcode gid :
  fst (run_gpusort_single gpusort_comp kparams reversing unitsz kchunk
                          ktoast errcode gid)
  = set_results kchunk
      (cmp_swap
         (fun p q =>
            0 <? fst (gpusort_comp errcode kchunk ktoast p kchunk ktoast q))
         (cl_int (nrows kchunk))
         (gpusort_idx0 unitsz (cl_int gid))
         (gpusort_idx1 reversing unitsz (gpusort_idx0 unitsz (cl_int gid)))
         (KERN_GPUSORT_RESULT_INDEX kchunk)).
Proof.
  unfold run_gpusort_single, cmp_swap.
  set (idx0 := gpusort_idx0 unitsz (cl_int gid)).
  set (idx1 := gpusort_idx1 reversing unitsz idx0).
  destruct (cl_int (nrows kchunk) <=? idx1).
  - simpl. now rewrite set_results_same.
  - destruct (gpusort_comp errcode kchunk ktoast
                (aget (KERN_GPUSORT_RESULT_INDEX kchunk) idx0) kchunk ktoast
                (aget (KERN_GPUSORT_RESULT_INDEX kchunk) idx1))
      as [rv e] eqn:E.
    simpl. destruct (0 <? rv).
    + simpl. rewrite (store_result_set (store_result _ _ _)).
      rewrite results_store, store_result_set.
      now rewrite set_results_twice.
    + simpl. now rewrite set_results_same.
Qed.

Lemma gpusort_single_unfold bitonic_unitsz gid kgsort :
  gpusort_single gpusort_comp bitonic_unitsz gid kgsort
  = mk_kgpusort
      (kparam kgsort)
      (fst (run_gpusort_single gpusort_comp (kparam kgsort)
              (bitonic_unitsz <? 0)
              (if bitonic_unitsz <? 0
               then cl_uint (Z.shiftl 1 (- bitonic_unitsz))
               else cl_uint (Z.shiftl 1 bitonic_unitsz))
              (kchunk kgsort) (ktoast kgsort) StromError_Success gid))
      (status kgsort) (ktoast kgsort).
Proof.
  unfold gpusort_single, KERN_GPUSORT_PARAMBUF, KERN_GPUSORT_CHUNK,
    KERN_GPUSORT_STATUS, KERN_GPUSORT_TOASTBUF.
  now destruct (run_gpusort_single _ _ _ _ _ _ _ _).
Qed.

(** The unit size a signed [bitonic_unitsz] of magnitude [m] stands
    for. *)
Lemma unitsz_of_magnitude (rev : bool) (m : Z) :
  1 <= m <= 31 ->
  let b := if rev then - m else m in
  (b <? 0) = rev /\
  (if b <? 0 then cl_uint (Z.shiftl 1 (- b)) else cl_uint (Z.shiftl 1 b))
  = 2 ^ m.
Proof.
  intros Hm b.
  assert (Hu : 0 < 2 ^ m) by (apply pow2_pos; lia).
  assert (Hu31 : 2 ^ m <= 2 ^ 31) by (apply pow2_le; lia).
  assert (E : cl_uint (Z.shiftl 1 m) = 2 ^ m).
  { rewrite Z.shiftl_mul_pow2, Z.mul_1_l by lia.
    apply cl_uint_small. lia. }
  subst b; destruct rev.
  - destruct (Z.ltb_spec (- m) 0); [|lia].
    now rewrite Z.opp_involutive.
  - destruct (Z.ltb_spec m 0); [lia|]. now split.
Qed.

(** A launch preserves whatever every work-item preserves. *)
Lemma ndrange_invariant {S : Type} (P : S -> Prop) (gsz : nat)
      (kernel : Z -> S -> S) (s : S) :
  (forall t s, 0 <= t < Z.of_nat gsz -> P s -> P (kernel t s)) ->
  P s -> P (ndrange gsz kernel s).
Proof.
  unfold ndrange. intros Hstep.
  assert (G : forall l s,
             (forall t, In t l -> (t < gsz)%nat) -> P s ->
             P (fold_left (fun s t => kernel (Z.of_nat t) s) l s)).
  { induction l as [|t l IH]; intros s' Hl Hs; simpl; auto.
    apply IH.
    - intros t' Ht'. apply Hl. now right.
    - apply Hstep; auto.
      assert (t < gsz)%nat by (apply Hl; now left). lia. }
  intros Hs. apply G; auto.
  intros t Ht. apply in_seq in Ht. lia.
Qed.

(** The frame of a work-item: parameters, status, toast buffer and
    every column but the index array are left as they were. *)
Lemma gpusort_single_frame bitonic_unitsz gid kgsort :
  let kgsort' := gpusort_single gpusort_comp bitonic_unitsz gid kgsort in
  kparam kgsort' = kparam kgsort /\
  status kgsort' = status kgsort /\
  ktoast kgsort' = ktoast kgsort /\
  kchunk kgsort'
  = set_results (kchunk kgsort) (KERN_GPUSORT_RESULT_INDEX (kchunk kgsort')).
Proof.
  intros kgsort'. subst kgsort'.
  rewrite gpusort_single_unfold; simpl.
  rewrite run_gpusort_single_chunk.
  repeat split.
  set (r' := cmp_swap _ _ _ _ _).
  destruct (Nat.lt_ge_cases (Z.to_nat (ncols (kchunk kgsort) - 1))
                            (length (kcs_cols (kchunk kgsort)))) as [H|H].
  - now rewrite results_set_results.
  - unfold set_results, kcs_set_column.
    rewrite !upd_out by (simpl; try rewrite length_upd; assumption).
    reflexivity.
Qed.

End Lane.

(** ** Compare-and-swap on the index array *)

Lemma cmp_swap_length gt n i0 i1 r :
  length (cmp_swap gt n i0 i1 r) = length r.
Proof.
  unfold cmp_swap.
  destruct (n <=? i1); auto.
  destruct (gt _ _); auto.
  now rewrite !length_aset.
Qed.

Lemma cmp_swap_cases gt n i0 i1 r :
  cmp_swap gt n i0 i1 r = r \/
  (i1 < n /\
   cmp_swap gt n i0 i1 r = aset (aset r i0 (aget r i1)) i1 (aget r i0)).
Proof.
  unfold cmp_swap.
  destruct (Z.leb_spec n i1); auto.
  destruct (gt _ _); auto.
Qed.

Lemma cmp_swap_perm gt n i0 i1 r :
  0 <= i0 < i1 -> n <= Z.of_nat (length r) ->
  Permutation r (cmp_swap gt n i0 i1 r).
Proof.
  intros Hi Hn.
  destruct (cmp_swap_cases gt n i0 i1 r) as [E | [Hlt E]]; rewrite E.
  - reflexivity.
  - apply aset_swap_perm; lia.
Qed.

Lemma results_set_results_len (k : kern_column_store) (r : list Z) :
  length r = length (KERN_GPUSORT_RESULT_INDEX k) ->
  KERN_GPUSORT_RESULT_INDEX (set_results k r) = r.
Proof.
  intros H.
  destruct (Nat.lt_ge_cases (Z.to_nat (ncols k - 1)) (length (kcs_cols k)))
    as [Hc|Hc].
  - now apply results_set_results.
  - unfold KERN_GPUSORT_RESULT_INDEX, kcs_column in *.
    unfold set_results, kcs_set_column; simpl.
    rewrite upd_out by assumption.
    rewrite nth_overflow in * by assumption.
    destruct r; simpl in *; [reflexivity | discriminate].
Qed.

Lemma set_results_canon (k : kern_column_store) (r : list Z) :
  set_results k (KERN_GPUSORT_RESULT_INDEX (set_results k r))
  = set_results k r.
Proof.
  destruct (Nat.lt_ge_cases (Z.to_nat (ncols k - 1)) (length (kcs_cols k)))
    as [Hc|Hc].
  - now rewrite results_set_results.
  - unfold set_results, kcs_set_column.
    now rewrite !upd_out by assumption.
Qed.

Section LaneFacts.

Variable gpusort_comp :
  StromError ->
  kern_column_store -> kern_toastbuf -> Z ->
  kern_column_store -> kern_toastbuf -> Z ->
  Z * StromError.

Lemma gpusort_single_results (rev : bool) (m t : Z) (kg : kern_gpusort) :
  1 <= m <= 31 -> 0 <= t < 2 ^ 30 -> 0 <= nrows (kchunk kg) < 2 ^ 31 ->
  KERN_GPUSORT_RESULT_INDEX
    (kchunk (gpusort_single gpusort_comp (if rev then - m else m) t kg))
  = cmp_swap (swap_test gpusort_comp kg) (nrows (kchunk kg))
             (gpusort_idx0 (2 ^ m) t)
             (gpusort_idx1 rev (2 ^ m) (gpusort_idx0 (2 ^ m) t))
             (KERN_GPUSORT_RESULT_INDEX (kchunk kg)).
Proof.
  intros Hm Ht Hn.
  destruct (unitsz_of_magnitude rev m Hm) as [Erev Eu].
  rewrite gpusort_single_unfold; simpl.
  rewrite Eu, Erev, run_gpusort_single_chunk.
  rewrite (cl_int_small t), (cl_int_small (nrows (kchunk kg))) by lia.
  rewrite results_set_results_len by apply cmp_swap_length.
  reflexivity.
Qed.

Lemma lane_pair_ordered (rev : bool) (m t : Z) :
  1 <= m <= 31 -> 0 <= t < 2 ^ 30 ->
  0 <= gpusort_idx0 (2 ^ m) t
    < gpusort_idx1 rev (2 ^ m) (gpusort_idx0 (2 ^ m) t).
Proof.
  intros Hm Ht.
  assert (Hh : 0 < 2 ^ (m - 1)) by (apply pow2_pos; lia).
  pose proof (pow2_half m ltac:(lia)) as Hu.
  pose proof (Z.div_mod t (2 ^ (m - 1)) ltac:(lia)) as E.
  pose proof (Z.mod_pos_bound t (2 ^ (m - 1)) Hh) as Hl.
  assert (Hb : 0 <= t / 2 ^ (m - 1)) by (apply Z.div_pos; lia).
  set (b := t / 2 ^ (m - 1)) in *.
  set (l := t mod 2 ^ (m - 1)) in *.
  assert (Et : t = b * 2 ^ (m - 1) + l) by lia.
  rewrite Et.
  pose proof (lane_block_bound m b l Hm Hb Hl ltac:(lia)) as Hbound.
  rewrite gpusort_idx0_block by lia.
  rewrite gpusort_idx1_block by lia.
  destruct rev; nia.
Qed.

End LaneFacts.

(** C6: in a pass of unit size [u = 2^m] and direction [r], the
    work-item of thread id [t] owns [idx0 = (t / (u/2)) * u + t mod (u/2)];
    its partner [idx1] is [idx0] with the bits below the unit size
    complemented when [r] is set, and [idx0 + u/2] otherwise.  It
    operates on these two slots: when the partner is at or beyond the
    live row count it leaves the chunk, hence both index entries, as
    they were; otherwise it reads the entries [pos0] and [pos1] at
    [idx0] and [idx1], asks the comparator about the rows they
    reference, and when the verdict is positive stores [pos1] at [idx0]
    and [pos0] at [idx1], else leaves the chunk as it was. *)
Theorem lane_pair_indices
        (gpusort_comp :
           StromError ->
           kern_column_store -> kern_toastbuf -> Z ->
           kern_column_store -> kern_toastbuf -> Z ->
           Z * StromError)
        (m t : Z) (r : bool)
        (kparams : kern_parambuf) (kchunk : kern_column_store)
        (ktoast : kern_toastbuf) (errcode : StromError) :
  1 <= m <= 31 -> 0 <= t < 2 ^ 30 -> 0 <= nrows kchunk < 2 ^ 31 ->
  let u := 2 ^ m in
  let idx0 := gpusort_idx0 u t in
  let idx1 := gpusort_idx1 r u idx0 in
  let results := KERN_GPUSORT_RESULT_INDEX kchunk in
  let pos0 := aget results idx0 in
  let pos1 := aget results idx1 in
  let rv :=
    fst (gpusort_comp errcode kchunk ktoast pos0 kchunk ktoast pos1) in
  let kchunk' :=
    fst (run_gpusort_single gpusort_comp kparams r u kchunk ktoast
                            errcode t) in
  idx0 = (t / (u / 2)) * u + t mod (u / 2) /\
  idx1 = (if r
          then (idx0 - idx0 mod u) + (u - 1 - idx0 mod u)
          else idx0 + u / 2) /\
  (r = true ->
   forall i, 0 <= i ->
             Z.testbit idx1 i
             = if i <? m then negb (Z.testbit idx0 i) else Z.testbit idx0 i) /\
  (nrows kchunk <= idx1 ->
   run_gpusort_single gpusort_comp kparams r u kchunk ktoast errcode t
   = (kchunk, errcode)) /\
  (idx1 < nrows kchunk ->
   kchunk'
   = (if 0 <? rv
      then store_result (store_result kchunk idx0 pos1) idx1 pos0
      else kchunk) /\
   KERN_GPUSORT_RESULT_INDEX kchunk'
   = (if 0 <? rv
      then aset (aset results idx0 pos1) idx1 pos0
      else results)).
Proof.
  intros Hm Ht Hn u idx0 idx1 results pos0 pos1 rv kchunk'.
  assert (Hh : 0 < 2 ^ (m - 1)) by (apply pow2_pos; lia).
  assert (Hu : 0 < 2 ^ m) by (apply pow2_pos; lia).
  assert (Hu31 : 2 ^ m <= 2 ^ 31) by (apply pow2_le; lia).
  pose proof (pow2_half m ltac:(lia)) as Eu.
  pose proof (Z.div_mod t (2 ^ (m - 1)) ltac:(lia)) as E.
  pose proof (Z.mod_pos_bound t (2 ^ (m - 1)) Hh) as Hl.
  assert (Hb : 0 <= t / 2 ^ (m - 1)) by (apply Z.div_pos; lia).
  assert (E0 : idx0 = (t / (u / 2)) * u + t mod (u / 2))
    by (apply gpusort_idx0_exact; lia).
  split; [exact E0|].
  split; [|split; [|split]].
  - subst idx1. destruct r.
    + apply gpusort_idx1_reversing; lia.
    + unfold u in *. rewrite pow2_div2 in * by lia.
      pose proof (lane_block_bound m _ _ Hm Hb Hl ltac:(lia)) as Hbound.
      rewrite E0.
      rewrite (gpusort_idx1_block false) by lia.
      lia.
  - intros -> i Hi. subst idx1. unfold gpusort_idx1.
    unfold u. rewrite (cl_int_small (2 ^ m - 1)) by lia.
    apply mask_complement_bits; lia.
  - intros Hle. unfold run_gpusort_single.
    rewrite (cl_int_small t), (cl_int_small (nrows kchunk)) by lia.
    fold u idx0 idx1.
    destruct (Z.leb_spec (nrows kchunk) idx1); [reflexivity | lia].
  - intros Hlt.
    assert (Ek : kchunk'
                 = (if 0 <? rv
                    then store_result (store_result kchunk idx0 pos1)
                                      idx1 pos0
                    else kchunk)).
    { subst kchunk'. unfold run_gpusort_single.
      rewrite (cl_int_small t), (cl_int_small (nrows kchunk)) by lia.
      fold u idx0 idx1 results pos0 pos1.
      destruct (Z.leb_spec (nrows kchunk) idx1); [lia|].
      subst rv.
      destruct (gpusort_comp errcode kchunk ktoast pos0 kchunk ktoast pos1)
        as [rv0 e0].
      cbn [fst]. destruct (0 <? rv0); reflexivity. }
    split; [exact Ek|].
    rewrite Ek. destruct (0 <? rv); [|reflexivity].
    rewrite !results_store. reflexivity.
Qed.

Lemma lane_pair_indices_witness :
  (gpusort_idx0 (2 ^ 3) 5 = 9 /\
   gpusort_idx1 true (2 ^ 3) (gpusort_idx0 (2 ^ 3) 5) = 14 /\
   run_gpusort_single key_comp [] true (2 ^ 3)
                      (sample_chunk [5; 3; 9; 1; 7] 4) []
                      StromError_Success 5
   = (sample_chunk [5; 3; 9; 1; 7] 4, StromError_Success)) /\
  (gpusort_idx0 (2 ^ 2) 1 = 1 /\
   gpusort_idx1 true (2 ^ 2) (gpusort_idx0 (2 ^ 2) 1) = 2 /\
   KERN_GPUSORT_RESULT_INDEX
     (fst (run_gpusort_single key_comp [] true (2 ^ 2)
                              (sample_chunk [5; 3; 9; 1; 7] 4) []
                              StromError_Success 1))
   = [0; 1; 2; 3; 4; 5; 6; 7; 8; 9; 10; 11; 12; 13; 14; 15]) /\
  (gpusort_idx0 (2 ^ 2) 0 = 0 /\
   gpusort_idx1 true (2 ^ 2) (gpusort_idx0 (2 ^ 2) 0) = 3 /\
   KERN_GPUSORT_RESULT_INDEX
     (fst (run_gpusort_single key_comp [] true (2 ^ 2)
                              (sample_chunk [5; 3; 9; 1; 7] 4) []
                              StromError_Success 0))
   = [3; 1; 2; 0; 4; 5; 6; 7; 8; 9; 10; 11; 12; 13; 14; 15]).
Proof.
  pose proof (lane_pair_indices key_comp 3 5 true []
                (sample_chunk [5; 3; 9; 1; 7] 4) [] StromError_Success
                ltac:(lia) ltac:(lia) ltac:(simpl; lia)) as H.
  pose proof (lane_pair_indices key_comp 2 1 true []
                (sample_chunk [5; 3; 9; 1; 7] 4) [] StromError_Success
                ltac:(lia) ltac:(lia) ltac:(simpl; lia)) as K.
  pose proof (lane_pair_indices key_comp 2 0 true []
                (sample_chunk [5; 3; 9; 1; 7] 4) [] StromError_Success
                ltac:(lia) ltac:(lia) ltac:(simpl; lia)) as L.
  cbv zeta in H, K, L.
  destruct H as (H0 & H1 & _ & H3 & _).
  destruct K as (K0 & K1 & _ & _ & K4).
  destruct L as (L0 & L1 & _ & _ & L4).
  split; [|split].
  - split; [rewrite H0; reflexivity|].
    split; [reflexivity|].
    apply H3. vm_compute. discriminate.
  - split; [rewrite K0; reflexivity|].
    split; [reflexivity|].
    destruct (K4 ltac:(vm_compute; reflexivity)) as [_ Kr].
    rewrite Kr. vm_compute. reflexivity.
  - split; [rewrite L0; reflexivity|].
    split; [reflexivity|].
    destruct (L4 ltac:(vm_compute; reflexivity)) as [_ Lr].
    rewrite Lr. vm_compute. reflexivity.
Defined.

(** C10: every work-item of a pass computes a pair with [idx0 < idx1]
    and either leaves the index array as it was or exchanges exactly the
    entries at [idx0] and [idx1]; hence the index array after a pass is a
    permutation of the index array before it. *)
Theorem lane_swap_permutes
        (gpusort_comp :
           StromError ->
           kern_column_store -> kern_toastbuf -> Z ->
           kern_column_store -> kern_toastbuf -> Z ->
           Z * StromError)
        (m : Z) (rev : bool) (gsz : nat) (kg : kern_gpusort) :
  1 <= m <= 31 -> Z.of_nat gsz <= 2 ^ 30 ->
  0 <= nrows (kchunk kg) < 2 ^ 31 ->
  nrows (kchunk kg)
  <= Z.of_nat (length (KERN_GPUSORT_RESULT_INDEX (kchunk kg))) ->
  let b := if rev then - m else m in
  let r := KERN_GPUSORT_RESULT_INDEX (kchunk kg) in
  (forall t,
      0 <= t < Z.of_nat gsz ->
      let idx0 := gpusort_idx0 (2 ^ m) t in
      let idx1 := gpusort_idx1 rev (2 ^ m) idx0 in
      let r' :=
        KERN_GPUSORT_RESULT_INDEX
          (kchunk (gpusort_single gpusort_comp b t kg)) in
      0 <= idx0 < idx1 /\
      (r' = r \/
       r' = aset (aset r idx0 (aget r idx1)) idx1 (aget r idx0))) /\
  Permutation r
    (KERN_GPUSORT_RESULT_INDEX
       (kchunk (gpusort_single_pass gpusort_comp gsz b kg))).
Proof.
  intros Hm Hg Hn Hlen b r. split.
  - intros t Ht idx0 idx1 r'.
    split; [apply lane_pair_ordered; lia|].
    subst r' b. rewrite gpusort_single_results by lia.
    destruct (cmp_swap_cases (swap_test gpusort_comp kg) (nrows (kchunk kg))
                idx0 idx1 r) as [E | [_ E]]; auto.
  - unfold gpusort_single_pass.
    apply (ndrange_invariant
             (fun s => nrows (kchunk s) = nrows (kchunk kg) /\
                       Permutation r (KERN_GPUSORT_RESULT_INDEX (kchunk s)))).
    + intros t s Ht [Hrows Hperm]. split.
      * destruct (gpusort_single_frame gpusort_comp b t s)
          as (_ & _ & _ & ->).
        exact Hrows.
      * subst b. rewrite gpusort_single_results by lia.
        etransitivity; [exact Hperm|].
        apply cmp_swap_perm.
        -- apply lane_pair_ordered; lia.
        -- rewrite Hrows, <- (Permutation_length Hperm). exact Hlen.
    + split; reflexivity.
Qed.

Lemma lane_swap_permutes_witness :
  Permutation
    (KERN_GPUSORT_RESULT_INDEX (sample_chunk [5; 3; 9; 1; 7] 3))
    (KERN_GPUSORT_RESULT_INDEX
       (kchunk (gpusort_single_pass key_comp 4 (- 1)
                                    (sample_gpusort [5; 3; 9; 1; 7] 3)))).
Proof.
  apply (lane_swap_permutes key_comp 1 true 4
                            (sample_gpusort [5; 3; 9; 1; 7] 3)).
  - lia.
  - simpl; lia.
  - simpl; lia.
  - simpl; lia.
Defined.

(** C9: a pass of the in-chunk sort writes the index array only: the
    parameters, the toast (side) buffer, the row count and every data
    column of the chunk are the same before and after the pass; the
    chunk after the pass is the chunk before it with its last column
    replaced. *)
Theorem pass_frame
        (gpusort_comp :
           StromError ->
           kern_column_store -> kern_toastbuf -> Z ->
           kern_column_store -> kern_toastbuf -> Z ->
           Z * StromError)
        (gsz : nat) (bitonic_unitsz : Z) (kg : kern_gpusort) :
  let kg' := gpusort_single_pass gpusort_comp gsz bitonic_unitsz kg in
  kparam kg' = kparam kg /\
  ktoast kg' = ktoast kg /\
  kchunk kg'
  = set_results (kchunk kg) (KERN_GPUSORT_RESULT_INDEX (kchunk kg')) /\
  nrows (kchunk kg') = nrows (kchunk kg) /\
  forall j, 0 <= j < ncols (kchunk kg) - 1 ->
            kcs_column (kchunk kg') j = kcs_column (kchunk kg) j.
Proof.
  intros kg'.
  assert (H : kparam kg' = kparam kg /\ ktoast kg' = ktoast kg /\
              exists r, kchunk kg' = set_results (kchunk kg) r).
  { subst kg'. unfold gpusort_single_pass.
    apply (ndrange_invariant
             (fun s => kparam s = kparam kg /\ ktoast s = ktoast kg /\
                       exists r, kchunk s = set_results (kchunk kg) r)).
    - intros t s _ (Hp & Ht & r & Hr).
      destruct (gpusort_single_frame gpusort_comp bitonic_unitsz t s)
        as (Ep & _ & Et & Ec).
      repeat split; try congruence.
      eexists. rewrite Ec, Hr. apply set_results_twice.
    - repeat split. exists (KERN_GPUSORT_RESULT_INDEX (kchunk kg)).
      now rewrite set_results_same. }
  destruct H as (Hp & Ht & r & Hr).
  repeat split; auto.
  - rewrite Hr. now rewrite set_results_canon.
  - now rewrite Hr.
  - intros j Hj. rewrite Hr. apply column_set_results. lia.
Qed.

Lemma pass_frame_witness :
  kcs_column
    (kchunk (gpusort_single_pass key_comp 4 (- 1)
                                 (sample_gpusort [5; 3; 9; 1; 7] 3))) 0
  = [5; 3; 9; 1; 7].
Proof.
  destruct (pass_frame key_comp 4 (- 1) (sample_gpusort [5; 3; 9; 1; 7] 3))
    as (_ & _ & _ & _ & H).
  rewrite (H 0); [reflexivity | simpl; lia].
Defined.

(** ** The network on bits *)

Ltac zbool :=
  repeat match goal with
         | |- context [?a <=? ?b] => destruct (Z.leb_spec a b)
         | |- context [?a <? ?b] => destruct (Z.ltb_spec a b)
         end;
  simpl; try reflexivity; try (exfalso; lia).

Lemma sorted01_unit (f : Z -> bool) (c : Z) : sorted01 f c 1.
Proof.
  destruct (f c) eqn:E.
  - exists c. split; [lia|]. intros p Hp.
    replace p with c by lia. rewrite E. zbool.
  - exists (c + 1). split; [lia|]. intros p Hp.
    replace p with c by lia. rewrite E. zbool.
Qed.

Lemma sorted01_join (f : Z -> bool) (c h : Z) :
  0 <= h ->
  sorted01 f c h -> sorted01 f (c + h) h ->
  all0 f c h \/ all1 f (c + h) h ->
  sorted01 f c (2 * h).
Proof.
  intros Hh (x1 & Hx1 & H1) (x2 & Hx2 & H2) [H0 | Ha].
  - exists x2. split; [lia|]. intros p Hp.
    destruct (Z.lt_ge_cases p (c + h)).
    + rewrite H0 by lia. zbool.
    + apply H2; lia.
  - exists x1. split; [lia|]. intros p Hp.
    destruct (Z.lt_ge_cases p (c + h)).
    + apply H1; lia.
    + rewrite Ha by lia. zbool.
Qed.

Lemma sorted01_mono (f : Z -> bool) (c s p q : Z) :
  sorted01 f c s -> c <= p <= q -> q < c + s -> f p = true -> f q = true.
Proof.
  intros (x & Hx & H) Hpq Hq.
  rewrite (H p), (H q) by lia.
  intros Hp. apply Z.leb_le in Hp. apply Z.leb_le. lia.
Qed.

(** The reversing pass on a unit whose halves are sorted: both halves
    become bitonic, and the lower one is all zeros or the upper one all
    ones. *)
Lemma rev_local (f f' : Z -> bool) (c h : Z) :
  0 < h ->
  (forall p, c <= p < c + h ->
             f' p = f p && f (2 * c + 2 * h - 1 - p) /\
             f' (2 * c + 2 * h - 1 - p)
             = f p || f (2 * c + 2 * h - 1 - p)) ->
  sorted01 f c h -> sorted01 f (c + h) h ->
  bitonic01 f' c h /\ bitonic01 f' (c + h) h /\
  (all0 f' c h \/ all1 f' (c + h) h).
Proof.
  intros Hh Hstep (x1 & Hx1 & H1) (x2 & Hx2 & H2).
  assert (L : forall p, c <= p < c + h ->
                        f' p = (x1 <=? p) && (x2 <=? 2 * c + 2 * h - 1 - p)).
  { intros p Hp. destruct (Hstep p Hp) as [E _].
    rewrite E, (H1 p), (H2 (2 * c + 2 * h - 1 - p)) by lia.
    reflexivity. }
  assert (U : forall p, c + h <= p < c + h + h ->
                        f' p = (x1 <=? 2 * c + 2 * h - 1 - p) || (x2 <=? p)).
  { intros p Hp.
    destruct (Hstep (2 * c + 2 * h - 1 - p) ltac:(lia)) as [_ E].
    replace (2 * c + 2 * h - 1 - (2 * c + 2 * h - 1 - p)) with p in E by lia.
    rewrite E, (H1 (2 * c + 2 * h - 1 - p)), (H2 p) by lia.
    reflexivity. }
  split; [|split].
  - left. exists x1, (Z.max x1 (2 * c + 2 * h - x2)).
    split; [lia|]. split; [lia|].
    intros p Hp. rewrite L by lia. zbool.
  - right. exists (2 * c + 2 * h - x1), (Z.max (2 * c + 2 * h - x1) x2).
    split; [lia|]. split; [lia|].
    intros p Hp. rewrite U by lia. zbool.
  - destruct (Z.le_gt_cases (2 * c + 2 * h - x2) x1).
    + left. intros p Hp. rewrite L by lia. zbool.
    + right. intros p Hp. rewrite U by lia. zbool.
Qed.

(** The plain pass (half-cleaner) on a bitonic unit: both halves are
    bitonic again, and the lower one is all zeros or the upper one all
    ones. *)
Lemma hc_local (f f' : Z -> bool) (c h : Z) :
  0 < h ->
  (forall p, c <= p < c + h ->
             f' p = f p && f (p + h) /\
             f' (p + h) = f p || f (p + h)) ->
  bitonic01 f c (2 * h) ->
  bitonic01 f' c h /\ bitonic01 f' (c + h) h /\
  (all0 f' c h \/ all1 f' (c + h) h).
Proof.
  intros Hh Hstep [(x & y & Hxy & Hy & Hf) | (x & y & Hxy & Hy & Hf)].
  - assert (L : forall p, c <= p < c + h ->
                          f' p = ((x <=? p) && (p <? y))
                                 && ((x <=? p + h) && (p + h <? y))).
    { intros p Hp. destruct (Hstep p Hp) as [E _].
      rewrite E, (Hf p), (Hf (p + h)) by lia. reflexivity. }
    assert (U : forall p, c + h <= p < c + h + h ->
                          f' p = ((x <=? p - h) && (p - h <? y))
                                 || ((x <=? p) && (p <? y))).
    { intros p Hp. destruct (Hstep (p - h) ltac:(lia)) as [_ E].
      replace (p - h + h) with p in E by lia.
      rewrite E, (Hf (p - h)), (Hf p) by lia. reflexivity. }
    split; [|split].
    + left. exists (Z.min x (c + h)), (Z.max (Z.min x (c + h)) (y - h)).
      split; [lia|]. split; [lia|].
      intros p Hp. rewrite L by lia. zbool.
    + destruct (Z.lt_ge_cases (x + h) y) as [Hlong | Hshort].
      * right. exists (c + h), (c + h).
        split; [lia|]. split; [lia|].
        intros p Hp. rewrite U by lia. zbool.
      * destruct (Z.le_gt_cases (c + h) x) as [Hx1 | Hx1];
          [|destruct (Z.le_gt_cases y (c + h)) as [Hy1 | Hy1]].
        -- left. exists x, y.
           split; [lia|]. split; [lia|].
           intros p Hp. rewrite U by lia. zbool.
        -- left. exists (x + h), (y + h).
           split; [lia|]. split; [lia|].
           intros p Hp. rewrite U by lia. zbool.
        -- right. exists y, (x + h).
           split; [lia|]. split; [lia|].
           intros p Hp. rewrite U by lia. zbool.
    + destruct (Z.lt_ge_cases (x + h) y) as [Hlong | Hshort].
      * right. intros p Hp. rewrite U by lia. zbool.
      * left. intros p Hp. rewrite L by lia. zbool.
  - assert (L : forall p, c <= p < c + h ->
                          f' p = negb ((x <=? p) && (p <? y))
                                 && negb ((x <=? p + h) && (p + h <? y))).
    { intros p Hp. destruct (Hstep p Hp) as [E _].
      rewrite E, (Hf p), (Hf (p + h)) by lia. reflexivity. }
    assert (U : forall p, c + h <= p < c + h + h ->
                          f' p = negb ((x <=? p - h) && (p - h <? y))
                                 || negb ((x <=? p) && (p <? y))).
    { intros p Hp. destruct (Hstep (p - h) ltac:(lia)) as [_ E].
      replace (p - h + h) with p in E by lia.
      rewrite E, (Hf (p - h)), (Hf p) by lia. reflexivity. }
    split; [|split].
    + destruct (Z.lt_ge_cases (x + h) y) as [Hlong | Hshort].
      * left. exists c, c.
        split; [lia|]. split; [lia|].
        intros p Hp. rewrite L by lia. zbool.
      * destruct (Z.le_gt_cases y (c + h)) as [Hy1 | Hy1];
          [|destruct (Z.le_gt_cases (c + h) x) as [Hx1 | Hx1]].
        -- right. exists x, y.
           split; [lia|]. split; [lia|].
           intros p Hp. rewrite L by lia. zbool.
        -- right. exists (x - h), (y - h).
           split; [lia|]. split; [lia|].
           intros p Hp. rewrite L by lia. zbool.
        -- left. exists (y - h), x.
           split; [lia|]. split; [lia|].
           intros p Hp. rewrite L by lia. zbool.
    + right.
      exists (Z.min (x + h) (c + h + h)),
        (Z.max (Z.min (x + h) (c + h + h)) y).
      split; [lia|]. split; [lia|].
      intros p Hp. rewrite U by lia. zbool.
    + destruct (Z.lt_ge_cases (x + h) y) as [Hlong | Hshort].
      * left. intros p Hp. rewrite L by lia. zbool.
      * right. intros p Hp. rewrite U by lia. zbool.
Qed.

(** ** Passes and units *)

Lemma step01_hc (m N : Z) (f f' : Z -> bool) (b : Z) :
  step01 false m N f f' ->
  1 <= m -> 0 <= b -> b * 2 ^ m + 2 ^ m <= N ->
  forall p, b * 2 ^ m <= p < b * 2 ^ m + 2 ^ (m - 1) ->
            f' p = f p && f (p + 2 ^ (m - 1)) /\
            f' (p + 2 ^ (m - 1)) = f p || f (p + 2 ^ (m - 1)).
Proof.
  intros Hs Hm Hb HN p Hp.
  specialize (Hs b (p - b * 2 ^ m) Hb ltac:(lia) HN).
  unfold partner in Hs.
  replace (b * 2 ^ m + (p - b * 2 ^ m)) with p in Hs by lia.
  replace (b * 2 ^ m + (p - b * 2 ^ m + 2 ^ (m - 1)))
    with (p + 2 ^ (m - 1)) in Hs by lia.
  exact Hs.
Qed.

Lemma step01_rev (m N : Z) (f f' : Z -> bool) (b : Z) :
  step01 true m N f f' ->
  1 <= m -> 0 <= b -> b * 2 ^ m + 2 ^ m <= N ->
  forall p, b * 2 ^ m <= p < b * 2 ^ m + 2 ^ (m - 1) ->
            f' p
            = f p && f (2 * (b * 2 ^ m) + 2 * 2 ^ (m - 1) - 1 - p) /\
            f' (2 * (b * 2 ^ m) + 2 * 2 ^ (m - 1) - 1 - p)
            = f p || f (2 * (b * 2 ^ m) + 2 * 2 ^ (m - 1) - 1 - p).
Proof.
  intros Hs Hm Hb HN p Hp.
  specialize (Hs b (p - b * 2 ^ m) Hb ltac:(lia) HN).
  unfold partner in Hs.
  pose proof (pow2_half m Hm) as Eu.
  replace (b * 2 ^ m + (p - b * 2 ^ m)) with p in Hs by lia.
  replace (b * 2 ^ m + (2 ^ m - 1 - (p - b * 2 ^ m)))
    with (2 * (b * 2 ^ m) + 2 * 2 ^ (m - 1) - 1 - p) in Hs by lia.
  exact Hs.
Qed.

(** Whatever the direction, a slot receives the conjunction or the
    disjunction of two bits of its own unit. *)
Lemma step01_within (rev : bool) (m N : Z) (f f' : Z -> bool) (b : Z) :
  step01 rev m N f f' ->
  1 <= m -> 0 <= b -> b * 2 ^ m + 2 ^ m <= N ->
  forall p, b * 2 ^ m <= p < b * 2 ^ m + 2 ^ m ->
            exists p1 p2,
              (b * 2 ^ m <= p1 < b * 2 ^ m + 2 ^ m) /\
              (b * 2 ^ m <= p2 < b * 2 ^ m + 2 ^ m) /\
              (f' p = f p1 && f p2 \/ f' p = f p1 || f p2).
Proof.
  intros Hs Hm Hb HN p Hp.
  pose proof (pow2_half m Hm) as Eu.
  assert (Hh : 0 < 2 ^ (m - 1)) by (apply pow2_pos; lia).
  destruct (Z.lt_ge_cases p (b * 2 ^ m + 2 ^ (m - 1))) as [Hlo | Hhi].
  - destruct (Hs b (p - b * 2 ^ m) Hb ltac:(lia) HN) as [E _].
    replace (b * 2 ^ m + (p - b * 2 ^ m)) with p in E by lia.
    exists p, (b * 2 ^ m + partner rev m (p - b * 2 ^ m)).
    split; [lia|]. split; [|now left].
    unfold partner; destruct rev; lia.
  - set (l := if rev then b * 2 ^ m + 2 ^ m - 1 - p
              else p - b * 2 ^ m - 2 ^ (m - 1)).
    assert (Hl : 0 <= l < 2 ^ (m - 1)) by (subst l; destruct rev; lia).
    destruct (Hs b l Hb Hl HN) as [_ E].
    assert (Ep : b * 2 ^ m + partner rev m l = p)
      by (unfold partner; subst l; destruct rev; lia).
    rewrite Ep in E.
    exists (b * 2 ^ m + l), p.
    split; [lia|]. split; [lia|now right].
Qed.

(** A block of [2^j] slots aligned on its size is made of whole units
    of [2^m] slots when [m <= j]. *)
Lemma block_refine (m j b p : Z) :
  0 <= m <= j -> 0 <= b ->
  b * 2 ^ j <= p < b * 2 ^ j + 2 ^ j ->
  exists b', 0 <= b' /\
             b' * 2 ^ m <= p < b' * 2 ^ m + 2 ^ m /\
             b * 2 ^ j <= b' * 2 ^ m /\
             b' * 2 ^ m + 2 ^ m <= b * 2 ^ j + 2 ^ j.
Proof.
  intros Hm Hb Hp.
  assert (Hu : 0 < 2 ^ m) by (apply pow2_pos; lia).
  assert (HK : 0 < 2 ^ (j - m)) by (apply pow2_pos; lia).
  assert (E : 2 ^ j = 2 ^ (j - m) * 2 ^ m).
  { rewrite <- Z.pow_add_r by lia. f_equal; lia. }
  pose proof (Z.div_mod p (2 ^ m) ltac:(lia)) as Ed.
  pose proof (Z.mod_pos_bound p (2 ^ m) Hu) as Hr.
  set (q := p / 2 ^ m) in *.
  set (r := p mod 2 ^ m) in *.
  set (K := 2 ^ (j - m)) in *.
  set (u := 2 ^ m) in *.
  rewrite E in *.
  assert (Hlow : b * K <= q) by nia.
  assert (Hupp : q < b * K + K) by nia.
  exists q. repeat split; nia.
Qed.

Lemma step01_all0 (rev : bool) (m N j b : Z) (f f' : Z -> bool) :
  step01 rev m N f f' ->
  1 <= m <= j -> 0 <= b -> b * 2 ^ j + 2 ^ j <= N ->
  all0 f (b * 2 ^ j) (2 ^ j) -> all0 f' (b * 2 ^ j) (2 ^ j).
Proof.
  intros Hs Hm Hb HN H0 p Hp.
  destruct (block_refine m j b p ltac:(lia) Hb Hp)
    as (b' & Hb' & Hp' & Hlo & Hhi).
  destruct (step01_within rev m N f f' b' Hs ltac:(lia) Hb' ltac:(lia) p Hp')
    as (p1 & p2 & H1 & H2 & [E | E]);
    rewrite E, (H0 p1), (H0 p2) by lia; reflexivity.
Qed.

Lemma step01_all1 (rev : bool) (m N j b : Z) (f f' : Z -> bool) :
  step01 rev m N f f' ->
  1 <= m <= j -> 0 <= b -> b * 2 ^ j + 2 ^ j <= N ->
  all1 f (b * 2 ^ j) (2 ^ j) -> all1 f' (b * 2 ^ j) (2 ^ j).
Proof.
  intros Hs Hm Hb HN H0 p Hp.
  destruct (block_refine m j b p ltac:(lia) Hb Hp)
    as (b' & Hb' & Hp' & Hlo & Hhi).
  destruct (step01_within rev m N f f' b' Hs ltac:(lia) Hb' ltac:(lia) p Hp')
    as (p1 & p2 & H1 & H2 & [E | E]);
    rewrite E, (H0 p1), (H0 p2) by lia; reflexivity.
Qed.

Lemma run01_all0 (N j b : Z) (bs : list Z) (f f' : Z -> bool) :
  run01 N bs f f' ->
  Forall (fun x => 1 <= Z.abs x <= j) bs ->
  0 <= b -> b * 2 ^ j + 2 ^ j <= N ->
  all0 f (b * 2 ^ j) (2 ^ j) -> all0 f' (b * 2 ^ j) (2 ^ j).
Proof.
  intros Hrun. induction Hrun as [f | x bs f g h Hs Hrun IH];
    intros Hall Hb HN H0; [assumption|].
  inversion Hall; subst.
  apply IH; auto.
  eapply step01_all0; eauto.
Qed.

Lemma run01_all1 (N j b : Z) (bs : list Z) (f f' : Z -> bool) :
  run01 N bs f f' ->
  Forall (fun x => 1 <= Z.abs x <= j) bs ->
  0 <= b -> b * 2 ^ j + 2 ^ j <= N ->
  all1 f (b * 2 ^ j) (2 ^ j) -> all1 f' (b * 2 ^ j) (2 ^ j).
Proof.
  intros Hrun. induction Hrun as [f | x bs f g h Hs Hrun IH];
    intros Hall Hb HN H0; [assumption|].
  inversion Hall; subst.
  apply IH; auto.
  eapply step01_all1; eauto.
Qed.

Lemma run01_cons_inv (N b : Z) (bs : list Z) (f h : Z -> bool) :
  run01 N (b :: bs) f h ->
  exists g, step01 (b <? 0) (Z.abs b) N f g /\ run01 N bs g h.
Proof.
  intros H. inversion H; subst. eauto.
Qed.

Lemma run01_app (N : Z) (bs1 bs2 : list Z) (f h : Z -> bool) :
  run01 N (bs1 ++ bs2) f h ->
  exists g, run01 N bs1 f g /\ run01 N bs2 g h.
Proof.
  revert f. induction bs1 as [|b bs1 IH]; intros f H; simpl in H.
  - exists f. split; [constructor | assumption].
  - inversion H as [|b' bs' f0 g h0 Hs Hr]; subst.
    destruct (IH g Hr) as (g' & H1 & H2).
    exists g'. split; [econstructor; eauto | assumption].
Qed.

Lemma bitonic_steps_bound (j : nat) :
  Forall (fun x => 1 <= Z.abs x <= Z.of_nat j) (bitonic_steps j).
Proof.
  induction j as [|j IH]; [constructor|].
  change (bitonic_steps (S j)) with (Z.of_nat (S j) :: bitonic_steps j).
  constructor; [lia|].
  eapply Forall_impl; [|exact IH].
  simpl; intros; lia.
Qed.

(** ** The merging passes sort a bitonic block *)

Lemma merge_sorts01 (N : Z) (j : nat) :
  forall (f f' : Z -> bool) (b : Z),
    run01 N (bitonic_steps j) f f' ->
    0 <= b -> b * 2 ^ Z.of_nat j + 2 ^ Z.of_nat j <= N ->
    bitonic01 f (b * 2 ^ Z.of_nat j) (2 ^ Z.of_nat j) ->
    sorted01 f' (b * 2 ^ Z.of_nat j) (2 ^ Z.of_nat j).
Proof.
  induction j as [|j IH]; intros f f' b Hrun Hb HN Hbit.
  - inversion Hrun; subst. apply sorted01_unit.
  - change (bitonic_steps (S j)) with (Z.of_nat (S j) :: bitonic_steps j)
      in Hrun.
    apply run01_cons_inv in Hrun. destruct Hrun as (g & Hs & Hr).
    replace (Z.of_nat (S j) <? 0) with false in Hs
      by (symmetry; apply Z.ltb_ge; lia).
    rewrite Z.abs_eq in Hs by lia.
    set (m := Z.of_nat (S j)) in *.
    assert (Ej : Z.of_nat j = m - 1) by lia.
    rewrite Ej in *.
    pose proof (pow2_half m ltac:(lia)) as Eu.
    assert (Hh : 0 < 2 ^ (m - 1)) by (apply pow2_pos; lia).
    set (h := 2 ^ (m - 1)) in *.
    set (c := b * 2 ^ m) in *.
    destruct (hc_local f g c h Hh) as (B1 & B2 & Hclean).
    { intros p Hp. apply (step01_hc m N f g b Hs); try lia. }
    { rewrite <- Eu. exact Hbit. }
    assert (Ec1 : c = (2 * b) * h) by (subst c; lia).
    assert (Ec2 : c + h = (2 * b + 1) * h) by (subst c; lia).
    rewrite Eu. apply sorted01_join; [lia| | |].
    + rewrite Ec1. apply (IH g f' (2 * b)); try lia; auto.
      now rewrite <- Ec1.
    + rewrite Ec2. apply (IH g f' (2 * b + 1)); try lia; auto.
      now rewrite <- Ec2.
    + destruct Hclean as [H0 | H1]; [left | right].
      * rewrite Ec1 in *.
        apply (run01_all0 N (m - 1) (2 * b) (bitonic_steps j) g f');
          auto; try lia.
        rewrite <- Ej. apply bitonic_steps_bound.
      * rewrite Ec2 in *.
        apply (run01_all1 N (m - 1) (2 * b + 1) (bitonic_steps j) g f');
          auto; try lia.
        rewrite <- Ej. apply bitonic_steps_bound.
Qed.

(** One stage: sorted blocks of [2^j] slots become sorted blocks of
    [2^(j+1)] slots. *)
Lemma stage_sorts01 (N : Z) (j : nat) (f f' : Z -> bool) :
  run01 N (- Z.of_nat (S j) :: bitonic_steps j) f f' ->
  (forall b, 0 <= b -> b * 2 ^ Z.of_nat j + 2 ^ Z.of_nat j <= N ->
             sorted01 f (b * 2 ^ Z.of_nat j) (2 ^ Z.of_nat j)) ->
  forall b, 0 <= b ->
            b * 2 ^ Z.of_nat (S j) + 2 ^ Z.of_nat (S j) <= N ->
            sorted01 f' (b * 2 ^ Z.of_nat (S j)) (2 ^ Z.of_nat (S j)).
Proof.
  intros Hrun Hsorted b Hb HN.
  apply run01_cons_inv in Hrun. destruct Hrun as (g & Hs & Hr).
  replace (- Z.of_nat (S j) <? 0) with true in Hs
    by (symmetry; apply Z.ltb_lt; lia).
  rewrite Z.abs_opp, Z.abs_eq in Hs by lia.
  pose proof (fun b => merge_sorts01 N j g f' b Hr) as M.
  set (m := Z.of_nat (S j)) in *.
  assert (Ej : Z.of_nat j = m - 1) by lia.
  rewrite Ej in *.
  pose proof (pow2_half m ltac:(lia)) as Eu.
  assert (Hh : 0 < 2 ^ (m - 1)) by (apply pow2_pos; lia).
  set (h := 2 ^ (m - 1)) in *.
  set (c := b * 2 ^ m) in *.
  assert (Ec1 : c = (2 * b) * h) by (subst c; lia).
  assert (Ec2 : c + h = (2 * b + 1) * h) by (subst c; lia).
  destruct (rev_local f g c h Hh) as (B1 & B2 & Hclean).
  { intros p Hp. apply (step01_rev m N f g b Hs); try lia. }
  { rewrite Ec1. apply Hsorted; lia. }
  { rewrite Ec2. apply Hsorted; lia. }
  rewrite Eu. apply sorted01_join; [lia| | |].
  - rewrite Ec1. apply (M (2 * b)); try lia.
    now rewrite <- Ec1.
  - rewrite Ec2. apply (M (2 * b + 1)); try lia.
    now rewrite <- Ec2.
  - destruct Hclean as [H0 | H1]; [left | right].
    + rewrite Ec1 in *.
      apply (run01_all0 N (m - 1) (2 * b) (bitonic_steps j) g f');
        auto; try lia.
      rewrite <- Ej. apply bitonic_steps_bound.
    + rewrite Ec2 in *.
      apply (run01_all1 N (m - 1) (2 * b + 1) (bitonic_steps j) g f');
        auto; try lia.
      rewrite <- Ej. apply bitonic_steps_bound.
Qed.

(** The whole schedule sorts every sequence of bits. *)
Lemma schedule_sorts01 (N : Z) (k : nat) :
  forall (f f' : Z -> bool),
    run01 N (bitonic_schedule k) f f' ->
    forall b, 0 <= b -> b * 2 ^ Z.of_nat k + 2 ^ Z.of_nat k <= N ->
              sorted01 f' (b * 2 ^ Z.of_nat k) (2 ^ Z.of_nat k).
Proof.
  induction k as [|k IH]; intros f f' Hrun b Hb HN.
  - apply sorted01_unit.
  - change (bitonic_schedule (S k))
      with (bitonic_schedule k ++ - Z.of_nat (S k) :: bitonic_steps k)
      in Hrun.
    destruct (run01_app _ _ _ _ _ Hrun) as (g & H1 & H2).
    apply (stage_sorts01 N k g f' H2); auto.
    intros b' Hb' HN'. apply (IH f g H1); auto.
Qed.

(** ** A pass, slot by slot *)

Lemma ndrange_S {S : Type} (g : nat) (kernel : Z -> S -> S) (s : S) :
  ndrange (Datatypes.S g) kernel s = kernel (Z.of_nat g) (ndrange g kernel s).
Proof.
  unfold ndrange. rewrite seq_S, fold_left_app. reflexivity.
Qed.

Lemma cmp_swap_ext (gt gt' : Z -> Z -> bool) (n i0 i1 : Z) (r : list Z) :
  (i1 < n -> gt (aget r i0) (aget r i1) = gt' (aget r i0) (aget r i1)) ->
  cmp_swap gt n i0 i1 r = cmp_swap gt' n i0 i1 r.
Proof.
  intros H. unfold cmp_swap.
  destruct (Z.leb_spec n i1); [reflexivity|].
  now rewrite H.
Qed.

Lemma aget_cmp_swap_other gt n i0 i1 r p :
  p <> i0 -> p <> i1 -> aget (cmp_swap gt n i0 i1 r) p = aget r p.
Proof.
  intros H0 H1.
  destruct (cmp_swap_cases gt n i0 i1 r) as [E | [_ E]]; rewrite E;
    [reflexivity|].
  rewrite !aget_aset_ne by congruence. reflexivity.
Qed.

Lemma aget_cmp_swap_pair gt n i0 i1 r :
  0 <= i0 < i1 -> i1 < n -> n <= Z.of_nat (length r) ->
  aget (cmp_swap gt n i0 i1 r) i0
  = (if gt (aget r i0) (aget r i1) then aget r i1 else aget r i0) /\
  aget (cmp_swap gt n i0 i1 r) i1
  = (if gt (aget r i0) (aget r i1) then aget r i0 else aget r i1).
Proof.
  intros Hi Hlt Hn. unfold cmp_swap.
  destruct (Z.leb_spec n i1); [lia|].
  destruct (gt _ _); [|now split].
  split.
  - rewrite aget_aset_ne by lia. apply aget_aset_eq; lia.
  - apply aget_aset_eq. rewrite length_aset. lia.
Qed.

Lemma cmp_swap_prefix_ok gt n i0 i1 r :
  0 <= i0 < i1 -> n <= Z.of_nat (length r) ->
  prefix_ok n r -> prefix_ok n (cmp_swap gt n i0 i1 r).
Proof.
  intros Hi Hn Hok p Hp.
  destruct (Z.le_gt_cases n i1) as [Hout | Hin].
  - unfold cmp_swap. destruct (Z.leb_spec n i1); [|lia]. now apply Hok.
  - destruct (aget_cmp_swap_pair gt n i0 i1 r Hi Hin Hn) as [E0 E1].
    destruct (Z.eq_dec p i0) as [-> | N0];
      [|destruct (Z.eq_dec p i1) as [-> | N1]].
    + rewrite E0. destruct (gt _ _); apply Hok; lia.
    + rewrite E1. destruct (gt _ _); apply Hok; lia.
    + rewrite aget_cmp_swap_other by assumption. now apply Hok.
Qed.

Lemma cmp_swap_prefix_perm gt n i0 i1 r :
  0 <= i0 < i1 -> n <= Z.of_nat (length r) ->
  Permutation (firstn (Z.to_nat n) r)
              (firstn (Z.to_nat n) (cmp_swap gt n i0 i1 r)).
Proof.
  intros Hi Hn.
  destruct (cmp_swap_cases gt n i0 i1 r) as [E | [Hlt E]]; rewrite E;
    [reflexivity|].
  rewrite !firstn_aset.
  rewrite <- (aget_firstn (Z.to_nat n) r i0) by lia.
  rewrite <- (aget_firstn (Z.to_nat n) r i1) by lia.
  apply aset_swap_perm; [lia|].
  rewrite length_firstn. lia.
Qed.

(** Two work-items of a pass own disjoint pairs of slots. *)
Lemma pair_disjoint (rev : bool) (m b l b' l' : Z) :
  1 <= m ->
  0 <= l < 2 ^ (m - 1) -> 0 <= l' < 2 ^ (m - 1) ->
  b <> b' \/ l <> l' ->
  let i0 := b * 2 ^ m + l in
  let i1 := b * 2 ^ m + partner rev m l in
  let i0' := b' * 2 ^ m + l' in
  let i1' := b' * 2 ^ m + partner rev m l' in
  i0 <> i0' /\ i0 <> i1' /\ i1 <> i0' /\ i1 <> i1'.
Proof.
  intros Hm Hl Hl' Hne i0 i1 i0' i1'.
  pose proof (pow2_half m Hm) as Eu.
  assert (Hp : 0 <= partner rev m l < 2 ^ m)
    by (unfold partner; destruct rev; lia).
  assert (Hp' : 0 <= partner rev m l' < 2 ^ m)
    by (unfold partner; destruct rev; lia).
  assert (Hpl : forall a, 0 <= a < 2 ^ (m - 1) ->
                          2 ^ (m - 1) <= partner rev m a)
    by (intros a Ha; unfold partner; destruct rev; lia).
  assert (Hinj : partner rev m l = partner rev m l' -> l = l')
    by (unfold partner; destruct rev; lia).
  pose proof (Hpl l Hl). pose proof (Hpl l' Hl').
  subst i0 i1 i0' i1'.
  repeat split; intros E;
    apply block_inj in E; try lia;
    destruct E as [Eb Er]; lia.
Qed.

(** ** The in-chunk sort is correct *)

Section Sorting.

Variable gpusort_comp :
  StromError ->
  kern_column_store -> kern_toastbuf -> Z ->
  kern_column_store -> kern_toastbuf -> Z ->
  Z * StromError.

Variable kg0 : kern_gpusort.

Let n := nrows (kchunk kg0).
Let gt := swap_test gpusort_comp kg0.

Hypothesis n_range : 0 <= n < 2 ^ 31.

(** The comparator reads the rows, not the index array. *)
Hypothesis comp_rows :
  forall r p q,
    0 <= p < n -> 0 <= q < n ->
    fst (gpusort_comp StromError_Success
                      (set_results (kchunk kg0) r) (ktoast kg0) p
                      (set_results (kchunk kg0) r) (ktoast kg0) q)
    = row_cmp gpusort_comp kg0 p q.

(** The comparator is a total preorder on the rows. *)
Hypothesis comp_total :
  forall p q,
    0 <= p < n -> 0 <= q < n ->
    0 < row_cmp gpusort_comp kg0 p q -> row_cmp gpusort_comp kg0 q p <= 0.

Hypothesis comp_trans :
  forall p q s,
    0 <= p < n -> 0 <= q < n -> 0 <= s < n ->
    row_cmp gpusort_comp kg0 p q <= 0 ->
    row_cmp gpusort_comp kg0 q s <= 0 ->
    row_cmp gpusort_comp kg0 p s <= 0.

Lemma sort_inv_nrows kg : sort_inv kg0 kg -> nrows (kchunk kg) = n.
Proof. intros (_ & _ & -> & _). reflexivity. Qed.

Lemma swap_test_rows kg p q :
  sort_inv kg0 kg -> 0 <= p < n -> 0 <= q < n ->
  swap_test gpusort_comp kg p q = gt p q.
Proof.
  intros (_ & Et & Ec & _) Hp Hq.
  unfold gt, swap_test. f_equal.
  unfold row_cmp at 1. rewrite Ec, Et. now apply comp_rows.
Qed.

Lemma gt_mono x y v :
  0 <= x < n -> 0 <= y < n -> 0 <= v < n ->
  gt (if gt x y then y else x) v = gt x v && gt y v /\
  gt (if gt x y then x else y) v = gt x v || gt y v.
Proof.
  intros Hx Hy Hv. unfold gt, swap_test.
  pose proof (comp_total y v Hy Hv) as Tyv.
  pose proof (comp_trans x v y Hx Hv Hy) as Txvy.
  pose proof (comp_trans x y v Hx Hy Hv) as Txyv.
  destruct (Z.ltb_spec 0 (row_cmp gpusort_comp kg0 x y));
    destruct (Z.ltb_spec 0 (row_cmp gpusort_comp kg0 x v));
    destruct (Z.ltb_spec 0 (row_cmp gpusort_comp kg0 y v));
    simpl; split; try reflexivity; exfalso; lia.
Qed.

(** One work-item keeps the invariant. *)
Lemma lane_inv (rev : bool) (m t : Z) (kg : kern_gpusort) :
  1 <= m <= 31 -> 0 <= t < 2 ^ 30 -> sort_inv kg0 kg ->
  let i0 := gpusort_idx0 (2 ^ m) t in
  let i1 := gpusort_idx1 rev (2 ^ m) i0 in
  let kg' := gpusort_single gpusort_comp (if rev then - m else m) t kg in
  KERN_GPUSORT_RESULT_INDEX (kchunk kg')
  = cmp_swap gt n i0 i1 (KERN_GPUSORT_RESULT_INDEX (kchunk kg)) /\
  sort_inv kg0 kg'.
Proof.
  intros Hm Ht Hinv i0 i1 kg'.
  pose proof (sort_inv_nrows kg Hinv) as En.
  pose proof (lane_pair_ordered rev m t Hm Ht) as Hord.
  fold i0 i1 in Hord.
  pose proof Hinv as Hinv0.
  destruct Hinv as (Es & Et & Ec & Hlen & Hok & Hperm).
  assert (Er : KERN_GPUSORT_RESULT_INDEX (kchunk kg')
               = cmp_swap gt n i0 i1
                          (KERN_GPUSORT_RESULT_INDEX (kchunk kg))).
  { subst kg'. rewrite gpusort_single_results by (rewrite ?En; lia).
    rewrite En. apply cmp_swap_ext. intros Hin.
    apply swap_test_rows; [exact Hinv0| |];
      apply Hok; lia. }
  split; [exact Er|].
  destruct (gpusort_single_frame gpusort_comp (if rev then - m else m) t kg)
    as (_ & Es' & Et' & Ec').
  fold kg' in Es', Et', Ec'.
  split; [|split; [|split; [|split; [|split]]]].
  - congruence.
  - congruence.
  - rewrite Ec' at 1. rewrite Ec. apply set_results_twice.
  - rewrite Er, cmp_swap_length. exact Hlen.
  - rewrite Er. apply cmp_swap_prefix_ok; auto.
  - rewrite Er. etransitivity; [exact Hperm|].
    apply cmp_swap_prefix_perm; auto.
Qed.

(** After the first [T] work-items of a pass, the pairs of these
    work-items hold their minimum and maximum, the other pairs are as
    they were. *)
Lemma pass_prefix (rev : bool) (m : Z) (kg : kern_gpusort) (T : nat) :
  1 <= m <= 31 -> Z.of_nat T <= 2 ^ 30 -> sort_inv kg0 kg ->
  let kg' :=
    ndrange T (gpusort_single gpusort_comp (if rev then - m else m)) kg in
  let r := KERN_GPUSORT_RESULT_INDEX (kchunk kg) in
  let r' := KERN_GPUSORT_RESULT_INDEX (kchunk kg') in
  sort_inv kg0 kg' /\
  forall b l,
    0 <= b -> 0 <= l < 2 ^ (m - 1) ->
    let i0 := b * 2 ^ m + l in
    let i1 := b * 2 ^ m + partner rev m l in
    (b * 2 ^ (m - 1) + l < Z.of_nat T -> i1 < n ->
     aget r' i0
     = (if gt (aget r i0) (aget r i1) then aget r i1 else aget r i0) /\
     aget r' i1
     = (if gt (aget r i0) (aget r i1) then aget r i0 else aget r i1)) /\
    (Z.of_nat T <= b * 2 ^ (m - 1) + l \/ n <= i1 ->
     aget r' i0 = aget r i0 /\ aget r' i1 = aget r i1).
Proof.
  intros Hm HT Hinv. cbv zeta.
  induction T as [|T IH].
  - split; [exact Hinv|].
    intros b l Hb Hl. split; [lia | intros _; split; reflexivity].
  - destruct (IH ltac:(lia)) as [HinvT HT']. clear IH.
    rewrite ndrange_S.
    set (kgT := ndrange T _ kg) in *.
    assert (Hh : 0 < 2 ^ (m - 1)) by (apply pow2_pos; lia).
    pose proof (pow2_half m ltac:(lia)) as Eu.
    set (t := Z.of_nat T).
    assert (Ht : 0 <= t < 2 ^ 30) by lia.
    pose proof (Z.div_mod t (2 ^ (m - 1)) ltac:(lia)) as Ed.
    pose proof (Z.mod_pos_bound t (2 ^ (m - 1)) Hh) as HlT.
    assert (HbT : 0 <= t / 2 ^ (m - 1)) by (apply Z.div_pos; lia).
    set (bT := t / 2 ^ (m - 1)) in *.
    set (lT := t mod 2 ^ (m - 1)) in *.
    assert (Et : t = bT * 2 ^ (m - 1) + lT) by lia.
    pose proof (lane_block_bound m bT lT Hm HbT HlT ltac:(lia)) as Hbound.
    destruct (lane_inv rev m t kgT Hm Ht HinvT) as [Er Hinv'].
    cbv zeta in Er.
    assert (E0 : gpusort_idx0 (2 ^ m) t = bT * 2 ^ m + lT).
    { rewrite Et at 1. apply gpusort_idx0_block; lia. }
    rewrite E0 in Er.
    rewrite (gpusort_idx1_block rev m bT lT) in Er by lia.
    fold (partner rev m lT) in Er.
    split; [exact Hinv'|].
    intros b l Hb Hl.
    destruct (HT' b l Hb Hl) as [Hdone Hkeep].
    cbv zeta in Hdone, Hkeep.
    assert (Hlen : n <= Z.of_nat
                          (length (KERN_GPUSORT_RESULT_INDEX (kchunk kgT))))
      by (destruct HinvT as (_ & _ & _ & Hlen & _); exact Hlen).
    assert (Hord : 0 <= bT * 2 ^ m + lT
                   < bT * 2 ^ m + partner rev m lT)
      by (unfold partner; destruct rev; nia).
    rewrite Er.
    destruct (Z.eq_dec b bT) as [Eb | Nb];
      [destruct (Z.eq_dec l lT) as [El | Nl]|].
    + subst b l. split.
      * intros _ Hin.
        destruct (Hkeep ltac:(left; lia)) as [K0 K1].
        destruct (aget_cmp_swap_pair gt n _ _ _ Hord Hin Hlen) as [P0 P1].
        rewrite P0, P1, K0, K1. split; reflexivity.
      * intros [Hge | Hout]; [lia|].
        unfold cmp_swap.
        destruct (Z.leb_spec n (bT * 2 ^ m + partner rev m lT)); [|lia].
        apply Hkeep. now right.
    + destruct (pair_disjoint rev m b l bT lT ltac:(lia) Hl HlT
                              ltac:(right; exact Nl))
        as (D1 & D2 & D3 & D4).
      rewrite !aget_cmp_swap_other by assumption.
      split.
      * intros Hlt Hin. apply Hdone; [|exact Hin].
        subst b. lia.
      * intros [Hge | Hout]; apply Hkeep; [left | now right].
        subst b. lia.
    + destruct (pair_disjoint rev m b l bT lT ltac:(lia) Hl HlT
                              ltac:(left; exact Nb))
        as (D1 & D2 & D3 & D4).
      rewrite !aget_cmp_swap_other by assumption.
      assert (Hne : b * 2 ^ (m - 1) + l <> t).
      { rewrite Et. intros E. apply block_inj in E; lia. }
      split.
      * intros Hlt Hin. apply Hdone; [lia | exact Hin].
      * intros [Hge | Hout]; apply Hkeep; [left; lia | now right].
Qed.

(** A pass acts on the bits of every threshold row as a pass of the
    network on bits. *)
Lemma pass_step01 (rev : bool) (m K : Z) (gsz : nat) (kg : kern_gpusort)
      (v : Z) :
  1 <= m <= K -> K <= 31 ->
  2 ^ (K - 1) <= Z.of_nat gsz <= 2 ^ 30 ->
  sort_inv kg0 kg -> 0 <= v < n ->
  let kg' := gpusort_single_pass gpusort_comp gsz
                                 (if rev then - m else m) kg in
  sort_inv kg0 kg' /\
  step01 rev m (2 ^ K)
         (bit_of gt n v (KERN_GPUSORT_RESULT_INDEX (kchunk kg)))
         (bit_of gt n v (KERN_GPUSORT_RESULT_INDEX (kchunk kg'))).
Proof.
  intros Hm HK Hg Hinv Hv kg'.
  destruct (pass_prefix rev m kg gsz ltac:(lia) ltac:(lia) Hinv)
    as [Hinv' Hpt].
  cbv zeta in Hpt.
  split; [exact Hinv'|].
  fold (gpusort_single_pass gpusort_comp gsz (if rev then - m else m) kg)
    in Hpt.
  fold kg' in Hpt.
  intros b l Hb Hl HN.
  pose proof (pow2_half m ltac:(lia)) as Eu.
  pose proof (pow2_half K ltac:(lia)) as EK.
  assert (Hh : 0 < 2 ^ (m - 1)) by (apply pow2_pos; lia).
  destruct (Hpt b l Hb Hl) as [Hdone Hkeep].
  assert (Hlane : b * 2 ^ (m - 1) + l < Z.of_nat gsz) by nia.
  set (i0 := b * 2 ^ m + l) in *.
  set (i1 := b * 2 ^ m + partner rev m l) in *.
  assert (Hord : 0 <= i0 < i1)
    by (subst i0 i1; unfold partner; destruct rev; nia).
  destruct Hinv as (_ & _ & _ & _ & Hok & _).
  unfold bit_of.
  destruct (Z.le_gt_cases n i1) as [Hout | Hin].
  - destruct (Hkeep ltac:(now right)) as [K0 K1].
    rewrite K0.
    replace ((0 <=? i1) && (i1 <? n)) with false
      by (symmetry; apply andb_false_iff; right; apply Z.ltb_ge; lia).
    now rewrite andb_true_r, orb_true_r.
  - destruct (Hdone Hlane Hin) as [P0 P1].
    rewrite P0, P1.
    replace ((0 <=? i1) && (i1 <? n)) with true
      by (symmetry; apply andb_true_iff; split;
          [apply Z.leb_le | apply Z.ltb_lt]; lia).
    replace ((0 <=? i0) && (i0 <? n)) with true
      by (symmetry; apply andb_true_iff; split;
          [apply Z.leb_le | apply Z.ltb_lt]; lia).
    apply gt_mono; auto; apply Hok; lia.
Qed.

End Sorting.

(** ** The order of the work-items of a pass does not matter *)

Lemma upd_comm {A} (i j : nat) (v w : A) (l : list A) :
  i <> j -> upd j w (upd i v l) = upd i v (upd j w l).
Proof.
  revert i j; induction l as [|x l IH]; intros [|i] [|j] H; simpl;
    try congruence.
  f_equal. apply IH. congruence.
Qed.

Lemma aset_comm (r : list Z) (i j v w : Z) :
  i <> j -> aset (aset r i v) j w = aset (aset r j w) i v.
Proof.
  intros H. unfold aset.
  destruct (Z.ltb_spec i 0), (Z.ltb_spec j 0); try reflexivity.
  apply upd_comm. lia.
Qed.

Lemma cmp_swap_comm gt n i0 i1 j0 j1 r :
  i0 <> j0 -> i0 <> j1 -> i1 <> j0 -> i1 <> j1 ->
  cmp_swap gt n i0 i1 (cmp_swap gt n j0 j1 r)
  = cmp_swap gt n j0 j1 (cmp_swap gt n i0 i1 r).
Proof.
  intros H00 H01 H10 H11.
  unfold cmp_swap at 1 3.
  rewrite !aget_cmp_swap_other by congruence.
  unfold cmp_swap.
  destruct (n <=? i1), (n <=? j1); try reflexivity.
  destruct (gt (aget r i0) (aget r i1)), (gt (aget r j0) (aget r j1));
    try reflexivity.
  rewrite (aset_comm (aset r j0 (aget r j1)) j1 i0) by congruence.
  rewrite (aset_comm r j0 i0) by congruence.
  rewrite (aset_comm (aset (aset r i0 (aget r i1)) j0 (aget r j1)) j1 i1)
    by congruence.
  rewrite (aset_comm (aset r i0 (aget r i1)) j0 i1) by congruence.
  reflexivity.
Qed.

Lemma fold_left_perm {S : Type} (P : S -> Prop) (dom : nat -> Prop)
      (f : S -> nat -> S) :
  (forall s t, P s -> dom t -> P (f s t)) ->
  (forall s t1 t2, P s -> dom t1 -> dom t2 -> t1 <> t2 ->
                   f (f s t1) t2 = f (f s t2) t1) ->
  forall l l',
    Permutation l l' -> NoDup l -> (forall t, In t l -> dom t) ->
    forall s, P s -> fold_left f l s = fold_left f l' s.
Proof.
  intros Hinv Hcomm l l' Hperm.
  induction Hperm as [|x l l' Hperm IH|x y l|l l' l'' H1 IH1 H2 IH2];
    intros Hnd Hdom s Hs.
  - reflexivity.
  - simpl. inversion Hnd; subst.
    apply IH; auto.
    + intros t Ht. apply Hdom. now right.
    + apply Hinv; auto. apply Hdom. now left.
  - simpl. f_equal.
    inversion Hnd as [|? ? Hy Hnd']; subst.
    apply Hcomm; auto.
    + apply Hdom. now left.
    + apply Hdom. right. now left.
    + intros E. apply Hy. subst. now left.
  - rewrite IH1 by assumption.
    apply IH2; auto.
    + eapply Permutation_NoDup; eauto.
    + intros t Ht. apply Hdom.
      apply (Permutation_in t (Permutation_sym H1) Ht).
Qed.

Section PassOrder.

Variable gpusort_comp :
  StromError ->
  kern_column_store -> kern_toastbuf -> Z ->
  kern_column_store -> kern_toastbuf -> Z ->
  Z * StromError.

Variable kg0 : kern_gpusort.

Hypothesis n_range : 0 <= nrows (kchunk kg0) < 2 ^ 31.

Hypothesis comp_rows :
  forall r p q,
    0 <= p < nrows (kchunk kg0) -> 0 <= q < nrows (kchunk kg0) ->
    fst (gpusort_comp StromError_Success
                      (set_results (kchunk kg0) r) (ktoast kg0) p
                      (set_results (kchunk kg0) r) (ktoast kg0) q)
    = row_cmp gpusort_comp kg0 p q.

Lemma sort_inv_ext (kg1 kg2 : kern_gpusort) :
  sort_inv kg0 kg1 -> sort_inv kg0 kg2 ->
  kparam kg1 = kparam kg2 ->
  KERN_GPUSORT_RESULT_INDEX (kchunk kg1)
  = KERN_GPUSORT_RESULT_INDEX (kchunk kg2) ->
  kg1 = kg2.
Proof.
  intros (S1 & T1 & C1 & _) (S2 & T2 & C2 & _) Hp Hr.
  destruct kg1 as [p1 c1 s1 t1], kg2 as [p2 c2 s2 t2]. simpl in *.
  rewrite Hr in C1. congruence.
Qed.

Lemma lane_pairs_disjoint (rev : bool) (m t1 t2 : Z) :
  1 <= m <= 31 -> 0 <= t1 < 2 ^ 30 -> 0 <= t2 < 2 ^ 30 -> t1 <> t2 ->
  let i0 := gpusort_idx0 (2 ^ m) t1 in
  let i1 := gpusort_idx1 rev (2 ^ m) i0 in
  let j0 := gpusort_idx0 (2 ^ m) t2 in
  let j1 := gpusort_idx1 rev (2 ^ m) j0 in
  i0 <> j0 /\ i0 <> j1 /\ i1 <> j0 /\ i1 <> j1.
Proof.
  intros Hm H1 H2 Hne.
  assert (Hh : 0 < 2 ^ (m - 1)) by (apply pow2_pos; lia).
  pose proof (Z.div_mod t1 (2 ^ (m - 1)) ltac:(lia)) as E1.
  pose proof (Z.mod_pos_bound t1 (2 ^ (m - 1)) Hh) as L1.
  assert (B1 : 0 <= t1 / 2 ^ (m - 1)) by (apply Z.div_pos; lia).
  pose proof (Z.div_mod t2 (2 ^ (m - 1)) ltac:(lia)) as E2.
  pose proof (Z.mod_pos_bound t2 (2 ^ (m - 1)) Hh) as L2.
  assert (B2 : 0 <= t2 / 2 ^ (m - 1)) by (apply Z.div_pos; lia).
  set (b1 := t1 / 2 ^ (m - 1)) in *. set (l1 := t1 mod 2 ^ (m - 1)) in *.
  set (b2 := t2 / 2 ^ (m - 1)) in *. set (l2 := t2 mod 2 ^ (m - 1)) in *.
  assert (Et1 : t1 = b1 * 2 ^ (m - 1) + l1) by lia.
  assert (Et2 : t2 = b2 * 2 ^ (m - 1) + l2) by lia.
  pose proof (lane_block_bound m b1 l1 Hm B1 L1 ltac:(lia)) as K1.
  pose proof (lane_block_bound m b2 l2 Hm B2 L2 ltac:(lia)) as K2.
  cbv zeta. rewrite Et1, Et2.
  rewrite !gpusort_idx0_block by lia.
  rewrite !gpusort_idx1_block by lia.
  apply (pair_disjoint rev m b1 l1 b2 l2); lia.
Qed.

(** Two work-items of a pass commute. *)
Lemma lanes_commute (rev : bool) (m t1 t2 : Z) (kg : kern_gpusort) :
  1 <= m <= 31 -> 0 <= t1 < 2 ^ 30 -> 0 <= t2 < 2 ^ 30 -> t1 <> t2 ->
  sort_inv kg0 kg ->
  let b := if rev then - m else m in
  gpusort_single gpusort_comp b t2 (gpusort_single gpusort_comp b t1 kg)
  = gpusort_single gpusort_comp b t1 (gpusort_single gpusort_comp b t2 kg).
Proof.
  intros Hm H1 H2 Hne Hinv b.
  destruct (lane_inv gpusort_comp kg0 n_range comp_rows rev m t1 kg
                     Hm H1 Hinv) as [R1 I1].
  destruct (lane_inv gpusort_comp kg0 n_range comp_rows rev m t2 kg
                     Hm H2 Hinv) as [R2 I2].
  cbv zeta in R1, R2, I1, I2. fold b in R1, R2, I1, I2.
  destruct (lane_inv gpusort_comp kg0 n_range comp_rows rev m t2 _
                     Hm H2 I1) as [R12 I12].
  destruct (lane_inv gpusort_comp kg0 n_range comp_rows rev m t1 _
                     Hm H1 I2) as [R21 I21].
  cbv zeta in R12, R21, I12, I21. fold b in R12, R21, I12, I21.
  apply sort_inv_ext; auto.
  - destruct (gpusort_single_frame gpusort_comp b t2
                (gpusort_single gpusort_comp b t1 kg)) as (P12 & _).
    destruct (gpusort_single_frame gpusort_comp b t1 kg) as (P1 & _).
    destruct (gpusort_single_frame gpusort_comp b t1
                (gpusort_single gpusort_comp b t2 kg)) as (P21 & _).
    destruct (gpusort_single_frame gpusort_comp b t2 kg) as (P2 & _).
    congruence.
  - rewrite R12, R21, R1, R2.
    destruct (lane_pairs_disjoint rev m t1 t2 Hm H1 H2 Hne)
      as (D1 & D2 & D3 & D4).
    apply cmp_swap_comm; congruence.
Qed.

(** A pass yields the same buffers in whatever order its work-items
    run. *)
Lemma pass_any_order (rev : bool) (m : Z) (gsz : nat) (order : list nat)
      (kg : kern_gpusort) :
  1 <= m <= 31 -> Z.of_nat gsz <= 2 ^ 30 ->
  Permutation (seq 0 gsz) order ->
  sort_inv kg0 kg ->
  let b := if rev then - m else m in
  fold_left (fun s t => gpusort_single gpusort_comp b (Z.of_nat t) s)
            order kg
  = gpusort_single_pass gpusort_comp gsz b kg.
Proof.
  intros Hm Hg Hperm Hinv b.
  unfold gpusort_single_pass, ndrange. symmetry.
  apply (fold_left_perm (sort_inv kg0) (fun t => (t < gsz)%nat)
                        (fun s t => gpusort_single gpusort_comp b
                                                   (Z.of_nat t) s)).
  - intros s t Hs Ht.
    apply (lane_inv gpusort_comp kg0 n_range comp_rows rev m (Z.of_nat t) s);
      auto; lia.
  - intros s t1 t2 Hs Ht1 Ht2 Hne.
    apply (lanes_commute rev m (Z.of_nat t1) (Z.of_nat t2) s); auto; lia.
  - exact Hperm.
  - apply seq_NoDup.
  - intros t Ht. apply in_seq in Ht. lia.
  - exact Hinv.
Qed.

End PassOrder.

Lemma bitonic_schedule_bound (k : nat) :
  Forall (fun x => 1 <= Z.abs x <= Z.of_nat k) (bitonic_schedule k).
Proof.
  induction k as [|k IH]; [constructor|].
  change (bitonic_schedule (S k))
    with (bitonic_schedule k ++ - Z.of_nat (S k) :: bitonic_steps k).
  apply Forall_app. split; [|constructor].
  - eapply Forall_impl; [|exact IH]. simpl; intros; lia.
  - lia.
  - eapply Forall_impl; [|apply bitonic_steps_bound]. simpl; intros; lia.
Qed.

Lemma bitonic_schedule_length (k : nat) :
  2 * Z.of_nat (length (bitonic_schedule k)) = Z.of_nat k * (Z.of_nat k + 1).
Proof.
  assert (Hs : forall j, length (bitonic_steps j) = j)
    by (induction j; simpl; congruence).
  induction k as [|k IH]; [reflexivity|].
  change (bitonic_schedule (S k))
    with (bitonic_schedule k ++ - Z.of_nat (S k) :: bitonic_steps k).
  rewrite length_app. simpl length. rewrite Hs. lia.
Qed.

Section SortingPasses.

Variable gpusort_comp :
  StromError ->
  kern_column_store -> kern_toastbuf -> Z ->
  kern_column_store -> kern_toastbuf -> Z ->
  Z * StromError.

Variable kg0 : kern_gpusort.

Hypothesis n_range : 0 <= nrows (kchunk kg0) < 2 ^ 31.

Hypothesis comp_rows :
  forall r p q,
    0 <= p < nrows (kchunk kg0) -> 0 <= q < nrows (kchunk kg0) ->
    fst (gpusort_comp StromError_Success
                      (set_results (kchunk kg0) r) (ktoast kg0) p
                      (set_results (kchunk kg0) r) (ktoast kg0) q)
    = row_cmp gpusort_comp kg0 p q.

Hypothesis comp_total :
  forall p q,
    0 <= p < nrows (kchunk kg0) -> 0 <= q < nrows (kchunk kg0) ->
    0 < row_cmp gpusort_comp kg0 p q -> row_cmp gpusort_comp kg0 q p <= 0.

Hypothesis comp_trans :
  forall p q s,
    0 <= p < nrows (kchunk kg0) -> 0 <= q < nrows (kchunk kg0) ->
    0 <= s < nrows (kchunk kg0) ->
    row_cmp gpusort_comp kg0 p q <= 0 ->
    row_cmp gpusort_comp kg0 q s <= 0 ->
    row_cmp gpusort_comp kg0 p s <= 0.

Hypothesis no_fault : status kg0 <> StromError_Fault.

(** The driver runs every pass of its list, and the bits of every
    threshold row go through the network on bits. *)
Lemma run_passes_run01 (K : Z) (gsz : nat) (v : Z) (passes : list Z) :
  K <= 31 -> 2 ^ (K - 1) <= Z.of_nat gsz <= 2 ^ 30 ->
  0 <= v < nrows (kchunk kg0) ->
  Forall (fun x => 1 <= Z.abs x <= K) passes ->
  forall kg,
    sort_inv kg0 kg ->
    let kg' := run_passes gpusort_comp gsz passes kg in
    sort_inv kg0 kg' /\
    run01 (2 ^ K) passes
          (bit_of (swap_test gpusort_comp kg0) (nrows (kchunk kg0)) v
                  (KERN_GPUSORT_RESULT_INDEX (kchunk kg)))
          (bit_of (swap_test gpusort_comp kg0) (nrows (kchunk kg0)) v
                  (KERN_GPUSORT_RESULT_INDEX (kchunk kg'))).
Proof.
  intros HK Hg Hv Hall.
  induction Hall as [|b passes Hb Hall IH]; intros kg Hinv; cbv zeta.
  - split; [exact Hinv | constructor].
  - simpl run_passes.
    set (rev := b <? 0). set (m := Z.abs b).
    assert (Eb : b = if rev then - m else m).
    { subst rev m. destruct (Z.ltb_spec b 0); lia. }
    destruct (pass_step01 gpusort_comp kg0 n_range comp_rows comp_total
                          comp_trans rev m K gsz kg v
                          ltac:(subst m; lia) HK Hg Hinv Hv)
      as [Hinv' Hstep].
    cbv zeta in Hstep. rewrite <- Eb in Hinv', Hstep.
    set (kg1 := gpusort_single_pass gpusort_comp gsz b kg) in *.
    assert (Es : status kg1 = status kg0) by (destruct Hinv' as [E _]; exact E).
    destruct (IH kg1 Hinv') as [Hinv'' Hrun].
    cbv zeta in Hrun.
    destruct (status kg1) eqn:Est;
      try (split; [exact Hinv'' | econstructor; eauto]).
    exfalso. apply no_fault. congruence.
Qed.

End SortingPasses.

Lemma iota_range (n p : Z) : In p (iota n) -> 0 <= p < n.
Proof.
  unfold iota. intros H. apply in_map_iff in H.
  destruct H as (k & <- & Hk). apply in_seq in Hk. lia.
Qed.

Lemma aget_in_firstn (r : list Z) (n p : Z) :
  0 <= p < n -> n <= Z.of_nat (length r) ->
  In (aget r p) (firstn (Z.to_nat n) r).
Proof.
  intros Hp Hn.
  rewrite <- (aget_firstn (Z.to_nat n) r p) by lia.
  unfold aget. destruct (Z.ltb_spec p 0); [lia|].
  apply nth_In. rewrite length_firstn. lia.
Qed.

(** C1: for a chunk of [n] rows whose index array starts as a
    rearrangement of [0 .. n-1], and a comparator that is a total
    preorder on the rows (and reads rows, not the index array), the
    in-chunk bitonic sort over an index array padded to [2^k >= n]
    slots leaves, after all its passes, an index array whose prefix
    [[0, n)] is a rearrangement of [0 .. n-1] and references the rows in
    non-decreasing comparator order. *)
Theorem bitonic_sort_sorts
        (gpusort_comp :
           StromError ->
           kern_column_store -> kern_toastbuf -> Z ->
           kern_column_store -> kern_toastbuf -> Z ->
           Z * StromError)
        (k gsz : nat) (kg : kern_gpusort) :
  let n := nrows (kchunk kg) in
  let r := KERN_GPUSORT_RESULT_INDEX (kchunk kg) in
  (k <= 31)%nat ->
  2 ^ (Z.of_nat k - 1) <= Z.of_nat gsz <= 2 ^ 30 ->
  0 <= n <= 2 ^ Z.of_nat k -> n < 2 ^ 31 ->
  n <= Z.of_nat (length r) ->
  status kg <> StromError_Fault ->
  Permutation (firstn (Z.to_nat n) r) (iota n) ->
  (forall r p q,
      0 <= p < n -> 0 <= q < n ->
      fst (gpusort_comp StromError_Success
                        (set_results (kchunk kg) r) (ktoast kg) p
                        (set_results (kchunk kg) r) (ktoast kg) q)
      = row_cmp gpusort_comp kg p q) ->
  (forall p q,
      0 <= p < n -> 0 <= q < n ->
      0 < row_cmp gpusort_comp kg p q -> row_cmp gpusort_comp kg q p <= 0) ->
  (forall p q s,
      0 <= p < n -> 0 <= q < n -> 0 <= s < n ->
      row_cmp gpusort_comp kg p q <= 0 ->
      row_cmp gpusort_comp kg q s <= 0 ->
      row_cmp gpusort_comp kg p s <= 0) ->
  let r' :=
    KERN_GPUSORT_RESULT_INDEX (kchunk (bitonic_sort gpusort_comp k gsz kg)) in
  Permutation (firstn (Z.to_nat n) r') (iota n) /\
  (forall p q,
      0 <= p <= q -> q < n ->
      row_cmp gpusort_comp kg (aget r' p) (aget r' q) <= 0).
Proof.
  intros n r Hk Hg Hn Hn31 Hlen Hst Hperm Hrows Htot Htrans r'.
  destruct (Z.eq_dec n 0) as [En0 | Hpos].
  { rewrite En0. split; [reflexivity | intros; lia]. }
  assert (Hinv0 : sort_inv kg kg).
  { split; [reflexivity|]. split; [reflexivity|].
    split; [symmetry; apply set_results_same|].
    split; [exact Hlen|]. split; [|reflexivity].
    intros p Hp. apply (iota_range n).
    apply (Permutation_in _ Hperm). apply aget_in_firstn; auto. }
  assert (Hrun : forall v, 0 <= v < n ->
                           sort_inv kg (bitonic_sort gpusort_comp k gsz kg) /\
                           sorted01 (bit_of (swap_test gpusort_comp kg) n v r')
                                    0 (2 ^ Z.of_nat k)).
  { intros v Hv.
    destruct (run_passes_run01 gpusort_comp kg ltac:(fold n; lia)
                Hrows Htot Htrans Hst (Z.of_nat k) gsz v
                (bitonic_schedule k) ltac:(lia) Hg Hv
                (bitonic_schedule_bound k) kg Hinv0) as [Hinv' Hrun].
    split; [exact Hinv'|].
    pose proof (schedule_sorts01 (2 ^ Z.of_nat k) k _ _ Hrun 0
                                 ltac:(lia) ltac:(lia)) as Hs.
    exact Hs. }
  destruct (Hrun 0 ltac:(lia)) as [Hinv' _].
  destruct Hinv' as (_ & _ & _ & Hlen' & Hok' & Hperm').
  fold n r r' in Hlen', Hok', Hperm'.
  split.
  - etransitivity; [apply Permutation_sym; exact Hperm' | exact Hperm].
  - intros p q Hpq Hq.
    destruct (Z.le_gt_cases (row_cmp gpusort_comp kg (aget r' p) (aget r' q))
                            0) as [Hle | Hgt]; [exact Hle|].
    exfalso.
    assert (Hx : 0 <= aget r' p < n) by (apply Hok'; lia).
    assert (Hy : 0 <= aget r' q < n) by (apply Hok'; lia).
    destruct (Hrun (aget r' q) Hy) as [_ Hs].
    assert (Hbp : bit_of (swap_test gpusort_comp kg) n (aget r' q) r' p
                  = true).
    { unfold bit_of, swap_test.
      replace ((0 <=? p) && (p <? n)) with true
        by (symmetry; apply andb_true_iff; split;
            [apply Z.leb_le | apply Z.ltb_lt]; lia).
      apply Z.ltb_lt. exact Hgt. }
    pose proof (sorted01_mono _ 0 (2 ^ Z.of_nat k) p q Hs
                              ltac:(lia) ltac:(lia) Hbp) as Hbq.
    unfold bit_of, swap_test in Hbq.
    replace ((0 <=? q) && (q <? n)) with true in Hbq
      by (symmetry; apply andb_true_iff; split;
          [apply Z.leb_le | apply Z.ltb_lt]; lia).
    apply Z.ltb_lt in Hbq.
    pose proof (Htot _ _ Hy Hy Hbq). lia.
Qed.

Lemma sign_of_total (a b : Z) :
  0 < sign_of (a ?= b) -> sign_of (b ?= a) <= 0.
Proof.
  rewrite (Z.compare_antisym a b).
  destruct (a ?= b); simpl; lia.
Qed.

Lemma sign_of_trans (a b c : Z) :
  sign_of (a ?= b) <= 0 -> sign_of (b ?= c) <= 0 -> sign_of (a ?= c) <= 0.
Proof.
  destruct (Z.compare_spec a b), (Z.compare_spec b c),
    (Z.compare_spec a c); simpl; lia.
Qed.

Lemma bitonic_sort_sorts_witness :
  Permutation
    (firstn 5
       (KERN_GPUSORT_RESULT_INDEX
          (kchunk (bitonic_sort key_comp 3 4
                                (sample_gpusort [5; 3; 9; 1; 7] 3)))))
    (iota 5) /\
  (forall p q,
      0 <= p <= q -> q < 5 ->
      row_cmp key_comp (sample_gpusort [5; 3; 9; 1; 7] 3)
        (aget (KERN_GPUSORT_RESULT_INDEX
                 (kchunk (bitonic_sort key_comp 3 4
                                       (sample_gpusort [5; 3; 9; 1; 7] 3))))
              p)
        (aget (KERN_GPUSORT_RESULT_INDEX
                 (kchunk (bitonic_sort key_comp 3 4
                                       (sample_gpusort [5; 3; 9; 1; 7] 3))))
              q)
      <= 0).
Proof.
  apply (bitonic_sort_sorts key_comp 3 4 (sample_gpusort [5; 3; 9; 1; 7] 3)).
  - lia.
  - simpl; lia.
  - simpl; lia.
  - simpl; lia.
  - simpl; lia.
  - discriminate.
  - reflexivity.
  - intros r p q _ _. reflexivity.
  - intros p q _ _. apply sign_of_total.
  - intros p q s _ _ _. apply sign_of_trans.
Defined.

(** ** The status of the in-chunk sort *)

Lemma gpusort_single_pass_status
      (gpusort_comp :
         StromError ->
         kern_column_store -> kern_toastbuf -> Z ->
         kern_column_store -> kern_toastbuf -> Z ->
         Z * StromError)
      (gsz : nat) (bitonic_unitsz : Z) (kg : kern_gpusort) :
  status (gpusort_single_pass gpusort_comp gsz bitonic_unitsz kg) = status kg.
Proof.
  unfold gpusort_single_pass.
  apply (ndrange_invariant (fun s => status s = status kg)); [|reflexivity].
  intros t s _ Hs.
  destruct (gpusort_single_frame gpusort_comp bitonic_unitsz t s)
    as (_ & E & _).
  congruence.
Qed.

(** C4 (the kernel departs from it): [gpusort_single] keeps the error
    code of the comparator in a private variable and never writes it to
    the status word, so no pass changes the status.  With a comparator
    that faults on every call, on a chunk whose status is Success, the
    first work-item already obtains Fault, yet the pass and the whole
    sort leave the status at Success and every pass is run (the index
    array ends up sorted). *)
Theorem gpusort_single_discards_fault :
  (forall gpusort_comp gsz bitonic_unitsz kg,
      status (gpusort_single_pass gpusort_comp gsz bitonic_unitsz kg)
      = status kg) /\
  snd (run_gpusort_single faulting_comp [] true 2
                          (sample_chunk [5; 3; 9; 1; 7] 3) []
                          StromError_Success 0)
  = StromError_Fault /\
  status (gpusort_single_pass faulting_comp 4 (- 1)
                              (sample_gpusort [5; 3; 9; 1; 7] 3))
  = StromError_Success /\
  status (bitonic_sort faulting_comp 3 4 (sample_gpusort [5; 3; 9; 1; 7] 3))
  = StromError_Success /\
  KERN_GPUSORT_RESULT_INDEX
    (kchunk (bitonic_sort faulting_comp 3 4
                          (sample_gpusort [5; 3; 9; 1; 7] 3)))
  = [3; 1; 0; 4; 2; 5; 6; 7].
Proof.
  split; [exact gpusort_single_pass_status|].
  repeat split; vm_compute; reflexivity.
Qed.

(** ** The loader *)

Lemma fold_left_preserves {A B C : Type} (f : A -> B -> A) (g : A -> C)
      (l : list B) (a : A) :
  (forall a b, g (f a b) = g a) -> g (fold_left f l a) = g a.
Proof.
  intros H. revert a. induction l as [|b l IH]; intros a; simpl; auto.
  now rewrite IH, H.
Qed.

Lemma nrows_put_row (kcs : kern_column_store) (slot : Z) (row : list Z) :
  nrows (put_row kcs slot row) = nrows kcs.
Proof.
  unfold put_row. apply fold_left_preserves. reflexivity.
Qed.

Lemma nrows_sample_row_to_column errcode attrefs krs kcs ktoast
      kcs_offset kcs_nitems gid0 lsz :
  nrows (fst (fst (sample_row_to_column errcode attrefs krs kcs ktoast
                                        kcs_offset kcs_nitems gid0 lsz)))
  = nrows kcs.
Proof.
  unfold sample_row_to_column. simpl.
  apply fold_left_preserves.
  intros a b. destruct (b <? kcs_nitems); [apply nrows_put_row | reflexivity].
Qed.

Lemma nrows_setup_stamp rcs_gstore_num gid0 kcs_offset kcs_nitems kcs lid :
  nrows (setup_stamp rcs_gstore_num gid0 kcs_offset kcs_nitems kcs lid)
  = nrows kcs.
Proof.
  unfold setup_stamp. destruct (lid <? kcs_nitems); reflexivity.
Qed.

(** What a work-group of the sample loader reserves and reports: the
    range starts at the row count it finds, the row count becomes the
    bitwise "and" of the old count and the number of items, and the
    error code written back is NoSpace. *)
Lemma sample_setup_group (address_bits rcs_gstore_num gid0 lsz kcs_offset0 : Z)
      (krs : kern_row_store) (kg : kern_gpusort) :
  let kcs_nitems :=
    size_t address_bits
           (if gid0 + lsz <? krs_nrows krs then lsz
            else if gid0 <? krs_nrows krs then krs_nrows krs - kcs_offset0
                 else 0) in
  let res :=
    gpusort_setup_chunk_rs address_bits sample_bytea_param
                           sample_row_to_column sample_writeback
                           rcs_gstore_num gid0 lsz kcs_offset0 krs kg in
  snd res = (nrows (kchunk kg), kcs_nitems) /\
  nrows (kchunk (fst res)) = Z.land (nrows (kchunk kg)) (cl_uint kcs_nitems) /\
  status (fst res)
  = sample_writeback (status kg) StromError_DataStoreNoSpace.
Proof.
  intros kcs_nitems res. subst res.
  unfold gpusort_setup_chunk_rs, atomic_and, sample_bytea_param.
  fold kcs_nitems.
  unfold KERN_GPUSORT_CHUNK, KERN_GPUSORT_PARAMBUF, KERN_GPUSORT_STATUS,
    KERN_GPUSORT_TOASTBUF.
  destruct (sample_row_to_column _ _ _ _ _ _ _ _ _) as [[kcs' kt'] e'] eqn:E.
  simpl. split; [reflexivity|]. split.
  - rewrite (fold_left_preserves _ nrows)
      by (intros; apply nrows_setup_stamp).
    pose proof (nrows_sample_row_to_column
                  StromError_DataStoreNoSpace (kparam kg) krs
                  (kcs_set_nrows (kchunk kg)
                     (Z.land (nrows (kchunk kg)) (cl_uint kcs_nitems)))
                  (ktoast kg) (nrows (kchunk kg)) kcs_nitems gid0 lsz) as H.
    rewrite E in H. simpl in H. exact H.
  - unfold sample_row_to_column in E. inversion E; subst. reflexivity.
Qed.

(** C3 (the kernel departs from it): a batch of 4 rows loaded by one
    work-group of 4 work-items into an empty chunk of 8 slots fits, yet
    the status reported is NoSpace, not Success, and the row count is
    left at 0: [errcode] starts as [StromError_DataStoreNoSpace] and the
    row counter is updated by [atomic_and].  This holds whatever the
    [__local] variable [kcs_offset] holds on entry. *)
Theorem loader_reports_nospace :
  forall kcs_offset0 : Z,
    status
      (fst (gpusort_setup_chunk_rs 64 sample_bytea_param
              sample_row_to_column sample_writeback
              7 0 4 kcs_offset0
              (sample_rows [10; 11; 12; 13]) (empty_gpusort 8)))
    = StromError_DataStoreNoSpace /\
    nrows
      (kchunk
         (fst (gpusort_setup_chunk_rs 64 sample_bytea_param
                 sample_row_to_column sample_writeback
                 7 0 4 kcs_offset0
                 (sample_rows [10; 11; 12; 13]) (empty_gpusort 8))))
    = 0.
Proof.
  intros s.
  destruct (sample_setup_group 64 7 0 4 s (sample_rows [10; 11; 12; 13])
                               (empty_gpusort 8)) as (_ & Hn & Hs).
  split; [exact Hs | exact Hn].
Qed.

(** Number of items the group of first global id [gid0] asks for. *)
Lemma sample_launch_S (address_bits rcs_gstore_num lsz : Z) (g : nat)
      (stale : Z -> Z) (krs : kern_row_store) (kg : kern_gpusort) :
  let launch := fun g =>
    gpusort_setup_chunk_rs_launch address_bits sample_bytea_param
      sample_row_to_column sample_writeback rcs_gstore_num lsz g stale krs kg
  in
  let gid0 := Z.of_nat g * lsz in
  let kcs_nitems :=
    size_t address_bits
           (if gid0 + lsz <? krs_nrows krs then lsz
            else if gid0 <? krs_nrows krs
                 then krs_nrows krs - stale (Z.of_nat g)
                 else 0) in
  snd (launch (S g))
  = snd (launch g) ++ [(nrows (kchunk (fst (launch g))), kcs_nitems)] /\
  nrows (kchunk (fst (launch (S g))))
  = Z.land (nrows (kchunk (fst (launch g)))) (cl_uint kcs_nitems).
Proof.
  intros launch gid0 kcs_nitems.
  destruct (sample_setup_group address_bits rcs_gstore_num gid0 lsz
              (stale (Z.of_nat g)) krs (fst (launch g))) as (Hr & Hn & _).
  fold kcs_nitems in Hr, Hn.
  assert (E : launch (S g)
              = (fst (gpusort_setup_chunk_rs address_bits sample_bytea_param
                        sample_row_to_column sample_writeback rcs_gstore_num
                        gid0 lsz (stale (Z.of_nat g)) krs (fst (launch g))),
                 snd (launch g)
                 ++ [snd (gpusort_setup_chunk_rs address_bits
                            sample_bytea_param sample_row_to_column
                            sample_writeback rcs_gstore_num
                            gid0 lsz (stale (Z.of_nat g)) krs
                            (fst (launch g)))])).
  { unfold launch, gpusort_setup_chunk_rs_launch.
    rewrite seq_S, fold_left_app. cbn [fold_left Nat.add].
    fold gid0.
    match goal with
    | |- context [gpusort_setup_chunk_rs ?a ?b ?c ?d ?e ?f ?g ?h ?i ?j] =>
        destruct (gpusort_setup_chunk_rs a b c d e f g h i j)
    end.
    reflexivity. }
  rewrite E. cbn [fst snd]. rewrite Hr, Hn. split; reflexivity.
Qed.

(** C5 (the kernel departs from it): a batch of 12 rows loaded by three
    work-groups of 4 work-items into an empty chunk of 16 slots.  The
    first two groups are both handed the range of 4 slots that starts at
    slot 0, and the row count is 0 after the launch: [atomic_and] does
    not advance the counter.  This holds whatever the [__local]
    variables hold on entry. *)
Theorem loader_ranges_overlap :
  forall stale : Z -> Z,
    nth 0 (snd (gpusort_setup_chunk_rs_launch 64 sample_bytea_param
                  sample_row_to_column sample_writeback 7 4 3 stale
                  (sample_rows [10; 11; 12; 13; 14; 15; 16; 17; 18; 19; 20; 21])
                  (empty_gpusort 16))) (0, 0)
    = (0, 4) /\
    nth 1 (snd (gpusort_setup_chunk_rs_launch 64 sample_bytea_param
                  sample_row_to_column sample_writeback 7 4 3 stale
                  (sample_rows [10; 11; 12; 13; 14; 15; 16; 17; 18; 19; 20; 21])
                  (empty_gpusort 16))) (0, 0)
    = (0, 4) /\
    nrows
      (kchunk
         (fst (gpusort_setup_chunk_rs_launch 64 sample_bytea_param
                 sample_row_to_column sample_writeback 7 4 3 stale
                 (sample_rows
                    [10; 11; 12; 13; 14; 15; 16; 17; 18; 19; 20; 21])
                 (empty_gpusort 16))))
    = 0.
Proof.
  intros stale.
  set (krs := sample_rows [10; 11; 12; 13; 14; 15; 16; 17; 18; 19; 20; 21]).
  pose proof (sample_launch_S 64 7 4 0 stale krs (empty_gpusort 16)) as S0.
  pose proof (sample_launch_S 64 7 4 1 stale krs (empty_gpusort 16)) as S1.
  pose proof (sample_launch_S 64 7 4 2 stale krs (empty_gpusort 16)) as S2.
  cbv zeta in S0, S1, S2.
  destruct S0 as [R0 N0], S1 as [R1 N1], S2 as [R2 N2].
  change (gpusort_setup_chunk_rs_launch 64 sample_bytea_param
            sample_row_to_column sample_writeback 7 4 0 stale krs
            (empty_gpusort 16)) with (empty_gpusort 16, @nil (Z * Z))
    in R0, N0.
  cbn [fst snd app] in R0, N0.
  change (nrows (kchunk (empty_gpusort 16))) with 0 in R0, N0.
  rewrite Z.land_0_l in N0.
  rewrite R0, N0 in R1. rewrite N0, Z.land_0_l in N1.
  rewrite R1, N1 in R2. rewrite N1, Z.land_0_l in N2.
  rewrite R2, N2. cbn [app nth].
  repeat split.
Qed.

(** ** The inter-chunk merge *)

Lemma set_dst_sources (first : bool) (b : merge_bufs)
      (c : kern_column_store) (t : kern_toastbuf) :
  x_chunk (set_dst first b c t) = x_chunk b /\
  y_chunk (set_dst first b c t) = y_chunk b.
Proof. destruct first; split; reflexivity. Qed.

(** [gpusort_set_record] writes the destinations only. *)
Lemma gpusort_set_record_sources
      (kern_column_to_column :
         StromError ->
         kern_column_store -> kern_toastbuf -> Z ->
         kern_column_store -> kern_toastbuf -> Z ->
         kern_column_store * kern_toastbuf * StromError)
      (index N nrowsDst0 : Z) (b : merge_bufs) (errcode : StromError) :
  let b' := fst (gpusort_set_record kern_column_to_column
                                    index N nrowsDst0 b errcode) in
  x_chunk b' = x_chunk b /\ y_chunk b' = y_chunk b.
Proof.
  unfold gpusort_set_record. cbv zeta.
  destruct (index <? nrowsDst0);
    repeat match goal with
           | |- context [kern_column_to_column ?a ?b ?c ?d ?e ?f ?g] =>
               destruct (kern_column_to_column a b c d e f g) as [[? ?] ?]
           | |- context [if ?c then _ else _] => destruct c
           end;
    split; reflexivity.
Qed.

(** With [N <= 1] in the unassigned variable, a work-item of the merge
    returns at once. *)
Lemma run_gpusort_multi_returns
      (gpusort_comp :
         StromError ->
         kern_column_store -> kern_toastbuf -> Z ->
         kern_column_store -> kern_toastbuf -> Z ->
         Z * StromError)
      (kern_column_to_column :
         StromError ->
         kern_column_store -> kern_toastbuf -> Z ->
         kern_column_store -> kern_toastbuf -> Z ->
         kern_column_store * kern_toastbuf * StromError)
      (N : Z) (reversing : bool) (unitsz : Z) (b : merge_bufs)
      (errcode : StromError) (t : Z) :
  N <= 1 -> 0 <= t < 2 ^ 31 ->
  run_gpusort_multi gpusort_comp kern_column_to_column
                    N reversing unitsz b errcode t
  = (b, errcode).
Proof.
  intros HN Ht. unfold run_gpusort_multi.
  rewrite (cl_int_small t) by lia.
  assert (Hq : Z.quot N 2 <= 0).
  { destruct (Z.le_gt_cases 0 N).
    - rewrite Z.quot_small by lia. lia.
    - apply Z.quot_le_upper_bound; lia. }
  destruct (Z.leb_spec (Z.quot N 2) t); [reflexivity | lia].
Qed.

(** C2 (the kernel departs from it): [N] is read without ever having
    been assigned.  If the variable holds 0, the merge of the sorted
    chunks [3, 7] and [1, 5, 9] changes nothing: both destinations stay
    empty.  Were it to hold the power of two the empty loop was meant to
    compute, 4 for the sorted chunks [3, 7, 9] and [5], the destinations
    would receive [3, 5] and [7]: three rows out of four. *)
Theorem merge_loses_rows :
  merge_chunks key_comp sample_column_to_column 0 3 4
               (sample_merge [3; 7] [1; 5; 9] 2)
  = sample_merge [3; 7] [1; 5; 9] 2 /\
  live_keys
    (z_chunk0 (merge_chunks key_comp sample_column_to_column 4 2 2
                            (sample_merge [3; 7; 9] [5] 2)))
  = [3; 5] /\
  live_keys
    (z_chunk1 (merge_chunks key_comp sample_column_to_column 4 2 2
                            (sample_merge [3; 7; 9] [5] 2)))
  = [7].
Proof.
  repeat split; vm_compute; reflexivity.
Qed.


(** C8, as stated, fails: in the merge of the sorted chunks
    [1, 5, 7, 9] (input [x], tag 0) and [2, 5, 10, 11] (input [y],
    tag 1), with 8 in [N], the first destination receives the keys
    [1, 2, 5, 5] with tags [0, 1, 1, 0]: the record 5 of [y] stands
    before the record 5 of [x], which it ties with. *)
Lemma merge_tie_places_y_first :
  live_keys
    (z_chunk0 (merge_chunks key_comp sample_column_to_column 8 3 4
                            (sample_merge [1; 5; 7; 9] [2; 5; 10; 11] 2)))
  = [1; 2; 5; 5] /\
  live_tags
    (z_chunk0 (merge_chunks key_comp sample_column_to_column 8 3 4
                            (sample_merge [1; 5; 7; 9] [2; 5; 10; 11] 2)))
  = [0; 1; 1; 0] /\
  ~ x_first_on_ties
      (z_chunk0 (merge_chunks key_comp sample_column_to_column 8 3 4
                              (sample_merge [1; 5; 7; 9] [2; 5; 10; 11] 2))).
Proof.
  split; [vm_compute; reflexivity|].
  split; [vm_compute; reflexivity|].
  intros H. apply (H 2 3).
  - lia.
  - vm_compute. reflexivity.
  - vm_compute. reflexivity.
  - vm_compute. reflexivity.
  - vm_compute. reflexivity.
Qed.

(** C8, amended: when the two entries a work-item of the merge compares
    are both live and the comparator returns 0 on the rows they
    reference, the work-item does not swap them: the index arrays of [x]
    and [y] after the work-item are those left by the re-numbering, so
    the entry at the lower virtual position stays before the other. *)
Theorem merge_tie_no_swap
        (gpusort_comp :
           StromError ->
           kern_column_store -> kern_toastbuf -> Z ->
           kern_column_store -> kern_toastbuf -> Z ->
           Z * StromError)
        (kern_column_to_column :
           StromError ->
           kern_column_store -> kern_toastbuf -> Z ->
           kern_column_store -> kern_toastbuf -> Z ->
           kern_column_store * kern_toastbuf * StromError)
        (N : Z) (reversing : bool) (unitsz : Z) (b : merge_bufs)
        (errcode : StromError) (t : Z) :
  let threadID := cl_int t in
  let idx0 := gpusort_idx0 unitsz threadID in
  let idx1 := gpusort_idx1 reversing unitsz idx0 in
  let N2 := Z.quot N 2 in
  let b1 := if reversing then multi_renumber N N2 threadID idx1 b else b in
  let pos0 := virt_get N2 b1 idx0 in
  let pos1 := virt_get N2 b1 idx1 in
  threadID < N2 -> pos0 < N -> pos1 < N ->
  fst (gpusort_comp errcode
         (if pos0 <? N2 then x_chunk b1 else y_chunk b1)
         (if pos0 <? N2 then x_toast b1 else y_toast b1)
         (if pos0 <? N2 then pos0 else cl_int (pos0 - N2))
         (if pos1 <? N2 then x_chunk b1 else y_chunk b1)
         (if pos1 <? N2 then x_toast b1 else y_toast b1)
         (if pos1 <? N2 then pos1 else cl_int (pos1 - N2)))
  = 0 ->
  let b' := fst (run_gpusort_multi gpusort_comp kern_column_to_column
                                   N reversing unitsz b errcode t) in
  x_chunk b' = x_chunk b1 /\ y_chunk b' = y_chunk b1 /\
  virt_get N2 b' idx0 = pos0 /\ virt_get N2 b' idx1 = pos1.
Proof.
  intros threadID idx0 idx1 N2 b1 pos0 pos1 Ht H0 H1 Htie b'.
  assert (Hsrc : x_chunk b' = x_chunk b1 /\ y_chunk b' = y_chunk b1).
  { subst b'. unfold run_gpusort_multi.
    fold threadID idx0 idx1 N2.
    destruct (Z.leb_spec N2 threadID); [lia|].
    fold b1.
    unfold multi_compare_swap. fold pos0 pos1.
    destruct (Z.leb_spec N pos1); [lia|].
    destruct (Z.leb_spec N pos0); [lia|].
    destruct (gpusort_comp errcode _ _ _ _ _ _) as [rv e] eqn:E.
    cbn [fst] in Htie. subst rv. cbn [Z.ltb Z.compare].
    destruct (unitsz =? 2); [|split; reflexivity].
    pose proof (gpusort_set_record_sources kern_column_to_column
                  idx0 N N2 b1 e) as S0.
    destruct (gpusort_set_record kern_column_to_column idx0 N N2 b1 e)
      as [b2 e2].
    pose proof (gpusort_set_record_sources kern_column_to_column
                  idx1 N N2 b2 e2) as S1.
    cbv zeta in S0, S1. cbn [fst] in S0.
    destruct S0 as [A0 B0], S1 as [A1 B1]. split; congruence. }
  destruct Hsrc as [Ex Ey].
  repeat split; try assumption.
  - unfold pos0, virt_get. now rewrite Ex, Ey.
  - unfold pos1, virt_get. now rewrite Ex, Ey.
Qed.

Lemma merge_tie_no_swap_witness :
  x_chunk (fst (run_gpusort_multi key_comp sample_column_to_column
                                  2 true 2 (sample_merge [5] [5] 1)
                                  StromError_Success 0))
  = x_chunk (multi_renumber 2 1 0 1 (sample_merge [5] [5] 1)) /\
  y_chunk (fst (run_gpusort_multi key_comp sample_column_to_column
                                  2 true 2 (sample_merge [5] [5] 1)
                                  StromError_Success 0))
  = y_chunk (multi_renumber 2 1 0 1 (sample_merge [5] [5] 1)) /\
  KERN_GPUSORT_RESULT_INDEX
    (y_chunk (multi_renumber 2 1 0 1 (sample_merge [5] [5] 1)))
  = [1; 1].
Proof.
  destruct (merge_tie_no_swap key_comp sample_column_to_column
              2 true 2 (sample_merge [5] [5] 1) StromError_Success 0)
    as (Hx & Hy & _).
  - vm_compute. reflexivity.
  - vm_compute. reflexivity.
  - vm_compute. reflexivity.
  - vm_compute. reflexivity.
  - split; [exact Hx|]. split; [exact Hy|]. vm_compute. reflexivity.
Defined.

(** * Further properties of the in-chunk sort *)

(** A work-item whose partner is at or beyond the live rows hands the
    buffers back as they are. *)
Lemma gpusort_single_noop
      (gpusort_comp :
         StromError ->
         kern_column_store -> kern_toastbuf -> Z ->
         kern_column_store -> kern_toastbuf -> Z ->
         Z * StromError)
      (rev : bool) (m t : Z) (kg : kern_gpusort) :
  1 <= m <= 31 -> 0 <= t < 2 ^ 30 -> 0 <= nrows (kchunk kg) < 2 ^ 31 ->
  nrows (kchunk kg)
  <= gpusort_idx1 rev (2 ^ m) (gpusort_idx0 (2 ^ m) t) ->
  gpusort_single gpusort_comp (if rev then - m else m) t kg = kg.
Proof.
  intros Hm Ht Hn Hout.
  destruct (unitsz_of_magnitude rev m Hm) as [Erev Eu].
  rewrite gpusort_single_unfold.
  rewrite Eu, Erev, run_gpusort_single_chunk.
  rewrite (cl_int_small t), (cl_int_small (nrows (kchunk kg))) by lia.
  unfold cmp_swap.
  destruct (Z.leb_spec (nrows (kchunk kg))
              (gpusort_idx1 rev (2 ^ m) (gpusort_idx0 (2 ^ m) t))); [|lia].
  rewrite set_results_same. now destruct kg.
Qed.

(** A work-item that finds its pair in order hands the buffers back as
    they are. *)
Lemma gpusort_single_in_order
      (gpusort_comp :
         StromError ->
         kern_column_store -> kern_toastbuf -> Z ->
         kern_column_store -> kern_toastbuf -> Z ->
         Z * StromError)
      (rev : bool) (m t : Z) (kg : kern_gpusort) :
  1 <= m <= 31 -> 0 <= t < 2 ^ 30 -> 0 <= nrows (kchunk kg) < 2 ^ 31 ->
  (forall p q,
      0 <= p < q -> q < nrows (kchunk kg) ->
      row_cmp gpusort_comp kg
              (aget (KERN_GPUSORT_RESULT_INDEX (kchunk kg)) p)
              (aget (KERN_GPUSORT_RESULT_INDEX (kchunk kg)) q) <= 0) ->
  gpusort_single gpusort_comp (if rev then - m else m) t kg = kg.
Proof.
  intros Hm Ht Hn Hsorted.
  destruct (unitsz_of_magnitude rev m Hm) as [Erev Eu].
  pose proof (lane_pair_ordered rev m t Hm Ht) as Hord.
  rewrite gpusort_single_unfold.
  rewrite Eu, Erev, run_gpusort_single_chunk.
  rewrite (cl_int_small t), (cl_int_small (nrows (kchunk kg))) by lia.
  set (i0 := gpusort_idx0 (2 ^ m) t) in *.
  set (i1 := gpusort_idx1 rev (2 ^ m) i0) in *.
  unfold cmp_swap.
  destruct (Z.leb_spec (nrows (kchunk kg)) i1).
  - rewrite set_results_same. now destruct kg.
  - specialize (Hsorted i0 i1 Hord ltac:(lia)).
    unfold row_cmp in Hsorted.
    destruct (Z.ltb_spec 0
                (fst (gpusort_comp StromError_Success (kchunk kg) (ktoast kg)
                        (aget (KERN_GPUSORT_RESULT_INDEX (kchunk kg)) i0)
                        (kchunk kg) (ktoast kg)
                        (aget (KERN_GPUSORT_RESULT_INDEX (kchunk kg)) i1))));
      [lia|].
    rewrite set_results_same. now destruct kg.
Qed.

Lemma run_passes_fixed
      (gpusort_comp :
         StromError ->
         kern_column_store -> kern_toastbuf -> Z ->
         kern_column_store -> kern_toastbuf -> Z ->
         Z * StromError)
      (gsz : nat) (passes : list Z) (kg : kern_gpusort) :
  (forall b, In b passes -> gpusort_single_pass gpusort_comp gsz b kg = kg) ->
  run_passes gpusort_comp gsz passes kg = kg.
Proof.
  induction passes as [|b passes IH]; intros H; [reflexivity|].
  simpl. rewrite (H b) by now left.
  rewrite IH by (intros b' Hb'; apply H; now right).
  now destruct (status kg).
Qed.

(** X1: a pass over a chunk whose index array is already in comparator
    order changes nothing: no work-item exchanges its pair, and the
    buffers after the pass are the buffers before it, whatever the unit
    size, the direction and the launch size. *)
Theorem sorted_chunk_unchanged
        (gpusort_comp :
           StromError ->
           kern_column_store -> kern_toastbuf -> Z ->
           kern_column_store -> kern_toastbuf -> Z ->
           Z * StromError)
        (m : Z) (rev : bool) (gsz : nat) (kg : kern_gpusort) :
  1 <= m <= 31 -> Z.of_nat gsz <= 2 ^ 30 ->
  0 <= nrows (kchunk kg) < 2 ^ 31 ->
  (forall p q,
      0 <= p < q -> q < nrows (kchunk kg) ->
      row_cmp gpusort_comp kg
              (aget (KERN_GPUSORT_RESULT_INDEX (kchunk kg)) p)
              (aget (KERN_GPUSORT_RESULT_INDEX (kchunk kg)) q) <= 0) ->
  gpusort_single_pass gpusort_comp gsz (if rev then - m else m) kg = kg.
Proof.
  intros Hm Hg Hn Hsorted.
  unfold gpusort_single_pass.
  apply (ndrange_invariant (fun s => s = kg)); [|reflexivity].
  intros t s Ht ->.
  apply gpusort_single_in_order; auto; lia.
Qed.

Lemma sorted_chunk_unchanged_witness :
  gpusort_single_pass key_comp 2 (- 2) (sample_gpusort [3; 8; 8; 11] 2)
  = sample_gpusort [3; 8; 8; 11] 2.
Proof.
  apply (sorted_chunk_unchanged key_comp 2 true 2
                                (sample_gpusort [3; 8; 8; 11] 2)).
  - lia.
  - simpl; lia.
  - simpl; lia.
  - intros p q Hp Hq. simpl in Hq.
    assert (E : (p = 0 /\ (q = 1 \/ q = 2 \/ q = 3)) \/
                (p = 1 /\ (q = 2 \/ q = 3)) \/ (p = 2 /\ q = 3)) by lia.
    destruct E as [[-> [-> | [-> | ->]]] | [[-> [-> | ->]] | [-> ->]]];
      vm_compute; discriminate.
Defined.

Lemma aget_cmp_swap_tail gt n i0 i1 r p :
  0 <= i0 < i1 -> n <= p -> aget (cmp_swap gt n i0 i1 r) p = aget r p.
Proof.
  intros Hi Hp.
  destruct (cmp_swap_cases gt n i0 i1 r) as [E | [Hlt E]]; rewrite E;
    [reflexivity|].
  rewrite !aget_aset_ne by lia. reflexivity.
Qed.

(** X2: a pass reads and writes live slots only: the index entries at
    or beyond the row count (the padding of the index array) are after
    the pass what they were before it, and the array keeps its
    length. *)
Theorem pass_keeps_padding
        (gpusort_comp :
           StromError ->
           kern_column_store -> kern_toastbuf -> Z ->
           kern_column_store -> kern_toastbuf -> Z ->
           Z * StromError)
        (m : Z) (rev : bool) (gsz : nat) (kg : kern_gpusort) :
  1 <= m <= 31 -> Z.of_nat gsz <= 2 ^ 30 ->
  0 <= nrows (kchunk kg) < 2 ^ 31 ->
  let r := KERN_GPUSORT_RESULT_INDEX (kchunk kg) in
  let r' :=
    KERN_GPUSORT_RESULT_INDEX
      (kchunk (gpusort_single_pass gpusort_comp gsz
                                   (if rev then - m else m) kg)) in
  length r' = length r /\
  forall p, nrows (kchunk kg) <= p -> aget r' p = aget r p.
Proof.
  intros Hm Hg Hn r r'. subst r'.
  unfold gpusort_single_pass.
  apply (ndrange_invariant
           (fun s =>
              nrows (kchunk s) = nrows (kchunk kg) /\
              length (KERN_GPUSORT_RESULT_INDEX (kchunk s)) = length r /\
              forall p, nrows (kchunk kg) <= p ->
                        aget (KERN_GPUSORT_RESULT_INDEX (kchunk s)) p
                        = aget r p)).
  - intros t s Ht (Hrows & Hlen & Htail).
    split; [|split].
    + destruct (gpusort_single_frame gpusort_comp (if rev then - m else m)
                                     t s) as (_ & _ & _ & ->).
      exact Hrows.
    + rewrite gpusort_single_results by (rewrite ?Hrows; lia).
      rewrite cmp_swap_length. exact Hlen.
    + intros p Hp.
      rewrite gpusort_single_results by (rewrite ?Hrows; lia).
      rewrite aget_cmp_swap_tail.
      * now apply Htail.
      * apply lane_pair_ordered; lia.
      * rewrite Hrows. exact Hp.
  - repeat split; reflexivity.
Qed.

Lemma pass_keeps_padding_witness :
  aget (KERN_GPUSORT_RESULT_INDEX
          (kchunk (gpusort_single_pass key_comp 4 (- 1)
                                       (sample_gpusort [5; 3; 9; 1; 7] 3))))
       6
  = 6.
Proof.
  destruct (pass_keeps_padding key_comp 1 true 4
                               (sample_gpusort [5; 3; 9; 1; 7] 3))
    as [_ H].
  - lia.
  - simpl; lia.
  - simpl; lia.
  - exact (H 6 ltac:(simpl; lia)).
Defined.

(** X3: a chunk of at most one row has no pair to compare: every pass
    hands its buffers back unchanged. *)
Theorem tiny_chunk_pass_noop
        (gpusort_comp :
           StromError ->
           kern_column_store -> kern_toastbuf -> Z ->
           kern_column_store -> kern_toastbuf -> Z ->
           Z * StromError)
        (m : Z) (rev : bool) (gsz : nat) (kg : kern_gpusort) :
  1 <= m <= 31 -> Z.of_nat gsz <= 2 ^ 30 ->
  0 <= nrows (kchunk kg) <= 1 ->
  gpusort_single_pass gpusort_comp gsz (if rev then - m else m) kg = kg.
Proof.
  intros Hm Hg Hn. unfold gpusort_single_pass.
  apply (ndrange_invariant (fun s => s = kg)); [|reflexivity].
  intros t s Ht ->.
  pose proof (lane_pair_ordered rev m t Hm ltac:(lia)) as Hord.
  apply gpusort_single_noop; try lia.
Qed.

Lemma tiny_chunk_pass_noop_witness :
  gpusort_single_pass key_comp 4 (- 2) (sample_gpusort [5] 2)
  = sample_gpusort [5] 2.
Proof.
  apply (tiny_chunk_pass_noop key_comp 2 true 4 (sample_gpusort [5] 2)).
  - lia.
  - simpl; lia.
  - simpl; lia.
Defined.

(** Work-items from [2^(k-1)] on own pairs beyond [2^k]. *)
Lemma surplus_lane_beyond (rev : bool) (m k t : Z) :
  1 <= m <= k -> k <= 31 -> 2 ^ (k - 1) <= t < 2 ^ 30 ->
  2 ^ k <= gpusort_idx1 rev (2 ^ m) (gpusort_idx0 (2 ^ m) t).
Proof.
  intros Hm Hk Ht.
  assert (Hh : 0 < 2 ^ (m - 1)) by (apply pow2_pos; lia).
  assert (HK : 0 < 2 ^ (k - m)) by (apply pow2_pos; lia).
  pose proof (pow2_half m ltac:(lia)) as Eu.
  assert (Ek : 2 ^ (k - 1) = 2 ^ (k - m) * 2 ^ (m - 1)).
  { rewrite <- Z.pow_add_r by lia. f_equal; lia. }
  assert (Ek' : 2 ^ k = 2 ^ (k - m) * 2 ^ m).
  { rewrite <- Z.pow_add_r by lia. f_equal; lia. }
  pose proof (Z.div_mod t (2 ^ (m - 1)) ltac:(lia)) as Ed.
  pose proof (Z.mod_pos_bound t (2 ^ (m - 1)) Hh) as Hl.
  assert (Hk1 : 0 < 2 ^ (k - 1)) by (apply pow2_pos; lia).
  assert (Hb : 0 <= t / 2 ^ (m - 1)) by (apply Z.div_pos; lia).
  set (b := t / 2 ^ (m - 1)) in *.
  set (l := t mod 2 ^ (m - 1)) in *.
  assert (Et : t = b * 2 ^ (m - 1) + l) by lia.
  pose proof (lane_block_bound m b l ltac:(lia) Hb Hl ltac:(lia)) as Hbound.
  rewrite Et.
  rewrite gpusort_idx0_block, gpusort_idx1_block by lia.
  assert (HbK : 2 ^ (k - m) <= b) by nia.
  destruct rev; nia.
Qed.

(** X4: work-items beyond half the padded length of the index array do
    nothing, so a pass gives the same buffers for every launch size
    from [2^(k-1)] on (for a chunk of at most [2^k] rows and a unit of
    at most [2^k] slots). *)
Theorem surplus_work_items_idle
        (gpusort_comp :
           StromError ->
           kern_column_store -> kern_toastbuf -> Z ->
           kern_column_store -> kern_toastbuf -> Z ->
           Z * StromError)
        (m k : Z) (rev : bool) (gsz extra : nat) (kg : kern_gpusort) :
  1 <= m <= k -> k <= 31 ->
  2 ^ (k - 1) <= Z.of_nat gsz -> Z.of_nat (gsz + extra) <= 2 ^ 30 ->
  0 <= nrows (kchunk kg) <= 2 ^ k -> nrows (kchunk kg) < 2 ^ 31 ->
  gpusort_single_pass gpusort_comp (gsz + extra) (if rev then - m else m) kg
  = gpusort_single_pass gpusort_comp gsz (if rev then - m else m) kg.
Proof.
  intros Hm Hk Hg Hge Hn Hn31.
  unfold gpusort_single_pass.
  induction extra as [|e IH].
  - now rewrite Nat.add_0_r.
  - rewrite Nat.add_succ_r, ndrange_S, IH by lia.
    set (s := ndrange gsz _ kg).
    assert (Hrows : nrows (kchunk s) = nrows (kchunk kg)).
    { subst s.
      apply (ndrange_invariant
               (fun s => nrows (kchunk s) = nrows (kchunk kg)));
        [|reflexivity].
      intros t s' _ Hs'.
      destruct (gpusort_single_frame gpusort_comp (if rev then - m else m)
                                     t s') as (_ & _ & _ & ->).
      exact Hs'. }
    apply gpusort_single_noop; rewrite ?Hrows; try lia.
    pose proof (surplus_lane_beyond rev m k (Z.of_nat (gsz + e))
                                    Hm Hk ltac:(lia)).
    lia.
Qed.

Lemma surplus_work_items_idle_witness :
  gpusort_single_pass key_comp (4 + 3) (- 2)
                      (sample_gpusort [5; 3; 9; 1; 7] 3)
  = gpusort_single_pass key_comp 4 (- 2) (sample_gpusort [5; 3; 9; 1; 7] 3).
Proof.
  apply (surplus_work_items_idle key_comp 2 3 true 4 3
                                 (sample_gpusort [5; 3; 9; 1; 7] 3)).
  - lia.
  - lia.
  - simpl; lia.
  - simpl; lia.
  - simpl; lia.
  - simpl; lia.
Defined.

Lemma sort_inv_initial (kg : kern_gpusort) :
  nrows (kchunk kg)
  <= Z.of_nat (length (KERN_GPUSORT_RESULT_INDEX (kchunk kg))) ->
  prefix_ok (nrows (kchunk kg)) (KERN_GPUSORT_RESULT_INDEX (kchunk kg)) ->
  sort_inv kg kg.
Proof.
  intros Hlen Hok.
  split; [reflexivity|]. split; [reflexivity|].
  split; [symmetry; apply set_results_same|].
  split; [exact Hlen|]. split; [exact Hok | reflexivity].
Qed.

(** X5: the work-items of a pass may run in any order: whatever the
    order in which the [gsz] work-items are taken, one after the other,
    the buffers after the pass are the same.  (The comparator is
    assumed to read rows, not the index array.) *)
Theorem pass_order_irrelevant
        (gpusort_comp :
           StromError ->
           kern_column_store -> kern_toastbuf -> Z ->
           kern_column_store -> kern_toastbuf -> Z ->
           Z * StromError)
        (m : Z) (rev : bool) (gsz : nat) (order : list nat)
        (kg : kern_gpusort) :
  1 <= m <= 31 -> Z.of_nat gsz <= 2 ^ 30 ->
  0 <= nrows (kchunk kg) < 2 ^ 31 ->
  nrows (kchunk kg)
  <= Z.of_nat (length (KERN_GPUSORT_RESULT_INDEX (kchunk kg))) ->
  prefix_ok (nrows (kchunk kg)) (KERN_GPUSORT_RESULT_INDEX (kchunk kg)) ->
  (forall r p q,
      0 <= p < nrows (kchunk kg) -> 0 <= q < nrows (kchunk kg) ->
      fst (gpusort_comp StromError_Success
                        (set_results (kchunk kg) r) (ktoast kg) p
                        (set_results (kchunk kg) r) (ktoast kg) q)
      = row_cmp gpusort_comp kg p q) ->
  Permutation (seq 0 gsz) order ->
  fold_left
    (fun s t =>
       gpusort_single gpusort_comp (if rev then - m else m) (Z.of_nat t) s)
    order kg
  = gpusort_single_pass gpusort_comp gsz (if rev then - m else m) kg.
Proof.
  intros Hm Hg Hn Hlen Hok Hrows Hperm.
  apply (pass_any_order gpusort_comp kg Hn Hrows rev m gsz order kg);
    auto.
  now apply sort_inv_initial.
Qed.

Lemma pass_order_irrelevant_witness :
  fold_left
    (fun s t => gpusort_single key_comp (- 2) (Z.of_nat t) s)
    [1; 0]%nat (sample_gpusort [5; 3; 9; 1] 2)
  = gpusort_single_pass key_comp 2 (- 2) (sample_gpusort [5; 3; 9; 1] 2).
Proof.
  apply (pass_order_irrelevant key_comp 2 true 2 [1; 0]%nat
                               (sample_gpusort [5; 3; 9; 1] 2)).
  - lia.
  - simpl; lia.
  - simpl; lia.
  - simpl; lia.
  - intros p Hp. simpl in Hp.
    assert (E : p = 0 \/ p = 1 \/ p = 2 \/ p = 3) by lia.
    destruct E as [-> | [-> | [-> | ->]]]; vm_compute;
      (split; [discriminate | reflexivity]).
  - intros r p q _ _. reflexivity.
  - apply perm_swap.
Defined.

(** What the in-chunk sort establishes, with the invariant of its
    passes. *)
Lemma bitonic_sort_post
      (gpusort_comp :
         StromError ->
         kern_column_store -> kern_toastbuf -> Z ->
         kern_column_store -> kern_toastbuf -> Z ->
         Z * StromError)
      (k gsz : nat) (kg : kern_gpusort) :
  let n := nrows (kchunk kg) in
  (k <= 31)%nat ->
  2 ^ (Z.of_nat k - 1) <= Z.of_nat gsz <= 2 ^ 30 ->
  0 < n <= 2 ^ Z.of_nat k -> n < 2 ^ 31 ->
  n <= Z.of_nat (length (KERN_GPUSORT_RESULT_INDEX (kchunk kg))) ->
  status kg <> StromError_Fault ->
  prefix_ok n (KERN_GPUSORT_RESULT_INDEX (kchunk kg)) ->
  (forall r p q,
      0 <= p < n -> 0 <= q < n ->
      fst (gpusort_comp StromError_Success
                        (set_results (kchunk kg) r) (ktoast kg) p
                        (set_results (kchunk kg) r) (ktoast kg) q)
      = row_cmp gpusort_comp kg p q) ->
  (forall p q,
      0 <= p < n -> 0 <= q < n ->
      0 < row_cmp gpusort_comp kg p q -> row_cmp gpusort_comp kg q p <= 0) ->
  (forall p q s,
      0 <= p < n -> 0 <= q < n -> 0 <= s < n ->
      row_cmp gpusort_comp kg p q <= 0 ->
      row_cmp gpusort_comp kg q s <= 0 ->
      row_cmp gpusort_comp kg p s <= 0) ->
  let kg' := bitonic_sort gpusort_comp k gsz kg in
  sort_inv kg kg' /\
  (forall p q,
      0 <= p <= q -> q < n ->
      row_cmp gpusort_comp kg
              (aget (KERN_GPUSORT_RESULT_INDEX (kchunk kg')) p)
              (aget (KERN_GPUSORT_RESULT_INDEX (kchunk kg')) q) <= 0).
Proof.
  intros n Hk Hg Hn Hn31 Hlen Hst Hok Hrows Htot Htrans kg'.
  set (r' := KERN_GPUSORT_RESULT_INDEX (kchunk kg')).
  pose proof (sort_inv_initial kg Hlen Hok) as Hinv0.
  assert (Hrun : forall v, 0 <= v < n ->
                           sort_inv kg kg' /\
                           sorted01 (bit_of (swap_test gpusort_comp kg) n v r')
                                    0 (2 ^ Z.of_nat k)).
  { intros v Hv.
    destruct (run_passes_run01 gpusort_comp kg ltac:(fold n; lia)
                Hrows Htot Htrans Hst (Z.of_nat k) gsz v
                (bitonic_schedule k) ltac:(lia) Hg Hv
                (bitonic_schedule_bound k) kg Hinv0) as [Hinv' Hrun].
    split; [exact Hinv'|].
    exact (schedule_sorts01 (2 ^ Z.of_nat k) k _ _ Hrun 0
                            ltac:(lia) ltac:(lia)). }
  destruct (Hrun 0 ltac:(lia)) as [Hinv' _].
  split; [exact Hinv'|].
  destruct Hinv' as (_ & _ & _ & Hlen' & Hok' & _).
  fold n r' in Hlen', Hok'.
  intros p q Hpq Hq.
  destruct (Z.le_gt_cases (row_cmp gpusort_comp kg (aget r' p) (aget r' q))
                          0) as [Hle | Hgt]; [exact Hle|].
  exfalso.
  assert (Hx : 0 <= aget r' p < n) by (apply Hok'; lia).
  assert (Hy : 0 <= aget r' q < n) by (apply Hok'; lia).
  destruct (Hrun (aget r' q) Hy) as [_ Hs].
  assert (Hbp : bit_of (swap_test gpusort_comp kg) n (aget r' q) r' p = true).
  { unfold bit_of, swap_test.
    replace ((0 <=? p) && (p <? n)) with true
      by (symmetry; apply andb_true_iff; split;
          [apply Z.leb_le | apply Z.ltb_lt]; lia).
    apply Z.ltb_lt. exact Hgt. }
  pose proof (sorted01_mono _ 0 (2 ^ Z.of_nat k) p q Hs
                            ltac:(lia) ltac:(lia) Hbp) as Hbq.
  unfold bit_of, swap_test in Hbq.
  replace ((0 <=? q) && (q <? n)) with true in Hbq
    by (symmetry; apply andb_true_iff; split;
        [apply Z.leb_le | apply Z.ltb_lt]; lia).
  apply Z.ltb_lt in Hbq.
  pose proof (Htot _ _ Hy Hy Hbq). lia.
Qed.

(** X6: the in-chunk sort is idempotent: sorting the chunk a sort
    produced changes nothing. *)
Theorem bitonic_sort_idempotent
        (gpusort_comp :
           StromError ->
           kern_column_store -> kern_toastbuf -> Z ->
           kern_column_store -> kern_toastbuf -> Z ->
           Z * StromError)
        (k gsz : nat) (kg : kern_gpusort) :
  let n := nrows (kchunk kg) in
  (k <= 31)%nat ->
  2 ^ (Z.of_nat k - 1) <= Z.of_nat gsz <= 2 ^ 30 ->
  0 <= n <= 2 ^ Z.of_nat k -> n < 2 ^ 31 ->
  n <= Z.of_nat (length (KERN_GPUSORT_RESULT_INDEX (kchunk kg))) ->
  status kg <> StromError_Fault ->
  prefix_ok n (KERN_GPUSORT_RESULT_INDEX (kchunk kg)) ->
  (forall r p q,
      0 <= p < n -> 0 <= q < n ->
      fst (gpusort_comp StromError_Success
                        (set_results (kchunk kg) r) (ktoast kg) p
                        (set_results (kchunk kg) r) (ktoast kg) q)
      = row_cmp gpusort_comp kg p q) ->
  (forall p q,
      0 <= p < n -> 0 <= q < n ->
      0 < row_cmp gpusort_comp kg p q -> row_cmp gpusort_comp kg q p <= 0) ->
  (forall p q s,
      0 <= p < n -> 0 <= q < n -> 0 <= s < n ->
      row_cmp gpusort_comp kg p q <= 0 ->
      row_cmp gpusort_comp kg q s <= 0 ->
      row_cmp gpusort_comp kg p s <= 0) ->
  bitonic_sort gpusort_comp k gsz (bitonic_sort gpusort_comp k gsz kg)
  = bitonic_sort gpusort_comp k gsz kg.
Proof.
  intros n Hk Hg Hn Hn31 Hlen Hst Hok Hrows Htot Htrans.
  set (kg' := bitonic_sort gpusort_comp k gsz kg).
  assert (Hfix : forall s,
             nrows (kchunk s) = n ->
             (forall p q,
                 0 <= p < q -> q < n ->
                 row_cmp gpusort_comp s
                         (aget (KERN_GPUSORT_RESULT_INDEX (kchunk s)) p)
                         (aget (KERN_GPUSORT_RESULT_INDEX (kchunk s)) q)
                 <= 0) ->
             bitonic_sort gpusort_comp k gsz s = s).
  { intros s Hs Hsorted.
    unfold bitonic_sort. apply run_passes_fixed.
    intros b Hb.
    pose proof (bitonic_schedule_bound k) as Hall.
    rewrite Forall_forall in Hall. specialize (Hall b Hb).
    set (rev := b <? 0). set (m := Z.abs b).
    assert (Eb : b = if rev then - m else m).
    { subst rev m. destruct (Z.ltb_spec b 0); lia. }
    rewrite Eb. unfold gpusort_single_pass.
    apply (ndrange_invariant (fun s' => s' = s)); [|reflexivity].
    intros t s' Ht ->.
    apply gpusort_single_in_order; rewrite ?Hs; auto; subst m; lia. }
  destruct (Z.eq_dec n 0) as [E0 | Hpos].
  { assert (Ekg : kg' = kg).
    { subst kg'. apply Hfix; [reflexivity | intros; lia]. }
    rewrite Ekg. apply Hfix; [reflexivity | intros; lia]. }
  destruct (bitonic_sort_post gpusort_comp k gsz kg Hk Hg ltac:(fold n; lia)
                              Hn31 Hlen Hst Hok Hrows Htot Htrans)
    as [Hinv Hsorted].
  fold kg' in Hinv, Hsorted.
  pose proof Hinv as (_ & Et & Ec & _ & Hok' & _).
  apply Hfix.
  - rewrite Ec. reflexivity.
  - intros p q Hpq Hq.
    assert (E : forall x y,
               0 <= x < n -> 0 <= y < n ->
               row_cmp gpusort_comp kg' x y = row_cmp gpusort_comp kg x y).
    { intros x y Hx Hy. unfold row_cmp at 1. rewrite Ec, Et.
      apply Hrows; assumption. }
    rewrite E by (apply Hok'; fold n; lia).
    apply Hsorted; lia.
Qed.

Lemma bitonic_sort_idempotent_witness :
  bitonic_sort key_comp 3 4
               (bitonic_sort key_comp 3 4 (sample_gpusort [5; 3; 9; 1; 7] 3))
  = bitonic_sort key_comp 3 4 (sample_gpusort [5; 3; 9; 1; 7] 3).
Proof.
  apply (bitonic_sort_idempotent key_comp 3 4
                                 (sample_gpusort [5; 3; 9; 1; 7] 3)).
  - lia.
  - simpl; lia.
  - simpl; lia.
  - simpl; lia.
  - simpl; lia.
  - discriminate.
  - intros p Hp. simpl in Hp.
    assert (E : p = 0 \/ p = 1 \/ p = 2 \/ p = 3 \/ p = 4) by lia.
    destruct E as [-> | [-> | [-> | [-> | ->]]]]; vm_compute;
      (split; [discriminate | reflexivity]).
  - intros r p q _ _. reflexivity.
  - intros p q _ _. apply sign_of_total.
  - intros p q s _ _ _. apply sign_of_trans.
Defined.

(** * Further properties of the pairs of a pass *)

(** X7: once a work-item has run, the two rows its pair of slots
    references are in comparator order, provided the comparator does
    not rank each of the two rows above the other. *)
Theorem work_item_orders_its_pair
        (gpusort_comp :
           StromError ->
           kern_column_store -> kern_toastbuf -> Z ->
           kern_column_store -> kern_toastbuf -> Z ->
           Z * StromError)
        (rev : bool) (m t : Z) (kg : kern_gpusort) :
  let r := KERN_GPUSORT_RESULT_INDEX (kchunk kg) in
  let idx0 := gpusort_idx0 (2 ^ m) t in
  let idx1 := gpusort_idx1 rev (2 ^ m) idx0 in
  1 <= m <= 31 -> 0 <= t < 2 ^ 30 ->
  0 <= nrows (kchunk kg) < 2 ^ 31 ->
  nrows (kchunk kg) <= Z.of_nat (length r) ->
  idx1 < nrows (kchunk kg) ->
  (0 < row_cmp gpusort_comp kg (aget r idx0) (aget r idx1) ->
   row_cmp gpusort_comp kg (aget r idx1) (aget r idx0) <= 0) ->
  let r' :=
    KERN_GPUSORT_RESULT_INDEX
      (kchunk (gpusort_single gpusort_comp (if rev then - m else m) t kg)) in
  row_cmp gpusort_comp kg (aget r' idx0) (aget r' idx1) <= 0.
Proof.
  intros r idx0 idx1 Hm Ht Hn Hlen Hin Htot r'.
  subst r'. rewrite gpusort_single_results by lia.
  fold r idx0 idx1.
  pose proof (lane_pair_ordered rev m t Hm Ht) as Hord.
  fold idx0 idx1 in Hord.
  destruct (aget_cmp_swap_pair (swap_test gpusort_comp kg)
                               (nrows (kchunk kg)) idx0 idx1 r
                               Hord Hin Hlen) as [E0 E1].
  rewrite E0, E1. unfold swap_test.
  destruct (Z.ltb_spec 0 (row_cmp gpusort_comp kg (aget r idx0)
                                  (aget r idx1))) as [Hgt | Hle].
  - apply Htot. exact Hgt.
  - exact Hle.
Qed.

Lemma work_item_orders_its_pair_witness :
  row_cmp key_comp (sample_gpusort [5; 3; 9; 1] 2)
          (aget (KERN_GPUSORT_RESULT_INDEX
                   (kchunk (gpusort_single key_comp (- 2) 0
                                           (sample_gpusort [5; 3; 9; 1] 2))))
                (gpusort_idx0 (2 ^ 2) 0))
          (aget (KERN_GPUSORT_RESULT_INDEX
                   (kchunk (gpusort_single key_comp (- 2) 0
                                           (sample_gpusort [5; 3; 9; 1] 2))))
                (gpusort_idx1 true (2 ^ 2) (gpusort_idx0 (2 ^ 2) 0)))
  <= 0.
Proof.
  apply (work_item_orders_its_pair key_comp true 2 0
                                   (sample_gpusort [5; 3; 9; 1] 2)).
  - lia.
  - lia.
  - simpl; lia.
  - simpl; lia.
  - vm_compute; reflexivity.
  - intros _. vm_compute. discriminate.
Defined.

(** X8: two different work-items of a pass never touch a common slot:
    their pairs of slots are disjoint. *)
Theorem work_items_touch_distinct_slots (rev : bool) (m t1 t2 : Z) :
  1 <= m <= 31 -> 0 <= t1 < 2 ^ 30 -> 0 <= t2 < 2 ^ 30 -> t1 <> t2 ->
  let i0 := gpusort_idx0 (2 ^ m) t1 in
  let i1 := gpusort_idx1 rev (2 ^ m) i0 in
  let j0 := gpusort_idx0 (2 ^ m) t2 in
  let j1 := gpusort_idx1 rev (2 ^ m) j0 in
  i0 <> j0 /\ i0 <> j1 /\ i1 <> j0 /\ i1 <> j1.
Proof.
  intros Hm H1 H2 Hne. exact (lane_pairs_disjoint rev m t1 t2 Hm H1 H2 Hne).
Qed.

Lemma work_items_touch_distinct_slots_witness :
  gpusort_idx0 (2 ^ 3) 1 <> gpusort_idx0 (2 ^ 3) 6 /\
  gpusort_idx0 (2 ^ 3) 1
  <> gpusort_idx1 true (2 ^ 3) (gpusort_idx0 (2 ^ 3) 6) /\
  gpusort_idx1 true (2 ^ 3) (gpusort_idx0 (2 ^ 3) 1)
  <> gpusort_idx0 (2 ^ 3) 6 /\
  gpusort_idx1 true (2 ^ 3) (gpusort_idx0 (2 ^ 3) 1)
  <> gpusort_idx1 true (2 ^ 3) (gpusort_idx0 (2 ^ 3) 6).
Proof.
  apply (work_items_touch_distinct_slots true 3 1 6); lia.
Defined.

(** X9: every slot below [2^31] is the lower or the upper slot of the
    pair of some work-item: the pairs of a pass cover the index
    array. *)
Theorem every_slot_has_a_work_item (rev : bool) (m p : Z) :
  1 <= m <= 31 -> 0 <= p < 2 ^ 31 ->
  exists t,
    0 <= t < 2 ^ 30 /\
    (p = gpusort_idx0 (2 ^ m) t \/
     p = gpusort_idx1 rev (2 ^ m) (gpusort_idx0 (2 ^ m) t)).
Proof.
  intros Hm Hp.
  assert (Hh : 0 < 2 ^ (m - 1)) by (apply pow2_pos; lia).
  pose proof (pow2_half m ltac:(lia)) as Hu.
  pose proof (Z.div_mod p (2 ^ m) ltac:(lia)) as E.
  pose proof (Z.mod_pos_bound p (2 ^ m) ltac:(lia)) as Hr.
  assert (Hb : 0 <= p / 2 ^ m) by (apply Z.div_pos; lia).
  set (b := p / 2 ^ m) in *. set (r := p mod 2 ^ m) in *.
  assert (E30 : 2 ^ 30 = 2 ^ (31 - m) * 2 ^ (m - 1)).
  { rewrite <- Z.pow_add_r by lia. f_equal; lia. }
  assert (E31 : 2 ^ 31 = 2 ^ (31 - m) * 2 ^ m).
  { rewrite <- Z.pow_add_r by lia. f_equal; lia. }
  assert (Hq : 0 < 2 ^ (31 - m)) by (apply pow2_pos; lia).
  assert (Hblt : b < 2 ^ (31 - m)) by nia.
  assert (Hbound : b * 2 ^ m + 2 ^ m <= 2 ^ 31) by nia.
  assert (Hlane : forall l, 0 <= l < 2 ^ (m - 1) ->
                            0 <= b * 2 ^ (m - 1) + l < 2 ^ 30) by (intros; nia).
  assert (Hcase : exists l, 0 <= l < 2 ^ (m - 1) /\
                            (r = l \/
                             r = if rev then 2 ^ m - 1 - l
                                 else l + 2 ^ (m - 1))).
  { destruct (Z.lt_ge_cases r (2 ^ (m - 1))) as [Hlo | Hhi].
    - exists r. split; [lia | now left].
    - destruct rev.
      + exists (2 ^ m - 1 - r). split; [lia | right; lia].
      + exists (r - 2 ^ (m - 1)). split; [lia | right; lia]. }
  destruct Hcase as (l & Hl & Hcase).
  exists (b * 2 ^ (m - 1) + l).
  split; [apply Hlane; exact Hl|].
  rewrite gpusort_idx0_block by (try apply Hlane; lia).
  rewrite gpusort_idx1_block by lia.
  destruct Hcase as [-> | ->]; [left | right]; lia.
Qed.

Lemma every_slot_has_a_work_item_witness :
  exists t,
    0 <= t < 2 ^ 30 /\
    (13 = gpusort_idx0 (2 ^ 3) t \/
     13 = gpusort_idx1 true (2 ^ 3) (gpusort_idx0 (2 ^ 3) t)).
Proof.
  apply (every_slot_has_a_work_item true 3 13); lia.
Defined.

(** * Further properties of the loader *)

Lemma land_le_l (a b : Z) : 0 <= a -> 0 <= b -> 0 <= Z.land a b <= a.
Proof.
  intros Ha Hb. split; [apply Z.land_nonneg; now left|].
  destruct a as [|p|p]; [reflexivity | | lia].
  destruct b as [|q|q]; [rewrite Z.land_0_r; lia | | lia].
  change (Z.land (Z.pos p) (Z.pos q))
    with (Z.of_N (N.land (N.pos p) (N.pos q))).
  pose proof (N.land_le_l (N.pos p) (N.pos q)). lia.
Qed.

Lemma cl_uint_nonneg (z : Z) : 0 <= cl_uint z.
Proof. unfold cl_uint. apply Z.mod_pos_bound. lia. Qed.

Section LoaderCount.

Variable address_bits : Z.

Variable pg_bytea_param :
kern_parambuf -> StromError -> Z -> list Z * StromError.

Variable kern_row_to_column :
StromError -> list Z -> kern_row_store ->
kern_column_store -> kern_toastbuf ->
Z -> Z -> Z -> Z ->
kern_column_store * kern_toastbuf * StromError.

Variable kern_writeback_error_status : StromError -> StromError -> StromError.

Hypothesis row_to_column_nrows :
forall e a krs kcs kt off n g l,
  nrows (fst (fst (kern_row_to_column e a krs kcs kt off n g l)))
  = nrows kcs.

(** The row count a work-group leaves is the bitwise "and" of the count
  it found and the number of items it asked for. *)
Lemma setup_group_nrows (rcs_gstore_num gid0 lsz kcs_offset0 : Z)
    (krs : kern_row_store) (kg : kern_gpusort) :
exists kcs_nitems,
  nrows (kchunk (fst (gpusort_setup_chunk_rs
                        address_bits pg_bytea_param kern_row_to_column
                        kern_writeback_error_status
                        rcs_gstore_num gid0 lsz kcs_offset0 krs kg)))
  = Z.land (nrows (kchunk kg)) (cl_uint kcs_nitems).
Proof.
unfold gpusort_setup_chunk_rs, atomic_and.
unfold KERN_GPUSORT_CHUNK, KERN_GPUSORT_PARAMBUF, KERN_GPUSORT_STATUS,
  KERN_GPUSORT_TOASTBUF.
set (kcs_nitems := size_t address_bits _).
exists kcs_nitems.
destruct (pg_bytea_param (kparam kg) StromError_DataStoreNoSpace 0)
  as [attrefs errcode].
pose proof (row_to_column_nrows
              errcode attrefs krs
              (kcs_set_nrows (kchunk kg)
                             (Z.land (nrows (kchunk kg))
                                     (cl_uint kcs_nitems)))
              (ktoast kg) (nrows (kchunk kg)) kcs_nitems gid0 lsz) as H.
destruct (kern_row_to_column _ _ _ _ _ _ _ _ _) as [[kcs' kt'] e'].
simpl in *.
rewrite (fold_left_preserves _ nrows)
  by (intros; apply nrows_setup_stamp).
exact H.
Qed.

Lemma setup_launch_nrows (rcs_gstore_num lsz : Z) (stale : Z -> Z)
    (krs : kern_row_store) (groups : list nat)
    (acc : kern_gpusort * list (Z * Z)) :
0 <= nrows (kchunk (fst acc)) ->
0 <= nrows
       (kchunk
          (fst (fold_left
                  (fun (acc : kern_gpusort * list (Z * Z)) g =>
                     let '(kg', range) :=
                       gpusort_setup_chunk_rs
                         address_bits pg_bytea_param kern_row_to_column
                         kern_writeback_error_status
                         rcs_gstore_num (Z.of_nat g * lsz) lsz
                         (stale (Z.of_nat g)) krs (fst acc) in
                     (kg', snd acc ++ [range]))
                  groups acc)))
<= nrows (kchunk (fst acc)).
Proof.
revert acc. induction groups as [|g groups IH]; intros acc Hacc.
- simpl. lia.
- cbn [fold_left].
  destruct (setup_group_nrows rcs_gstore_num (Z.of_nat g * lsz) lsz
                              (stale (Z.of_nat g)) krs (fst acc))
    as [kcs_nitems E].
  destruct (gpusort_setup_chunk_rs _ _ _ _ _ _ _ _ _ _) as [kg' range].
  cbn [fst] in E.
  pose proof (land_le_l (nrows (kchunk (fst acc))) (cl_uint kcs_nitems)
                        Hacc (cl_uint_nonneg _)) as Hland.
  rewrite <- E in Hland.
  specialize (IH (kg', snd acc ++ [range])). cbn [fst] in IH.
  specialize (IH ltac:(lia)). lia.
Qed.

End LoaderCount.

(** X10: a launch of the loader never raises the row count of the
    chunk, however many work-groups run and whatever the row store
    holds: every group replaces the count by its bitwise "and" with the
    number of items it asked for.  (The helper that converts the rows is
    assumed to leave the row count alone.) *)
Theorem loader_row_count_never_grows
        (address_bits : Z)
        (pg_bytea_param :
           kern_parambuf -> StromError -> Z -> list Z * StromError)
        (kern_row_to_column :
           StromError -> list Z -> kern_row_store ->
           kern_column_store -> kern_toastbuf ->
           Z -> Z -> Z -> Z ->
           kern_column_store * kern_toastbuf * StromError)
        (kern_writeback_error_status :
           StromError -> StromError -> StromError)
        (rcs_gstore_num lsz : Z) (ngroups : nat) (stale : Z -> Z)
        (krs : kern_row_store) (kg : kern_gpusort) :
  (forall e a krs kcs kt off n g l,
      nrows (fst (fst (kern_row_to_column e a krs kcs kt off n g l)))
      = nrows kcs) ->
  0 <= nrows (kchunk kg) ->
  0 <= nrows
         (kchunk
            (fst (gpusort_setup_chunk_rs_launch
                    address_bits pg_bytea_param kern_row_to_column
                    kern_writeback_error_status
                    rcs_gstore_num lsz ngroups stale krs kg)))
  <= nrows (kchunk kg).
Proof.
  intros Hhelper Hn.
  unfold gpusort_setup_chunk_rs_launch.
  exact (setup_launch_nrows address_bits pg_bytea_param kern_row_to_column
                            kern_writeback_error_status Hhelper
                            rcs_gstore_num lsz stale krs (seq 0 ngroups)
                            (kg, []) Hn).
Qed.

Lemma loader_row_count_never_grows_witness :
  0 <= nrows
         (kchunk
            (fst (gpusort_setup_chunk_rs_launch
                    64 sample_bytea_param sample_row_to_column
                    sample_writeback 7 4 2 (fun _ => 0)
                    (sample_rows [10; 11; 12; 13; 14; 15])
                    (sample_gpusort [5; 3; 9] 3))))
  <= nrows (kchunk (sample_gpusort [5; 3; 9] 3)).
Proof.
  apply (loader_row_count_never_grows
           64 sample_bytea_param sample_row_to_column sample_writeback
           7 4 2 (fun _ => 0) (sample_rows [10; 11; 12; 13; 14; 15])
           (sample_gpusort [5; 3; 9] 3)).
  - intros. apply nrows_sample_row_to_column.
  - simpl; lia.
Defined.

(** * Further properties of the inter-chunk merge *)

Lemma sources_kept_refl (b : merge_bufs) : sources_kept b b.
Proof.
  split; [reflexivity|]. split; [reflexivity|].
  split; eexists; symmetry; apply set_results_same.
Qed.

Lemma sources_kept_trans (b1 b2 b3 : merge_bufs) :
  sources_kept b1 b2 -> sources_kept b2 b3 -> sources_kept b1 b3.
Proof.
  intros (A1 & B1 & [rx1 X1] & [ry1 Y1]) (A2 & B2 & [rx2 X2] & [ry2 Y2]).
  split; [congruence|]. split; [congruence|].
  split.
  - exists rx2. rewrite X2, X1. apply set_results_twice.
  - exists ry2. rewrite Y2, Y1. apply set_results_twice.
Qed.

Lemma sources_kept_virt_set (N2 : Z) (b : merge_bufs) (idx v : Z) :
  sources_kept b (virt_set N2 b idx v).
Proof.
  unfold virt_set. destruct (idx <? N2).
  - split; [reflexivity|]. split; [reflexivity|]. split.
    + eexists. cbn. apply store_result_set.
    + eexists. cbn. symmetry. apply set_results_same.
  - split; [reflexivity|]. split; [reflexivity|]. split.
    + eexists. cbn. symmetry. apply set_results_same.
    + eexists. cbn. apply store_result_set.
Qed.

Lemma sources_kept_eq (b b' : merge_bufs) :
  x_chunk b' = x_chunk b -> y_chunk b' = y_chunk b ->
  x_toast b' = x_toast b -> y_toast b' = y_toast b ->
  sources_kept b b'.
Proof.
  intros Ex Ey Etx Ety.
  split; [exact Etx|]. split; [exact Ety|].
  split; eexists; [rewrite Ex | rewrite Ey]; symmetry;
    apply set_results_same.
Qed.

Lemma sources_kept_renumber (N N2 threadID idx1 : Z) (b : merge_bufs) :
  sources_kept b (multi_renumber N N2 threadID idx1 b).
Proof.
  unfold multi_renumber. cbv zeta.
  set (b1 := if cl_int (nrows (x_chunk b)) <=? threadID
             then set_x_chunk b (store_result (x_chunk b) threadID N)
             else b).
  assert (H1 : sources_kept b b1).
  { subst b1. destruct (_ <=? _); [|apply sources_kept_refl].
    split; [reflexivity|]. split; [reflexivity|]. split.
    - eexists. cbn. apply store_result_set.
    - eexists. cbn. symmetry. apply set_results_same. }
  eapply sources_kept_trans; [exact H1|].
  split; [reflexivity|]. split; [reflexivity|]. split.
  - eexists. cbn. symmetry. apply set_results_same.
  - eexists. cbn. apply store_result_set.
Qed.

Lemma sources_kept_compare_swap
      (gpusort_comp :
         StromError ->
         kern_column_store -> kern_toastbuf -> Z ->
         kern_column_store -> kern_toastbuf -> Z ->
         Z * StromError)
      (N N2 idx0 idx1 : Z) (b : merge_bufs) (errcode : StromError) :
  sources_kept b (fst (multi_compare_swap gpusort_comp N N2 idx0 idx1 b
                                          errcode)).
Proof.
  assert (Hswap : forall v0 v1,
             sources_kept b (virt_set N2 (virt_set N2 b idx0 v0) idx1 v1)).
  { intros v0 v1.
    eapply sources_kept_trans; apply sources_kept_virt_set. }
  unfold multi_compare_swap. cbv zeta.
  destruct (N <=? virt_get N2 b idx1); [apply sources_kept_refl|].
  destruct (N <=? virt_get N2 b idx0); [apply Hswap|].
  destruct (gpusort_comp _ _ _ _ _ _ _) as [rv e].
  destruct (0 <? rv); [apply Hswap | apply sources_kept_refl].
Qed.

Lemma gpusort_set_record_toasts
      (kern_column_to_column :
         StromError ->
         kern_column_store -> kern_toastbuf -> Z ->
         kern_column_store -> kern_toastbuf -> Z ->
         kern_column_store * kern_toastbuf * StromError)
      (index N nrowsDst0 : Z) (b : merge_bufs) (errcode : StromError) :
  let b' := fst (gpusort_set_record kern_column_to_column
                                    index N nrowsDst0 b errcode) in
  x_toast b' = x_toast b /\ y_toast b' = y_toast b.
Proof.
  unfold gpusort_set_record. cbv zeta.
  destruct (index <? nrowsDst0);
    repeat match goal with
           | |- context [kern_column_to_column ?a ?b ?c ?d ?e ?f ?g] =>
               destruct (kern_column_to_column a b c d e f g) as [[? ?] ?]
           | |- context [if ?c then _ else _] => destruct c
           end;
    split; reflexivity.
Qed.

Lemma sources_kept_set_record
      (kern_column_to_column :
         StromError ->
         kern_column_store -> kern_toastbuf -> Z ->
         kern_column_store -> kern_toastbuf -> Z ->
         kern_column_store * kern_toastbuf * StromError)
      (index N nrowsDst0 : Z) (b : merge_bufs) (errcode : StromError) :
  sources_kept b (fst (gpusort_set_record kern_column_to_column
                                          index N nrowsDst0 b errcode)).
Proof.
  destruct (gpusort_set_record_sources kern_column_to_column
              index N nrowsDst0 b errcode) as [Ex Ey].
  destruct (gpusort_set_record_toasts kern_column_to_column
              index N nrowsDst0 b errcode) as [Etx Ety].
  now apply sources_kept_eq.
Qed.

Section MergeLane.

Variable gpusort_comp :
StromError ->
kern_column_store -> kern_toastbuf -> Z ->
kern_column_store -> kern_toastbuf -> Z ->
Z * StromError.

Variable kern_column_to_column :
StromError ->
kern_column_store -> kern_toastbuf -> Z ->
kern_column_store -> kern_toastbuf -> Z ->
kern_column_store * kern_toastbuf * StromError.

(** A work-item that does not return at once renumbers (on a
  reversing pass), compares and swaps, and on the last pass writes its
  two records. *)
Lemma run_gpusort_multi_unfold (N : Z) (reversing : bool) (unitsz : Z)
    (b : merge_bufs) (errcode : StromError) (t : Z) :
let threadID := cl_int t in
let idx0 := gpusort_idx0 unitsz threadID in
let idx1 := gpusort_idx1 reversing unitsz idx0 in
let N2 := Z.quot N 2 in
let b1 := if reversing then multi_renumber N N2 threadID idx1 b else b in
threadID < N2 ->
run_gpusort_multi gpusort_comp kern_column_to_column
                  N reversing unitsz b errcode t
= (let '(b2, e2) :=
     multi_compare_swap gpusort_comp N N2 idx0 idx1 b1 errcode in
   if unitsz =? 2
   then
     let '(b3, e3) :=
       gpusort_set_record kern_column_to_column idx0 N N2 b2 e2 in
     gpusort_set_record kern_column_to_column idx1 N N2 b3 e3
   else (b2, e2)).
Proof.
intros threadID idx0 idx1 N2 b1 Ht.
unfold run_gpusort_multi. fold threadID idx0 idx1 N2.
destruct (Z.leb_spec N2 threadID); [lia | reflexivity].
Qed.

Lemma sources_kept_run (N : Z) (reversing : bool) (unitsz : Z)
    (b : merge_bufs) (errcode : StromError) (t : Z) :
sources_kept b (fst (run_gpusort_multi gpusort_comp kern_column_to_column
                                       N reversing unitsz b errcode t)).
Proof.
destruct (Z.le_gt_cases (Z.quot N 2) (cl_int t)) as [Hret | Hrun].
- unfold run_gpusort_multi.
  destruct (Z.leb_spec (Z.quot N 2) (cl_int t)); [|lia].
  apply sources_kept_refl.
- rewrite run_gpusort_multi_unfold by lia.
  set (b1 := if reversing then _ else b).
  assert (H1 : sources_kept b b1).
  { subst b1. destruct reversing;
      [apply sources_kept_renumber | apply sources_kept_refl]. }
  pose proof (sources_kept_compare_swap gpusort_comp N (Z.quot N 2)
                (gpusort_idx0 unitsz (cl_int t))
                (gpusort_idx1 reversing unitsz
                              (gpusort_idx0 unitsz (cl_int t)))
                b1 errcode) as H2.
  destruct (multi_compare_swap _ _ _ _ _ _ _) as [b2 e2].
  cbn [fst] in H2.
  pose proof (sources_kept_trans _ _ _ H1 H2) as H12.
  destruct (unitsz =? 2); [|exact H12].
  pose proof (sources_kept_set_record kern_column_to_column
                (gpusort_idx0 unitsz (cl_int t)) N (Z.quot N 2) b2 e2)
    as H3.
  destruct (gpusort_set_record _ _ _ _ b2 e2) as [b3 e3].
  cbn [fst] in H3.
  pose proof (sources_kept_set_record kern_column_to_column
                (gpusort_idx1 reversing unitsz
                              (gpusort_idx0 unitsz (cl_int t)))
                N (Z.quot N 2) b3 e3) as H4.
  eapply sources_kept_trans; [exact H12|].
  eapply sources_kept_trans; [exact H3 | exact H4].
Qed.

(** The index arrays of the inputs after a work-item are those its
  compare-and-swap left. *)
Lemma run_gpusort_multi_indices (N : Z) (reversing : bool) (unitsz : Z)
    (b : merge_bufs) (errcode : StromError) (t : Z) :
let threadID := cl_int t in
let idx0 := gpusort_idx0 unitsz threadID in
let idx1 := gpusort_idx1 reversing unitsz idx0 in
let N2 := Z.quot N 2 in
let b1 := if reversing then multi_renumber N N2 threadID idx1 b else b in
threadID < N2 ->
let b2 :=
  fst (multi_compare_swap gpusort_comp N N2 idx0 idx1 b1 errcode) in
let b' := fst (run_gpusort_multi gpusort_comp kern_column_to_column
                                 N reversing unitsz b errcode t) in
x_chunk b' = x_chunk b2 /\ y_chunk b' = y_chunk b2.
Proof.
intros threadID idx0 idx1 N2 b1 Ht b2 b'.
subst b' b2. rewrite run_gpusort_multi_unfold by exact Ht.
fold threadID idx0 idx1 N2 b1.
destruct (multi_compare_swap _ _ _ _ _ _ _) as [b2 e2].
cbn [fst].
destruct (unitsz =? 2); [|split; reflexivity].
pose proof (gpusort_set_record_sources kern_column_to_column
              idx0 N N2 b2 e2) as S0.
destruct (gpusort_set_record kern_column_to_column idx0 N N2 b2 e2)
  as [b3 e3].
pose proof (gpusort_set_record_sources kern_column_to_column
              idx1 N N2 b3 e3) as S1.
cbv zeta in S0, S1. cbn [fst] in S0.
destruct S0 as [A0 B0], S1 as [A1 B1]. split; congruence.
Qed.

End MergeLane.

(** X13: a pass of the merge whose stores into the index arrays of
    its inputs stay within these arrays changes nothing of [x] and [y]
    but their index arrays: the toast buffers, the row counts and every
    data column of [x] and [y] are the same before and after the pass.
    The pass has unit [2^m]; of every work-item that does not return at
    once, the two slots of the virtual sequence lie within the index
    array that holds them, and so do the two slots it re-numbers on a
    reversing pass. *)
Theorem merge_pass_keeps_sources
        (gpusort_comp :
           StromError ->
           kern_column_store -> kern_toastbuf -> Z ->
           kern_column_store -> kern_toastbuf -> Z ->
           Z * StromError)
        (kern_column_to_column :
           StromError ->
           kern_column_store -> kern_toastbuf -> Z ->
           kern_column_store -> kern_toastbuf -> Z ->
           kern_column_store * kern_toastbuf * StromError)
        (N m : Z) (rev : bool) (gsz : nat) (b : merge_bufs) :
  1 <= m <= 31 -> Z.of_nat gsz <= 2 ^ 30 ->
  (forall t,
      0 <= t < Z.of_nat gsz -> t < Z.quot N 2 ->
      let idx0 := gpusort_idx0 (2 ^ m) t in
      let idx1 := gpusort_idx1 rev (2 ^ m) idx0 in
      virt_valid (Z.quot N 2) b idx0 /\
      virt_valid (Z.quot N 2) b idx1 /\
      (rev = true ->
       t < Z.of_nat (length (KERN_GPUSORT_RESULT_INDEX (x_chunk b))) /\
       Z.quot N 2 <= idx1)) ->
  let b' :=
    ndrange gsz (gpusort_multi gpusort_comp kern_column_to_column
                               N (if rev then - m else m)) b in
  x_toast b' = x_toast b /\ y_toast b' = y_toast b /\
  x_chunk b'
  = set_results (x_chunk b) (KERN_GPUSORT_RESULT_INDEX (x_chunk b')) /\
  y_chunk b'
  = set_results (y_chunk b) (KERN_GPUSORT_RESULT_INDEX (y_chunk b')) /\
  nrows (x_chunk b') = nrows (x_chunk b) /\
  nrows (y_chunk b') = nrows (y_chunk b) /\
  (forall j, 0 <= j < ncols (x_chunk b) - 1 ->
             kcs_column (x_chunk b') j = kcs_column (x_chunk b) j) /\
  (forall j, 0 <= j < ncols (y_chunk b) - 1 ->
             kcs_column (y_chunk b') j = kcs_column (y_chunk b) j).
Proof.
  intros _ _ _ b'.
  assert (H : sources_kept b b').
  { subst b'. apply (ndrange_invariant (sources_kept b)).
    - intros t s _ Hs. eapply sources_kept_trans; [exact Hs|].
      unfold gpusort_multi. apply sources_kept_run.
    - apply sources_kept_refl. }
  destruct H as (Etx & Ety & [rx Ex] & [ry Ey]).
  split; [exact Etx|]. split; [exact Ety|].
  split; [rewrite Ex; symmetry; apply set_results_canon|].
  split; [rewrite Ey; symmetry; apply set_results_canon|].
  split; [now rewrite Ex|]. split; [now rewrite Ey|].
  split; intros j Hj; [rewrite Ex | rewrite Ey];
    apply column_set_results; lia.
Qed.

Lemma merge_pass_keeps_sources_witness :
  kcs_column
    (x_chunk (ndrange 4 (gpusort_multi key_comp sample_column_to_column
                                       8 (- 3))
                      (sample_merge [3; 7] [1; 5; 9] 2))) 0
  = [3; 7; 0; 0] /\
  kcs_column
    (y_chunk (ndrange 4 (gpusort_multi key_comp sample_column_to_column
                                       8 (- 3))
                      (sample_merge [3; 7] [1; 5; 9] 2))) 0
  = [1; 5; 9; 0].
Proof.
  destruct (merge_pass_keeps_sources
              key_comp sample_column_to_column 8 3 true 4
              (sample_merge [3; 7] [1; 5; 9] 2))
    as (_ & _ & _ & _ & _ & _ & Hx & Hy).
  - lia.
  - simpl; lia.
  - intros t Ht _.
    assert (E : t = 0 \/ t = 1 \/ t = 2 \/ t = 3) by (simpl in Ht; lia).
    destruct E as [-> | [-> | [-> | ->]]]; vm_compute;
      repeat split; intros; try discriminate; try reflexivity.
  - split.
    + transitivity (kcs_column (x_chunk (sample_merge [3; 7] [1; 5; 9] 2)) 0);
        [apply (Hx 0); simpl; lia | reflexivity].
    + transitivity (kcs_column (y_chunk (sample_merge [3; 7] [1; 5; 9] 2)) 0);
        [apply (Hy 0); simpl; lia | reflexivity].
Defined.

(** ** Destinations *)

Lemma destinations_kept_refl (b : merge_bufs) : destinations_kept b b.
Proof. repeat split. Qed.

Lemma destinations_kept_trans (b1 b2 b3 : merge_bufs) :
  destinations_kept b1 b2 -> destinations_kept b2 b3 ->
  destinations_kept b1 b3.
Proof.
  intros (A1 & B1 & C1 & D1) (A2 & B2 & C2 & D2).
  repeat split; congruence.
Qed.

Lemma destinations_kept_virt_set (N2 : Z) (b : merge_bufs) (idx v : Z) :
  destinations_kept b (virt_set N2 b idx v).
Proof. unfold virt_set. destruct (idx <? N2); repeat split. Qed.

Lemma destinations_kept_renumber (N N2 threadID idx1 : Z) (b : merge_bufs) :
  destinations_kept b (multi_renumber N N2 threadID idx1 b).
Proof.
  unfold multi_renumber. cbv zeta.
  destruct (_ <=? _); repeat split.
Qed.

Lemma destinations_kept_compare_swap
      (gpusort_comp :
         StromError ->
         kern_column_store -> kern_toastbuf -> Z ->
         kern_column_store -> kern_toastbuf -> Z ->
         Z * StromError)
      (N N2 idx0 idx1 : Z) (b : merge_bufs) (errcode : StromError) :
  destinations_kept b (fst (multi_compare_swap gpusort_comp N N2 idx0 idx1 b
                                               errcode)).
Proof.
  assert (Hswap : forall v0 v1,
             destinations_kept b
               (virt_set N2 (virt_set N2 b idx0 v0) idx1 v1)).
  { intros v0 v1.
    eapply destinations_kept_trans; apply destinations_kept_virt_set. }
  unfold multi_compare_swap. cbv zeta.
  destruct (N <=? virt_get N2 b idx1); [apply destinations_kept_refl|].
  destruct (N <=? virt_get N2 b idx0); [apply Hswap|].
  destruct (gpusort_comp _ _ _ _ _ _ _) as [rv e].
  destruct (0 <? rv); [apply Hswap | apply destinations_kept_refl].
Qed.

Lemma cl_uint_cl_int (z : Z) : cl_uint (cl_int z) = cl_uint z.
Proof.
  unfold cl_uint, cl_int.
  rewrite Zminus_mod_idemp_l. f_equal. lia.
Qed.

(** X14: the destinations are written by the last pass only: a pass of
    unit [2^m] with [m >= 2] leaves both destination chunks and their
    toast buffers as they were. *)
Theorem merge_early_pass_keeps_destinations
        (gpusort_comp :
           StromError ->
           kern_column_store -> kern_toastbuf -> Z ->
           kern_column_store -> kern_toastbuf -> Z ->
           Z * StromError)
        (kern_column_to_column :
           StromError ->
           kern_column_store -> kern_toastbuf -> Z ->
           kern_column_store -> kern_toastbuf -> Z ->
           kern_column_store * kern_toastbuf * StromError)
        (N m : Z) (rev : bool) (gsz : nat) (b : merge_bufs) :
  2 <= m <= 31 ->
  let b' :=
    ndrange gsz (gpusort_multi gpusort_comp kern_column_to_column
                               N (if rev then - m else m)) b in
  z_chunk0 b' = z_chunk0 b /\ z_toast0 b' = z_toast0 b /\
  z_chunk1 b' = z_chunk1 b /\ z_toast1 b' = z_toast1 b.
Proof.
  intros Hm b'. subst b'.
  apply (ndrange_invariant (destinations_kept b));
    [|apply destinations_kept_refl].
  intros t s _ Hs. eapply destinations_kept_trans; [exact Hs|].
  unfold gpusort_multi.
  destruct (unitsz_of_magnitude rev m ltac:(lia)) as [Erev Eu].
  cbv zeta in Erev, Eu. rewrite Eu, Erev, cl_uint_cl_int.
  assert (Hu4 : 2 ^ 2 <= 2 ^ m) by (apply pow2_le; lia).
  assert (Hu31 : 2 ^ m <= 2 ^ 31) by (apply pow2_le; lia).
  rewrite (cl_uint_small (2 ^ m)) by lia.
  destruct (Z.le_gt_cases (Z.quot N 2) (cl_int t)) as [Hret | Hrun].
  - unfold run_gpusort_multi.
    destruct (Z.leb_spec (Z.quot N 2) (cl_int t)); [|lia].
    apply destinations_kept_refl.
  - rewrite run_gpusort_multi_unfold by lia.
    set (b1 := if rev then _ else s).
    assert (H1 : destinations_kept s b1).
    { subst b1. destruct rev;
        [apply destinations_kept_renumber | apply destinations_kept_refl]. }
    pose proof (destinations_kept_compare_swap gpusort_comp N (Z.quot N 2)
                  (gpusort_idx0 (2 ^ m) (cl_int t))
                  (gpusort_idx1 rev (2 ^ m)
                                (gpusort_idx0 (2 ^ m) (cl_int t)))
                  b1 StromError_Success) as H2.
    destruct (multi_compare_swap _ _ _ _ _ _ _) as [b2 e2].
    cbn [fst] in H2.
    destruct (Z.eqb_spec (2 ^ m) 2) as [E2 | _]; [change (2 ^ 2) with 4 in Hu4; lia|].
    eapply destinations_kept_trans; [exact H1 | exact H2].
Qed.

Lemma merge_early_pass_keeps_destinations_witness :
  z_chunk0 (ndrange 4 (gpusort_multi key_comp sample_column_to_column
                                      8 (- 3))
                    (sample_merge [3; 7] [1; 5; 9] 2))
  = z_chunk0 (sample_merge [3; 7] [1; 5; 9] 2) /\
  z_toast0 (ndrange 4 (gpusort_multi key_comp sample_column_to_column
                                      8 (- 3))
                    (sample_merge [3; 7] [1; 5; 9] 2))
  = z_toast0 (sample_merge [3; 7] [1; 5; 9] 2) /\
  z_chunk1 (ndrange 4 (gpusort_multi key_comp sample_column_to_column
                                      8 (- 3))
                    (sample_merge [3; 7] [1; 5; 9] 2))
  = z_chunk1 (sample_merge [3; 7] [1; 5; 9] 2) /\
  z_toast1 (ndrange 4 (gpusort_multi key_comp sample_column_to_column
                                      8 (- 3))
                    (sample_merge [3; 7] [1; 5; 9] 2))
  = z_toast1 (sample_merge [3; 7] [1; 5; 9] 2).
Proof.
  apply (merge_early_pass_keeps_destinations
           key_comp sample_column_to_column 8 3 true 4
           (sample_merge [3; 7] [1; 5; 9] 2)).
  lia.
Defined.

(** ** The virtual sequence of the merge *)

Lemma virt_get_virt_set_same (N2 : Z) (b : merge_bufs) (idx v : Z) :
  virt_valid N2 b idx -> virt_get N2 (virt_set N2 b idx v) idx = v.
Proof.
  unfold virt_valid, virt_get, virt_set, set_x_chunk, set_y_chunk.
  destruct (idx <? N2); intros H; cbn [x_chunk y_chunk].
  - rewrite results_store. now apply aget_aset_eq.
  - rewrite results_store.
    rewrite cl_int_small by lia. apply aget_aset_eq. lia.
Qed.

Lemma virt_get_virt_set_other (N2 : Z) (b : merge_bufs) (idx j v : Z) :
  virt_valid N2 b idx -> virt_valid N2 b j -> idx <> j ->
  virt_get N2 (virt_set N2 b idx v) j = virt_get N2 b j.
Proof.
  unfold virt_valid, virt_get, virt_set, set_x_chunk, set_y_chunk.
  destruct (idx <? N2), (j <? N2); intros Hi Hj Hne; cbn [x_chunk y_chunk];
    try reflexivity.
  - rewrite results_store. now apply aget_aset_ne.
  - rewrite results_store.
    rewrite (cl_int_small (idx - N2)), (cl_int_small (j - N2)) by lia.
    apply aget_aset_ne. lia.
Qed.

Lemma virt_valid_virt_set (N2 : Z) (b : merge_bufs) (idx j v : Z) :
  virt_valid N2 b j -> virt_valid N2 (virt_set N2 b idx v) j.
Proof.
  unfold virt_valid, virt_set, set_x_chunk, set_y_chunk.
  destruct (idx <? N2), (j <? N2); cbn [x_chunk y_chunk];
    try (intros H; exact H);
    rewrite results_store, length_aset; intros H; exact H.
Qed.

(** The two outcomes of a compare-and-swap of the merge. *)
Lemma multi_compare_swap_cases
      (gpusort_comp :
         StromError ->
         kern_column_store -> kern_toastbuf -> Z ->
         kern_column_store -> kern_toastbuf -> Z ->
         Z * StromError)
      (N N2 idx0 idx1 : Z) (b : merge_bufs) (errcode : StromError) :
  let pos0 := virt_get N2 b idx0 in
  let pos1 := virt_get N2 b idx1 in
  let b2 :=
    fst (multi_compare_swap gpusort_comp N N2 idx0 idx1 b errcode) in
  (b2 = b /\ (N <= pos1 \/ pos0 < N)) \/
  (b2 = virt_set N2 (virt_set N2 b idx0 pos1) idx1 pos0 /\ pos1 < N).
Proof.
  intros pos0 pos1 b2. subst b2.
  unfold multi_compare_swap. fold pos0 pos1. cbv zeta.
  destruct (Z.leb_spec N pos1) as [H1 | H1]; [left; split; [reflexivity | lia]|].
  destruct (Z.leb_spec N pos0) as [H0 | H0]; [right; split; [reflexivity | lia]|].
  destruct (gpusort_comp _ _ _ _ _ _ _) as [rv e].
  destruct (0 <? rv).
  - right. split; [reflexivity | lia].
  - left. split; [reflexivity | lia].
Qed.

(** X15: a work-item of the merge that does not return at once either
    keeps the two entries of its pair of slots of the virtual sequence
    or exchanges them, and changes no other slot of the sequence. *)
Theorem merge_work_item_exchanges
        (gpusort_comp :
           StromError ->
           kern_column_store -> kern_toastbuf -> Z ->
           kern_column_store -> kern_toastbuf -> Z ->
           Z * StromError)
        (kern_column_to_column :
           StromError ->
           kern_column_store -> kern_toastbuf -> Z ->
           kern_column_store -> kern_toastbuf -> Z ->
           kern_column_store * kern_toastbuf * StromError)
        (N : Z) (reversing : bool) (unitsz : Z) (b : merge_bufs)
        (errcode : StromError) (t : Z) :
  let threadID := cl_int t in
  let idx0 := gpusort_idx0 unitsz threadID in
  let idx1 := gpusort_idx1 reversing unitsz idx0 in
  let N2 := Z.quot N 2 in
  let b1 := if reversing then multi_renumber N N2 threadID idx1 b else b in
  let pos0 := virt_get N2 b1 idx0 in
  let pos1 := virt_get N2 b1 idx1 in
  threadID < N2 -> idx0 <> idx1 ->
  virt_valid N2 b1 idx0 -> virt_valid N2 b1 idx1 ->
  let b' := fst (run_gpusort_multi gpusort_comp kern_column_to_column
                                   N reversing unitsz b errcode t) in
  ((virt_get N2 b' idx0 = pos0 /\ virt_get N2 b' idx1 = pos1) \/
   (virt_get N2 b' idx0 = pos1 /\ virt_get N2 b' idx1 = pos0)) /\
  (forall p,
      virt_valid N2 b1 p -> p <> idx0 -> p <> idx1 ->
      virt_get N2 b' p = virt_get N2 b1 p).
Proof.
  intros threadID idx0 idx1 N2 b1 pos0 pos1 Ht Hne V0 V1 b'.
  destruct (run_gpusort_multi_indices gpusort_comp kern_column_to_column
              N reversing unitsz b errcode t Ht) as [Ex Ey].
  fold threadID idx0 idx1 N2 b1 b' in Ex, Ey.
  assert (Ev : forall p,
             virt_get N2 b' p
             = virt_get N2 (fst (multi_compare_swap gpusort_comp N N2
                                                    idx0 idx1 b1 errcode))
                        p).
  { intros p. unfold virt_get. now rewrite Ex, Ey. }
  destruct (multi_compare_swap_cases gpusort_comp N N2 idx0 idx1 b1 errcode)
    as [[E _] | [E _]]; fold pos0 pos1 in E.
  - split.
    + left. rewrite !Ev, E. split; reflexivity.
    + intros p _ _ _. rewrite Ev, E. reflexivity.
  - split.
    + right. rewrite !Ev, E. split.
      * rewrite virt_get_virt_set_other
          by (auto using virt_valid_virt_set).
        now apply virt_get_virt_set_same.
      * apply virt_get_virt_set_same. now apply virt_valid_virt_set.
    + intros p Vp H0 H1. rewrite Ev, E.
      rewrite virt_get_virt_set_other
        by (auto using virt_valid_virt_set).
      apply virt_get_virt_set_other; auto.
Qed.

Lemma merge_work_item_exchanges_witness :
  (virt_get 4
     (fst (run_gpusort_multi key_comp sample_column_to_column 8 true 8
             (sample_merge [3; 7] [1; 5; 9] 2) StromError_Success 1))
     1 = 1 /\
   virt_get 4
     (fst (run_gpusort_multi key_comp sample_column_to_column 8 true 8
             (sample_merge [3; 7] [1; 5; 9] 2) StromError_Success 1))
     6 = 6) \/
  (virt_get 4
     (fst (run_gpusort_multi key_comp sample_column_to_column 8 true 8
             (sample_merge [3; 7] [1; 5; 9] 2) StromError_Success 1))
     1 = 6 /\
   virt_get 4
     (fst (run_gpusort_multi key_comp sample_column_to_column 8 true 8
             (sample_merge [3; 7] [1; 5; 9] 2) StromError_Success 1))
     6 = 1).
Proof.
  refine (proj1 (merge_work_item_exchanges
                   key_comp sample_column_to_column 8 true 8
                   (sample_merge [3; 7] [1; 5; 9] 2) StromError_Success 1
                   _ _ _ _)).
  - vm_compute; reflexivity.
  - vm_compute; discriminate.
  - vm_compute. split; [discriminate | reflexivity].
  - vm_compute. repeat split; discriminate.
Defined.

(** X16: empty entries go last: after a work-item of the merge, the
    lower slot of its pair holds an empty entry (one at or above [N])
    only if the upper slot holds one too. *)
Theorem merge_empty_entries_last
        (gpusort_comp :
           StromError ->
           kern_column_store -> kern_toastbuf -> Z ->
           kern_column_store -> kern_toastbuf -> Z ->
           Z * StromError)
        (kern_column_to_column :
           StromError ->
           kern_column_store -> kern_toastbuf -> Z ->
           kern_column_store -> kern_toastbuf -> Z ->
           kern_column_store * kern_toastbuf * StromError)
        (N : Z) (reversing : bool) (unitsz : Z) (b : merge_bufs)
        (errcode : StromError) (t : Z) :
  let threadID := cl_int t in
  let idx0 := gpusort_idx0 unitsz threadID in
  let idx1 := gpusort_idx1 reversing unitsz idx0 in
  let N2 := Z.quot N 2 in
  let b1 := if reversing then multi_renumber N N2 threadID idx1 b else b in
  threadID < N2 -> idx0 <> idx1 ->
  virt_valid N2 b1 idx0 -> virt_valid N2 b1 idx1 ->
  let b' := fst (run_gpusort_multi gpusort_comp kern_column_to_column
                                   N reversing unitsz b errcode t) in
  N <= virt_get N2 b' idx0 -> N <= virt_get N2 b' idx1.
Proof.
  intros threadID idx0 idx1 N2 b1 Ht Hne V0 V1 b'.
  destruct (run_gpusort_multi_indices gpusort_comp kern_column_to_column
              N reversing unitsz b errcode t Ht) as [Ex Ey].
  fold threadID idx0 idx1 N2 b1 b' in Ex, Ey.
  assert (Ev : forall p,
             virt_get N2 b' p
             = virt_get N2 (fst (multi_compare_swap gpusort_comp N N2
                                                    idx0 idx1 b1 errcode))
                        p).
  { intros p. unfold virt_get. now rewrite Ex, Ey. }
  rewrite !Ev.
  destruct (multi_compare_swap_cases gpusort_comp N N2 idx0 idx1 b1 errcode)
    as [[E H] | [E H]]; rewrite E.
  - lia.
  - rewrite virt_get_virt_set_other by (auto using virt_valid_virt_set).
    rewrite virt_get_virt_set_same by exact V0.
    lia.
Qed.

Lemma merge_empty_entries_last_witness :
  8 <= virt_get 4
         (fst (run_gpusort_multi key_comp sample_column_to_column 8 true 8
                 (sample_merge [3] [1] 2) StromError_Success 2))
         2 /\
  8 <= virt_get 4
         (fst (run_gpusort_multi key_comp sample_column_to_column 8 true 8
                 (sample_merge [3] [1] 2) StromError_Success 2))
         5.
Proof.
  split.
  - vm_compute. discriminate.
  - refine (merge_empty_entries_last
              key_comp sample_column_to_column 8 true 8
              (sample_merge [3] [1] 2) StromError_Success 2
              _ _ _ _ _).
    + vm_compute; reflexivity.
    + vm_compute; discriminate.
    + vm_compute. split; [discriminate | reflexivity].
    + vm_compute. repeat split; discriminate.
    + vm_compute. discriminate.
Defined.

(** X17: the comparator is not consulted on empty entries: when one of
    the two entries a work-item of the merge looks at is empty (at or
    above [N]), what the work-item does is the same whatever the
    comparator. *)
Theorem merge_empty_entry_not_compared
        (comp1 comp2 :
           StromError ->
           kern_column_store -> kern_toastbuf -> Z ->
           kern_column_store -> kern_toastbuf -> Z ->
           Z * StromError)
        (kern_column_to_column :
           StromError ->
           kern_column_store -> kern_toastbuf -> Z ->
           kern_column_store -> kern_toastbuf -> Z ->
           kern_column_store * kern_toastbuf * StromError)
        (N : Z) (reversing : bool) (unitsz : Z) (b : merge_bufs)
        (errcode : StromError) (t : Z) :
  let threadID := cl_int t in
  let idx0 := gpusort_idx0 unitsz threadID in
  let idx1 := gpusort_idx1 reversing unitsz idx0 in
  let N2 := Z.quot N 2 in
  let b1 := if reversing then multi_renumber N N2 threadID idx1 b else b in
  N <= virt_get N2 b1 idx0 \/ N <= virt_get N2 b1 idx1 ->
  run_gpusort_multi comp1 kern_column_to_column
                    N reversing unitsz b errcode t
  = run_gpusort_multi comp2 kern_column_to_column
                      N reversing unitsz b errcode t.
Proof.
  intros threadID idx0 idx1 N2 b1 Hempty.
  unfold run_gpusort_multi. fold threadID idx0 idx1 N2.
  destruct (N2 <=? threadID); [reflexivity|].
  fold b1.
  assert (E : multi_compare_swap comp1 N N2 idx0 idx1 b1 errcode
              = multi_compare_swap comp2 N N2 idx0 idx1 b1 errcode).
  { unfold multi_compare_swap. cbv zeta.
    destruct (Z.leb_spec N (virt_get N2 b1 idx1)); [reflexivity|].
    destruct (Z.leb_spec N (virt_get N2 b1 idx0)); [reflexivity | lia]. }
  rewrite E. reflexivity.
Qed.

Lemma merge_empty_entry_not_compared_witness :
  run_gpusort_multi key_comp sample_column_to_column 8 true 8
                    (sample_merge [3; 7] [1; 5; 9] 2) StromError_Success 2
  = run_gpusort_multi faulting_comp sample_column_to_column 8 true 8
                      (sample_merge [3; 7] [1; 5; 9] 2) StromError_Success 2.
Proof.
  apply (merge_empty_entry_not_compared
           key_comp faulting_comp sample_column_to_column 8 true 8
           (sample_merge [3; 7] [1; 5; 9] 2) StromError_Success 2).
  left. vm_compute. discriminate.
Defined.

(** ** Worked examples *)

Example schedule_of_eight_slots :
  bitonic_schedule 3 = [- 1; - 2; 1; - 3; 2; 1].
Proof. reflexivity. Qed.

Example schedule_has_six_passes :
  2 * Z.of_nat (length (bitonic_schedule 3)) = 3 * (3 + 1).
Proof. apply (bitonic_schedule_length 3). Qed.

Example pairs_of_reversing_unit_four :
  map (fun t => (gpusort_idx0 4 t, gpusort_idx1 true 4 (gpusort_idx0 4 t)))
      [0; 1; 2; 3]
  = [(0, 3); (1, 2); (4, 7); (5, 6)].
Proof. reflexivity. Qed.

Example pairs_of_plain_unit_four :
  map (fun t => (gpusort_idx0 4 t, gpusort_idx1 false 4 (gpusort_idx0 4 t)))
      [0; 1; 2; 3]
  = [(0, 2); (1, 3); (4, 6); (5, 7)].
Proof. reflexivity. Qed.

Example sort_of_five_rows :
  KERN_GPUSORT_RESULT_INDEX
    (kchunk (bitonic_sort key_comp 3 4 (sample_gpusort [5; 3; 9; 1; 7] 3)))
  = [3; 1; 0; 4; 2; 5; 6; 7].
Proof. vm_compute. reflexivity. Qed.

Example merge_with_eight_in_N :
  live_keys
    (z_chunk0 (merge_chunks key_comp sample_column_to_column 8 3 4
                            (sample_merge [3; 7] [1; 5; 9] 2)))
  = [1; 3; 5; 7] /\
  live_keys
    (z_chunk1 (merge_chunks key_comp sample_column_to_column 8 3 4
                            (sample_merge [3; 7] [1; 5; 9] 2)))
  = [9].
Proof. split; vm_compute; reflexivity. Qed.
